(** * GFFutils: the ingestion core ([create.py]) and the writer ([gffwriter.py])

    A shallow embedding of [_DBCreator], [_GFFDBCreator], [_GTFDBCreator] and
    [GFFWriter], with the properties of the specification stated over it.

    Python objects are mutated in place; here every method returns the
    objects it mutated.  The creator is a state-and-exception monad over the
    mutable part of [self]; the constructor arguments that are never
    reassigned are a read-only [Config]. *)

From Stdlib Require Import ZArith Ascii.
From stdpp Require Import base option strings list gmap sorting pretty.

(** ** Behaviour the runtime leaves open *)

(** The iteration order of a [set] and of a (Python 2) [dict] is not fixed by
    the language.  [set_iter l] is the order in which the set built from the
    elements [l] (in that order) is iterated; [dict_iter l] the order in which
    a dict filled with the items [l] yields them.

    Nor does sqlite fix the row from which an aggregate query takes its bare
    columns: for [SELECT MIN(start), MAX(end), strand, seqid] it is one of the
    joined rows (since sqlite 3.7.11 one that holds the minimum or the
    maximum), and which one is left open.  [bare_columns rows] gives
    [(strand, seqid)] of that row, [rows] being the joined rows as
    [(start, end, strand, seqid)]; without a row there is none. *)
Class PyRuntime := {
  set_iter : list string → list string;
  set_iter_NoDup : ∀ l, NoDup (set_iter l);
  set_iter_elem_of : ∀ l x, x ∈ set_iter l ↔ x ∈ l;
  dict_iter : ∀ {V}, list (string * V) → list (string * V);
  dict_iter_Permutation : ∀ V (l : list (string * V)), dict_iter l ≡ₚ l;
  bare_columns : list (option Z * option Z * string * string)
                 → option (string * string);
  bare_columns_elem_of : ∀ rows b,
    bare_columns rows = Some b → ∃ s e, (s, e, b.1, b.2) ∈ rows;
  bare_columns_None : ∀ rows, bare_columns rows = None → rows = []
}.

(** ** Feature records *)

(** Column nine: an ordered mapping from key to value list, which behaves as a
    [defaultdict(list)]. *)
Abbreviation Attributes := (list (string * list string)).

Module feature.

(** Modelled from the spec: the [Feature] class of [feature.py], with the
    fields of section 3 of the specification.  [start] and [end] are an
    integer or the placeholder ".", here [None]. *)
Record Feature := mkFeature {
  id : string;
  seqid : string;
  source : string;
  featuretype : string;
  start : option Z;
  end_ : option Z;
  score : string;
  strand : string;
  frame : string;
  attributes : Attributes;
  extra : list string;
  bin : option Z
}.

Definition set_id (i : string) (f : Feature) : Feature :=
  mkFeature i (seqid f) (source f) (featuretype f) (start f) (end_ f)
            (score f) (strand f) (frame f) (attributes f) (extra f) (bin f).

Definition set_attributes (a : Attributes) (f : Feature) : Feature :=
  mkFeature (id f) (seqid f) (source f) (featuretype f) (start f) (end_ f)
            (score f) (strand f) (frame f) a (extra f) (bin f).

(** How an optional coordinate is written on the wire. *)
Definition str_coord (c : option Z) : string :=
  match c with
  | Some z => pretty z
  | None => "."
  end.

(** [getattr(f, name)] for the eight leading columns; the value is given as
    the text the store keeps for it.  Any other name has no column. *)
Definition getattr (f : Feature) (name : string) : option string :=
  if decide (name = "seqid") then Some (seqid f)
  else if decide (name = "source") then Some (source f)
  else if decide (name = "featuretype") then Some (featuretype f)
  else if decide (name = "start") then Some (str_coord (start f))
  else if decide (name = "end") then Some (str_coord (end_ f))
  else if decide (name = "score") then Some (score f)
  else if decide (name = "strand") then Some (strand f)
  else if decide (name = "frame") then Some (frame f)
  else None.

End feature.
Export feature.

Global Instance Feature_eq_dec : EqDecision Feature.
Proof. solve_decision. Defined.

(** *** Operations of the attribute mapping *)

Fixpoint attr_lookup (k : string) (a : Attributes) : option (list string) :=
  match a with
  | [] => None
  | (k', v) :: a' => if decide (k = k') then Some v else attr_lookup k a'
  end.

(** [k in attributes] *)
Definition attr_mem (k : string) (a : Attributes) : bool :=
  bool_decide (is_Some (attr_lookup k a)).

(** The value read by [attributes[k]]: a missing key reads as the empty list. *)
Definition attr_get (k : string) (a : Attributes) : list string :=
  default [] (attr_lookup k a).

(** [attributes[k] = v]: an existing key keeps its position, a new one goes
    last. *)
Fixpoint attr_set (k : string) (v : list string) (a : Attributes) : Attributes :=
  match a with
  | [] => [(k, v)]
  | (k', v') :: a' =>
      if decide (k = k') then (k, v) :: a' else (k', v') :: attr_set k v a'
  end.

(** [del attributes[k]] *)
Definition attr_del (k : string) (a : Attributes) : Attributes :=
  filter (λ kv, kv.1 ≠ k) a.

(** ** The store *)

Record Edge := mkEdge {
  parent : string;
  child : string;
  level : nat
}.

Global Instance Edge_eq_dec : EqDecision Edge.
Proof. solve_decision. Defined.

(** Modelled from the spec: the tables of [constants.SCHEMA] that the properties
    read.  [features] has primary key [id]; a row of [relations] is unique.
    Rows are kept in insertion order. *)
Record DB := mkDB {
  features : list Feature;
  relations : list Edge;
  autoincrements : gmap string nat
}.

Definition empty_db : DB := mkDB [] [] ∅.

Definition ids (db : DB) : list string := id <$> features db.

(** [INSERT INTO features]: [None] stands for [sqlite3.IntegrityError], raised
    when the primary key is taken. *)
Definition sql_insert_feature (f : Feature) (db : DB) : option DB :=
  if decide (id f ∈ ids db) then None
  else Some (mkDB (features db ++ [f]) (relations db) (autoincrements db)).

(** [UPDATE features SET attributes = ? WHERE id = ?] *)
Definition sql_update_attributes (a : Attributes) (i : string) (db : DB) : DB :=
  mkDB ((λ r, if decide (id r = i) then set_attributes a r else r) <$> features db)
       (relations db) (autoincrements db).

(** [INSERT OR IGNORE INTO relations] *)
Definition sql_insert_relation (e : Edge) (db : DB) : DB :=
  if decide (e ∈ relations db) then db
  else mkDB (features db) (relations db ++ [e]) (autoincrements db).

Definition sql_insert_relations (es : list Edge) (db : DB) : DB :=
  foldl (λ d e, sql_insert_relation e d) db es.

(** [SELECT ... FROM features WHERE id = ?], [fetchone()] *)
Definition sql_select_feature (i : string) (db : DB) : option Feature :=
  snd <$> list_find (λ r, id r = i) (features db).

(** ** Exceptions *)

(** [AssertionError] keeps the format string and the tuple it is applied to. *)
Inductive Exn :=
  | IntegrityError
  | ValueError (msg : string)
  | AssertionError (fmt : string) (args : string * nat * option Feature)
  | AttributeError (obj name : string)
  | TypeError (msg : string)
  | IndexError
  | UnboundLocalError (name : string)
  | FeatureNotFoundError (key : string).

Inductive Result (A : Type) :=
  | Ok (a : A)
  | Raise (e : Exn).
Arguments Ok {A} a.
Arguments Raise {A} e.

(** ** Text: the [str] methods that the scratch file goes through *)

Definition tab : ascii := "009"%char.
Definition newline : ascii := "010"%char.

(** [c.isspace()] for a byte of a Python 2 [str]: the six characters of
    [string.whitespace]. *)
Definition isspace (c : ascii) : bool :=
  bool_decide (c ∈ [" "; "009"; "010"; "011"; "012"; "013"]%char).

Fixpoint lstrip (s : string) : string :=
  match s with
  | String c s' => if isspace c then lstrip s' else s
  | EmptyString => EmptyString
  end.

Fixpoint rstrip (s : string) : string :=
  match s with
  | EmptyString => EmptyString
  | String c s' =>
      match rstrip s' with
      | EmptyString => if isspace c then EmptyString else String c EmptyString
      | r => String c r
      end
  end.

(** [s.strip()] *)
Definition strip (s : string) : string := rstrip (lstrip s).

(** [s.split(sep)] for a separator of one character: the fields between the
    separators, the empty ones too. *)
Fixpoint split (sep : ascii) (s : string) : list string :=
  match s with
  | EmptyString => [EmptyString]
  | String c s' =>
      if decide (c = sep) then EmptyString :: split sep s'
      else match split sep s' with
           | field :: fields => String c field :: fields
           | [] => [String c EmptyString]
           end
  end.

(** [for line in open(name)]: the lines of a file, each with the newline
    that ends it; what follows the last newline is a line too. *)
Fixpoint readlines (s : string) : list string :=
  match s with
  | EmptyString => []
  | String c s' =>
      if decide (c = newline) then String c EmptyString :: readlines s'
      else match readlines s' with
           | line :: lines => String c line :: lines
           | [] => [String c EmptyString]
           end
  end.

(** ** The creator: configuration, mutable state, monad *)

(** One candidate of an [id_spec]: an attribute key (or a sentinel such as
    ":seqid:"), or a callable. *)
Inductive IdKey :=
  | KeyStr (k : string)
  | KeyCall (fn : Feature → option string).

(** The value a dict [id_spec] holds for a feature type. *)
Inductive DictVal :=
  | DictStr (k : string)
  | DictSeq (ks : list IdKey).

Inductive IdSpec :=
  | SpecStr (k : string)
  | SpecCall (fn : Feature → option string)
  | SpecDict (d : gmap string DictVal)
  | SpecSeq (ks : list IdKey).

Inductive MergeStrategy :=
  | MSError
  | MSWarning
  | MSReplace
  | MSMerge
  | MSCreateUnique
  | MSOther (s : string).

Global Instance MergeStrategy_eq_dec : EqDecision MergeStrategy.
Proof. solve_decision. Defined.

(** The constructor arguments; [transcript_key], [gene_key] and [subfeature]
    are read by [_GTFDBCreator] only. *)
Record Config := mkConfig {
  merge_strategy : MergeStrategy;
  id_spec : IdSpec;
  verbose : bool;
  transcript_key : string;
  gene_key : string;
  subfeature : string
}.

(** The mutable part of [self].  [current_item_number] and [current_item] are
    the iterator's; [stderr] collects the counts of the progress messages. *)
Record State := mkState {
  _autoincrements : gmap string nat;
  conn : DB;
  current_item_number : nat;
  current_item : option Feature;
  stderr : list nat
}.

(** An exception leaves the mutations made before it in place. *)
Definition M (A : Type) : Type := State → Result A * State.

Global Instance M_ret : MRet M := λ A a st, (Ok a, st).
Global Instance M_bind : MBind M := λ A B k m st,
  match m st with
  | (Ok a, st') => k a st'
  | (Raise e, st') => (Raise e, st')
  end.

Definition raise {A} (e : Exn) : M A := λ st, (Raise e, st).
(** Raise an exception built from what [self] holds at that moment. *)
Definition raise_with {A} (e : State → Exn) : M A := λ st, (Raise (e st), st).

(** [try: body except IntegrityError: handler] *)
Definition try_except_IntegrityError {A} (body handler : M A) : M A := λ st,
  match body st with
  | (Raise IntegrityError, st') => handler st'
  | r => r
  end.

Definition get_conn : M DB := λ st, (Ok (conn st), st).
Definition put_conn (db : DB) : M unit := λ st,
  (Ok (), mkState (_autoincrements st) db (current_item_number st)
                  (current_item st) (stderr st)).
Definition modify_conn (g : DB → DB) : M unit :=
  db ← get_conn; put_conn (g db).

(** [sys.stderr.write(msg % i)] *)
Definition write_progress (i : nat) : M unit := λ st,
  (Ok (), mkState (_autoincrements st) (conn st) (current_item_number st)
                  (current_item st) (stderr st ++ [i])).

(** Modelled from the spec: [iterators.DataIterator], which keeps the record
    it handed out last and its number in [current_item] and
    [current_item_number]; the records of an input are numbered from 0. *)
Definition iterator_next (i : nat) (f : Feature) : M unit := λ st,
  (Ok (), mkState (_autoincrements st) (conn st) i (Some f) (stderr st)).

(** [for x in xs: body(x)] *)
Fixpoint for_each {A} (xs : list A) (body : A → M unit) : M unit :=
  match xs with
  | [] => mret ()
  | x :: xs' => body x;; for_each xs' body
  end.

(** [c.execute(constants._INSERT, f.astuple())] *)
Definition execute_insert (f : Feature) : M unit :=
  db ← get_conn;
  match sql_insert_feature f db with
  | Some db' => put_conn db'
  | None => raise IntegrityError
  end.

Section creator.
Context `{PyRuntime}.
Variable self : Config.

(** *** [_DBCreator] *)

Definition _increment_featuretype_autoid (key : string) : M string := λ st,
  let n := S (default 0 (_autoincrements st !! key)) in
  (Ok (key +:+ "_" +:+ pretty n),
   mkState (<[key := n]> (_autoincrements st)) (conn st)
           (current_item_number st) (current_item st) (stderr st)).

(** [(len(k) > 3) and (k[0] == ':') and (k[-1] == ':')] *)
Definition is_sentinel (k : string) : bool :=
  bool_decide (3 < String.length k)
  && bool_decide (String.get 0 k = Some ":"%char)
  && bool_decide (String.get (String.length k - 1) k = Some ":"%char).

(** [k[1:-1]] *)
Definition strip_colons (k : string) : string :=
  String.substring 1 (String.length k - 2) k.

(** The loop [for k in id_key] of [_id_handler], with the fall-through to
    the default auto-increment.  Returns the id together with [f], whose
    attributes the loop may have changed. *)
Fixpoint try_id_keys (id_key : list IdKey) (f : Feature) : M (string * Feature) :=
  match id_key with
  | [] =>
      i ← _increment_featuretype_autoid (featuretype f); mret (i, f)
  | KeyCall k :: rest =>
      match k f with
      | Some _id =>
          if bool_decide (_id = "") then
            raise (TypeError "object of type 'function' has no len()")
          else if String.prefix "autoincrement:" _id then
            i ← _increment_featuretype_autoid
                  (String.substring 14 (String.length _id - 14) _id);
            mret (i, f)
          else mret (_id, f)
      | None => raise (TypeError "object of type 'function' has no len()")
      end
  | KeyStr k :: rest =>
      if is_sentinel k then
        match getattr f (strip_colons k) with
        | Some v => mret (v, f)
        | None => raise (AttributeError "Feature" (strip_colons k))
        end
      else
        match attr_get k (attributes f) with
        | [] => try_id_keys rest (set_attributes (attr_del k (attributes f)) f)
        | v0 :: _ => mret (v0, f)
        end
  end.

Definition _id_handler (f : Feature) : M (string * Feature) :=
  match id_spec self with
  | SpecStr k => try_id_keys [KeyStr k] f
  | SpecCall fn => try_id_keys [KeyCall fn] f
  | SpecDict d =>
      match d !! featuretype f with
      | Some (DictStr k) => try_id_keys [KeyStr k] f
      | Some (DictSeq ks) => try_id_keys ks f
      | None =>
          i ← _increment_featuretype_autoid (featuretype f); mret (i, f)
      end
  | SpecSeq ks => try_id_keys ks f
  end.

Definition _get_feature (ID : string) : M Feature :=
  db ← get_conn;
  match sql_select_feature ID db with
  | Some r => mret r
  | None => raise (TypeError "type object argument after ** must be a mapping, not NoneType")
  end.

(** Modelled from the spec: [constants._gffkeys], the nine column names of a
    GFF line; [_gffkeys[:-1]] leaves out [attributes]. *)
Definition _gffkeys : list string :=
  ["seqid"; "source"; "featuretype"; "start"; "end"; "score"; "strand";
   "frame"; "attributes"].

(** The update loop of the [merge] branch:
    [attributes[k] = list(set(attributes[k]).union(v))] for every item of
    [f.attributes]. *)
Definition merge_attributes (existing new : Attributes) : Attributes :=
  foldl (λ acc kv, attr_set kv.1 (set_iter (attr_get kv.1 acc ++ kv.2)) acc)
        existing new.

Definition merge_assert_fmt : string :=
  "Same ID, but differing info for %s field. Line %s: \n%s".

(** Returns [fixed] ([None] is Python's [None]) and [f], which the
    [create_unique] branch renames. *)
Definition _do_merge (f : Feature) : M (option Feature * Feature) :=
  match merge_strategy self with
  | MSError => raise (ValueError ("Duplicate ID " +:+ id f))
  | MSWarning => mret (None, f)
  | MSReplace => mret (Some f, f)
  | MSMerge =>
      existing_feature ← _get_feature (id f);
      match list_find (λ k, getattr existing_feature k ≠ getattr f k)
                      (removelast _gffkeys) with
      | Some _ =>
          raise_with (λ st, AssertionError merge_assert_fmt
                              (id f, current_item_number st, current_item st))
      | None =>
          mret (Some (set_attributes
                        (merge_attributes (attributes existing_feature)
                                          (attributes f))
                        existing_feature), f)
      end
  | MSCreateUnique =>
      i ← _increment_featuretype_autoid (id f);
      mret (Some (set_id i f), set_id i f)
  | MSOther s => raise (ValueError ("Invalid merge strategy '" +:+ s +:+ "'"))
  end.

End creator.

(** ** The drivers *)

(** [bins.bins(start, end, one=True)] of the [bins] module: the UCSC bin of an
    interval. *)
Class BinsModule := bins : option Z → option Z → option Z.

(** [ORDER BY relations.parent] on rows [(transcript, gene)]: byte order of
    the gene id. *)
Definition gene_le (x y : string * string) : Prop := String.leb x.2 y.2 = true.

Global Instance gene_le_dec : RelDecision gene_le.
Proof. intros x y. unfold gene_le. apply _. Defined.

(** The two methods that [_DBCreator] leaves to its subclasses. *)
Class DBCreator := {
  _populate_from_lines : Config → list Feature → M unit;
  _update_relations : Config → M unit
}.

Section drivers.
Context `{PyRuntime, BinsModule}.
Variable self : Config.

(** The [try ... except sqlite3.IntegrityError] block that both
    [_populate_from_lines] share.  Returns [f], which [_do_merge] may have
    renamed. *)
Definition insert_feature (f : Feature) : M Feature :=
  try_except_IntegrityError
    (execute_insert f;; mret f)
    ('(fixed, f) ← _do_merge self f;
     if bool_decide (merge_strategy self ∈ [MSMerge; MSReplace]) then
       match fixed with
       | Some fixed =>
           modify_conn (sql_update_attributes (attributes fixed) (id fixed));;
           mret f
       | None => raise (AttributeError "NoneType" "attributes")
       end
     else if bool_decide (merge_strategy self = MSCreateUnique) then
       execute_insert f;; mret f
     else mret f).

(** [if self.verbose: if i % 1000 == 0: sys.stderr.write(msg % i)] *)
Definition percent_complete (i : nat) : M unit :=
  if verbose self then
    if bool_decide (i `mod` 1000 = 0) then write_progress i else mret ()
  else mret ().

(** [for i, f in enumerate(lines)], the records being drawn from the
    creator's iterator.  [update] is taken to be given that iterator too:
    the numbers matter to the message of the merge conflict only. *)
Definition enumerate_lines (lines : list Feature)
    (body : nat → Feature → M unit) : M unit :=
  for_each (imap pair lines)
           (λ '(i, f), iterator_next i f;; body i f).

(** *** [_GFFDBCreator] *)

(** The body of the loop of [_GFFDBCreator._populate_from_lines], on the
    branch [ONEBYONE = True]. *)
Definition gff_populate_line (i : nat) (f : Feature) : M unit :=
  percent_complete i;;
  '(fid, f) ← _id_handler self f;
  f ← insert_feature (set_id fid f);
  if attr_mem "Parent" (attributes f) then
    for_each (attr_get "Parent" (attributes f))
             (λ parent, modify_conn (sql_insert_relation (mkEdge parent (id f) 1)))
  else mret ().

Definition gff_populate_from_lines (lines : list Feature) : M unit :=
  enumerate_lines lines gff_populate_line;;
  if verbose self then write_progress 0 else mret ().

(** [SELECT child FROM relations WHERE parent IN
     (SELECT child FROM relations WHERE parent = ?)] *)
Definition select_grandchildren (db : DB) (p : string) : list string :=
  let children := child <$> filter (λ e, parent e = p) (relations db) in
  child <$> filter (λ e, parent e ∈ children) (relations db).

(** The lines that the loop over the ids writes to the scratch file:
    ['\t'.join((parent[0], grandchild[0])) + '\n']. *)
Definition grandchild_lines (db : DB) : list string :=
  p ← ids db; grandchild ← select_grandchildren db p;
  [p +:+ String tab (grandchild +:+ String newline "")].

(** [parent, child = line.strip().split('\t')], and the row that
    [relations_generator] yields; the unpacking wants two fields. *)
Definition relations_generator_row (line : string) : Result Edge :=
  match split tab (strip line) with
  | [parent; child] => Ok (mkEdge parent child 2)
  | _ :: _ :: _ :: _ => Raise (ValueError "too many values to unpack")
  | _ => Raise (ValueError "need more than 1 value to unpack")
  end.

(** The scratch file is written in full, then read back line by line;
    [executemany] inserts the rows as the generator yields them, so the rows
    of the lines before one that fails to unpack are in the table. *)
Definition gff_update_relations : M unit :=
  db ← get_conn;
  let fout := foldl (λ out line, out +:+ line) "" (grandchild_lines db) in
  for_each (readlines fout)
           (λ line,
              match relations_generator_row line with
              | Ok row => modify_conn (sql_insert_relation row)
              | Raise e => raise e
              end).

(** *** [_GTFDBCreator] *)

Definition gtf_relations (f : Feature) : M (list Edge) :=
  '(parent, relations) ←
    (if attr_mem (transcript_key self) (attributes f) then
       match attr_get (transcript_key self) (attributes f) with
       | p :: _ => mret (Some p, [mkEdge p (id f) 1])
       | [] => raise IndexError
       end
     else mret (None, []));
  if attr_mem (gene_key self) (attributes f) then
    match attr_get (gene_key self) (attributes f) with
    | grandparent :: _ =>
        mret (relations ++ [mkEdge grandparent (id f) 2] ++
              match parent with
              | Some p => [mkEdge grandparent p 1]
              | None => []
              end)
    | [] => mret relations
    end
  else mret relations.

Definition gtf_populate_line (i : nat) (f : Feature) : M unit :=
  percent_complete i;;
  '(fid, f) ← _id_handler self f;
  f ← insert_feature (set_id fid f);
  relations ← gtf_relations f;
  modify_conn (sql_insert_relations relations).

(** After the loop [i] is the index of the last record, and unbound when
    there was none. *)
Definition gtf_populate_from_lines (lines : list Feature) : M unit :=
  enumerate_lines lines gtf_populate_line;;
  if verbose self then
    match lines with
    | [] => raise (UnboundLocalError "i")
    | _ :: _ => write_progress (length lines - 1)
    end
  else mret ().

(** The subquery [firstlevel]: the distinct level-1 parents of the records
    of type [subfeature]. *)
Definition select_firstlevel (db : DB) : list string :=
  remove_dups
    (e ← relations db; f ← features db;
     if bool_decide (id f = child e ∧ featuretype f = subfeature self ∧ level e = 1)
     then [parent e] else []).

(** The outer query: [(transcript_id, gene_id)], ordered by gene id. *)
Definition select_transcript_gene (db : DB) : list (string * string) :=
  merge_sort gene_le
    (remove_dups
       (t ← select_firstlevel db; e ← relations db;
        if bool_decide (t = child e ∧ level e = 1) then [(t, parent e)] else [])).

(** The rows joined by
    [FROM features JOIN relations ON features.id = relations.child
     WHERE parent = ? AND featuretype == ?] *)
Definition select_subfeatures (db : DB) (p : string) : list Feature :=
  f ← features db; e ← relations db;
  if bool_decide (id f = child e ∧ parent e = p ∧ featuretype f = subfeature self)
  then [f] else [].

Definition opt_min (a : option Z) (b : Z) : option Z :=
  Some (from_option (Z.min b) b a).
Definition opt_max (a : option Z) (b : Z) : option Z :=
  Some (from_option (Z.max b) b a).

(** [MIN(start)] and [MAX(end)]: NULL values are left out, and the result is
    NULL when nothing is left. *)
Definition sql_min (l : list (option Z)) : option Z := foldl opt_min None (omap (λ x, x) l).
Definition sql_max (l : list (option Z)) : option Z := foldl opt_max None (omap (λ x, x) l).

(** [SELECT MIN(start), MAX(end), strand, seqid]: the two bare columns are
    those of the joined row that the runtime picks; without a row they are
    NULL, which [str] writes as "None". *)
Definition select_extent (db : DB) (p : string)
    : option Z * option Z * string * string :=
  let rows := select_subfeatures db p in
  let bare :=
    bare_columns ((λ r, (start r, end_ r, strand r, seqid r)) <$> rows) in
  (sql_min (start <$> rows), sql_max (end_ <$> rows),
   from_option fst "None" bare, from_option snd "None" bare).

(** A line of the scratch file as [derived_feature_generator] reads it back,
    before the id is assigned. *)
Definition derived_feature (extent : option Z * option Z * string * string)
    (ftype : string) (attrs : Attributes) : Feature :=
  let '(fstart, fend, fstrand, fseqid) := extent in
  mkFeature "" fseqid "gffutils_derived" ftype fstart fend "." fstrand "."
            attrs [] (bins fstart fend).

(** The loop over the query's rows, [last_gene_id] being [None] at first. *)
Fixpoint derive_features (db : DB) (last_gene_id : option string)
    (rows : list (string * string)) : list Feature :=
  match rows with
  | [] => []
  | (transcript_id, gene_id) :: rows' =>
      derived_feature (select_extent db transcript_id) "transcript"
        (attr_set (gene_key self) [gene_id]
                  [(transcript_key self, [transcript_id])])
      :: (if bool_decide (Some gene_id ≠ last_gene_id) then
            [derived_feature (select_extent db gene_id) "gene"
               [(gene_key self, [gene_id])]]
          else [])
      ++ derive_features db (Some gene_id) rows'
  end.

(** The final loop: insert what [derived_feature_generator] yields. *)
Definition insert_derived (f : Feature) : M unit :=
  '(fid, f) ← _id_handler self f;
  let f := set_id fid f in
  try_except_IntegrityError
    (execute_insert f)
    ('(fixed, f) ← _do_merge self f;
     match fixed with
     | Some fixed =>
         modify_conn (sql_update_attributes (attributes fixed) (id fixed))
     | None => raise (AttributeError "NoneType" "attributes")
     end).

Definition gtf_update_relations : M unit :=
  db ← get_conn;
  let fout := derive_features db None (select_transcript_gene db) in
  for_each fout insert_derived.

End drivers.

Global Instance _GFFDBCreator `{PyRuntime} : DBCreator :=
  {| _populate_from_lines := gff_populate_from_lines;
     _update_relations := λ _, gff_update_relations |}.

Global Instance _GTFDBCreator `{PyRuntime, BinsModule} : DBCreator :=
  {| _populate_from_lines := gtf_populate_from_lines;
     _update_relations := gtf_update_relations |}.

Section create.
Context `{DBCreator}.
Variable self : Config.

(** Modelled from the spec: [constants.SCHEMA] sets up the empty tables. *)
Definition _init_tables : M unit := put_conn empty_db.

(** Of [_finalize] the write to [autoincrements] is kept:
    [INSERT OR REPLACE INTO autoincrements VALUES (?, ?)] for every counter.
    The [meta] and [directives] tables are not part of the model. *)
Definition _finalize : M unit := λ st,
  modify_conn (λ db, mkDB (features db) (relations db)
                          (_autoincrements st ∪ autoincrements db)) st.

Definition create (lines : list Feature) : M unit :=
  _init_tables;;
  _populate_from_lines self lines;;
  _update_relations self;;
  _finalize.

Definition update (iterator : list Feature) : M unit :=
  _populate_from_lines self iterator;;
  _update_relations self.

End create.

(** ** The writer ([gffwriter.py]) *)

Module gffwriter.

(** Modelled from the spec: the read side of [interface.FeatureDB] that the
    writer calls, [db[id]] and [db.children(id, level, featuretype)]; [None]
    for [level] or [featuretype] is the default, no restriction. *)
Record FeatureDB := mkFeatureDB {
  getitem : string → option Feature;
  children : string → option nat → option string → list Feature
}.

(** The writer's state is the output stream, as the records written. *)
Definition W (A : Type) : Type := list Feature → Result A * list Feature.

Global Instance W_ret : MRet W := λ A a out, (Ok a, out).
Global Instance W_bind : MBind W := λ A B k m out,
  match m out with
  | (Ok a, out') => k a out'
  | (Raise e, out') => (Raise e, out')
  end.

Fixpoint for_rec {A} (xs : list A) (body : A → W unit) : W unit :=
  match xs with
  | [] => mret ()
  | x :: xs' => body x;; for_rec xs' body
  end.

(** [d[k] = v] on the items of a dict *)
Fixpoint dict_set {V} (k : string) (v : V) (d : list (string * V))
    : list (string * V) :=
  match d with
  | [] => [(k, v)]
  | (k', v') :: d' =>
      if decide (k = k') then (k, v) :: d' else (k', v') :: dict_set k v d'
  end.

(** Python 2 orders [None] before every integer. *)
Definition start_le (x y : option Z) : Prop :=
  match x, y with
  | None, _ => True
  | Some _, None => False
  | Some a, Some b => (a ≤ b)%Z
  end.

Global Instance start_le_dec : RelDecision start_le.
Proof. intros [a|] [b|]; simpl; apply _. Defined.

(** [key=lambda x: x[1], reverse=True] and [key=lambda x: x[1]] *)
Definition by_len_desc (x y : string * Z) : Prop := (y.2 ≤ x.2)%Z.
Definition by_start (x y : string * option Z) : Prop := start_le x.2 y.2.

Global Instance by_len_desc_dec : RelDecision by_len_desc.
Proof. intros x y. unfold by_len_desc. apply _. Defined.
Global Instance by_start_dec : RelDecision by_start.
Proof. intros x y. unfold by_start. apply _. Defined.

(** [sorted(l, key=...)], [R x y] saying that [x] may stand before [y].
    Python's sort is stable, with [reverse=True] as well: of two items that
    may stand either way round, the one that came first stays first. *)
Fixpoint sorted_insert {A} (R : relation A) `{!RelDecision R}
    (x : A) (l : list A) : list A :=
  match l with
  | [] => [x]
  | y :: l' => if decide (R x y) then x :: l else y :: sorted_insert R x l'
  end.

Definition sorted {A} (R : relation A) `{!RelDecision R} (l : list A) : list A :=
  foldr (sorted_insert R) [] l.

Section writer.
Context `{PyRuntime}.
(** [len(exon)], the [__len__] of a record *)
Variable len : Feature → Z.
Variable db : FeatureDB.

Definition write_rec (rec : Feature) : W unit := λ out, (Ok (), out ++ [rec]).

Definition write_recs (recs : list Feature) : W unit := for_rec recs write_rec.

Definition db_getitem (i : string) : W Feature := λ out,
  match getitem db i with
  | Some rec => (Ok rec, out)
  | None => (Raise (FeatureNotFoundError i), out)
  end.

Definition write_exon_children (exon_id : string) : W unit :=
  for_rec (children db exon_id None None) write_rec.

(** The dict [exon_starts] after the loop over [mRNA_children]. *)
Definition exon_starts (mRNA_id : string) : list (string * option Z) :=
  foldl (λ d child_rec,
           if decide (featuretype child_rec = "exon")
           then dict_set (id child_rec) (start child_rec) d else d)
        [] (children db mRNA_id None None).

Definition nonexonic_children (mRNA_id : string) : list Feature :=
  filter (λ child_rec, featuretype child_rec ≠ "exon")
         (children db mRNA_id None None).

Definition sorted_exons (mRNA_id : string) : list (string * option Z) :=
  sorted by_start (dict_iter (exon_starts mRNA_id)).

Definition write_mRNA_children (mRNA_id : string) : W unit :=
  for_rec (sorted_exons mRNA_id)
          (λ curr_exon,
             exon_rec ← db_getitem curr_exon.1;
             write_rec exon_rec;;
             write_exon_children curr_exon.1);;
  write_recs (nonexonic_children mRNA_id).

(** [sum(len(exon) for exon in db.children(mRNA, featuretype="exon"))] *)
Definition exons_length (mRNA_id : string) : Z :=
  foldr Z.add 0%Z (len <$> children db mRNA_id None (Some "exon")).

(** The dict [mRNA_lens] after its loop. *)
Definition mRNA_lens (gene_id : string) : list (string * Z) :=
  foldl (λ d mRNA, dict_set (id mRNA) (exons_length (id mRNA)) d)
        [] (children db gene_id None (Some "mRNA")).

Definition sorted_mRNAs (gene_id : string) : list (string * Z) :=
  sorted by_len_desc (dict_iter (mRNA_lens gene_id)).

Definition write_gene_recs (gene_id : string) : W unit :=
  gene_rec ← db_getitem gene_id;
  write_rec gene_rec;;
  for_rec (sorted_mRNAs gene_id)
          (λ curr_mRNA,
             mRNA_rec ← db_getitem curr_mRNA.1;
             write_rec mRNA_rec;;
             write_mRNA_children curr_mRNA.1);;
  for_rec (children db gene_id (Some 1) None)
          (λ gene_child,
             if decide (featuretype gene_child ≠ "mRNA")
             then write_rec gene_child else mret ()).

End writer.

End gffwriter.

(** ** Concrete runtimes *)

Definition string_le (x y : string) : Prop := String.leb x y = true.

Global Instance string_le_dec : RelDecision string_le.
Proof. intros x y. unfold string_le. apply _. Defined.

(** The first of the rows [best :: rows] whose start is the least; a NULL
    start is passed over when another row has a number. *)
Fixpoint min_start_row (best : option Z * option Z * string * string)
    (rows : list (option Z * option Z * string * string))
    : option Z * option Z * string * string :=
  match rows with
  | [] => best
  | r :: rows' =>
      min_start_row
        match r.1.1.1, best.1.1.1 with
        | Some a, Some b => if bool_decide (a < b)%Z then r else best
        | Some _, None => r
        | None, _ => best
        end rows'
  end.

(** A runtime whose sets iterate in ascending byte order, whose dicts
    iterate in insertion order, and whose aggregate queries take their bare
    columns from the first row that holds [MIN(start)]. *)
Program Definition ascending_runtime : PyRuntime :=
  {| set_iter l := merge_sort string_le (remove_dups l);
     dict_iter _ l := l;
     bare_columns rows :=
       match rows with
       | [] => None
       | r :: rows' => let m := min_start_row r rows' in Some (m.1.2, m.2)
       end |}.
Next Obligation.
  intros l. rewrite merge_sort_Permutation. apply NoDup_remove_dups.
Qed.
Next Obligation.
  intros l x. rewrite merge_sort_Permutation. apply elem_of_remove_dups.
Qed.
Next Obligation. done. Qed.
Next Obligation.
  intros [|r rows] b; [done|]. intros [= <-]. simpl.
  assert (∀ best, min_start_row best rows ∈ best :: rows) as Hin.
  { induction rows as [|r' rows IH]; intros best; simpl; [left|].
    match goal with |- min_start_row ?b _ ∈ _ => pose proof (IH b) as Hb end.
    apply elem_of_cons in Hb as [->|Hb]; [|by do 2 right].
    destruct (r'.1.1.1), (best.1.1.1); try case_bool_decide;
      try (by left); by (right; left). }
  specialize (Hin r). destruct (min_start_row r rows) as [[[s e] sd] sq].
  by exists s, e.
Qed.
Next Obligation. by intros [|r rows]. Qed.

(** Modelled from the spec: the UCSC binning function that section 3 names for
    [bin], on the 1-based inclusive interval of a record; the smallest bin
    that holds the interval. *)
Definition ucsc_bin (fstart fend : option Z) : option Z :=
  match fstart, fend with
  | Some s, Some e =>
      let fix go (offsets : list Z) (sb eb : Z) : option Z :=
        match offsets with
        | [] => None
        | o :: offsets' =>
            if bool_decide (sb = eb) then Some (o + sb)%Z
            else go offsets' (Z.shiftr sb 3) (Z.shiftr eb 3)
        end in
      go [585; 73; 9; 1; 0]%Z (Z.shiftr (s - 1) 17) (Z.shiftr (e - 1) 17)
  | _, _ => None
  end.

Definition ucsc_bins : BinsModule := ucsc_bin.

(** ** [create_db] *)

Inductive Fmt := gff3 | gtf.

(** [cls] as [create_db] chooses it from the dialect. *)
Definition creator_class `{PyRuntime, BinsModule} (fmt : Fmt) : DBCreator :=
  match fmt with
  | gff3 => _GFFDBCreator
  | gtf => _GTFDBCreator
  end.

(** The [id_spec] that [create_db] passes on: [id_spec or 'ID'] for GFF and
    [id_spec or {'gene': 'gene_id', 'transcript': 'transcript_id'}] for GTF. *)
Definition default_id_spec (fmt : Fmt) (id_spec : option IdSpec) : IdSpec :=
  match id_spec, fmt with
  | Some spec, _ => spec
  | None, gff3 => SpecStr "ID"
  | None, gtf =>
      SpecDict (<["gene" := DictStr "gene_id"]>
                  (<["transcript" := DictStr "transcript_id"]> ∅))
  end.

(** What [_DBCreator.__init__] sets up. *)
Definition init_state : State := mkState ∅ empty_db 0 None [].

(** [dialect] is what the iterator found, [force_gff] overrides it. *)
Definition create_db `{PyRuntime, BinsModule} (dialect : Fmt)
    (data : list Feature) (id_spec : option IdSpec) (verbose : bool)
    (merge_strategy : MergeStrategy)
    (gtf_transcript_key gtf_gene_key gtf_subfeature : string)
    (force_gff : bool) : Result unit * State :=
  let fmt := if force_gff then gff3 else dialect in
  @create (creator_class fmt)
    (mkConfig merge_strategy (default_id_spec fmt id_spec) verbose
              gtf_transcript_key gtf_gene_key gtf_subfeature)
    data init_state.

(** * Vocabulary of the properties *)

(** ** Invariants of the creator *)

(** [m] keeps the state property [I], whether it returns or raises. *)
Definition preserves {A} (I : State → Prop) (m : M A) : Prop :=
  ∀ st, I st → I (m st).2.

(** An invariant of the creator: a property of the state that every primitive
    step of the drivers keeps. *)
Class DriverInvariant (I : State → Prop) := {
  inv_increment key : preserves I (_increment_featuretype_autoid key);
  inv_execute_insert f : preserves I (execute_insert f);
  inv_update_attributes a i : preserves I (modify_conn (sql_update_attributes a i));
  inv_insert_relation e : preserves I (modify_conn (sql_insert_relation e));
  inv_insert_relations es : preserves I (modify_conn (sql_insert_relations es));
  inv_write_progress i : preserves I (write_progress i);
  inv_iterator_next i f : preserves I (iterator_next i f)
}.

(** The primary key of [features]. *)
Definition unique_ids (st : State) : Prop := NoDup (ids (conn st)).

(** ** The id of a record *)

(** The eight columns that a sentinel can name. *)
Definition column_names : list string := removelast _gffkeys.

(** A candidate yields, as the code tests it, when it is a sentinel, which
    reads a column whatever the column holds, or when the value list of the
    attribute is not empty, whatever its first element is. *)
Definition yields (f : Feature) (k : string) : Prop :=
  is_sentinel k = true ∨ attr_get k (attributes f) ≠ [].

Global Instance yields_dec f k : Decision (yields f k).
Proof. unfold yields. apply _. Defined.

(** What a candidate reads: a sentinel the column it names, any other key
    the first element of the attribute's value list. *)
Definition candidate_value (f : Feature) (k : string) : string :=
  if is_sentinel k then default "" (getattr f (strip_colons k))
  else default "" (head (attr_get k (attributes f))).

(** The id that a sequence of string candidates gives, spelt out: the first
    candidate that yields gives the id, the value it reads; failing that,
    the counter of the feature type is incremented and the id is
    "<featuretype>_<n>", [n] being the counter's new value.  The candidates
    tried in vain are removed from the record's attributes. *)
Definition id_by_candidates (ks : list string) (f : Feature) (st : State)
    : Result (string * Feature) * State :=
  match list_find (yields f) ks with
  | Some (n, k) =>
      (Ok (candidate_value f k,
           set_attributes
             (foldl (λ a k', attr_del k' a) (attributes f) (take n ks)) f),
       st)
  | None =>
      let n := S (default 0 (_autoincrements st !! featuretype f)) in
      (Ok (featuretype f +:+ "_" +:+ pretty n,
           set_attributes (foldl (λ a k', attr_del k' a) (attributes f) ks) f),
       mkState (<[featuretype f := n]> (_autoincrements st)) (conn st)
               (current_item_number st) (current_item st) (stderr st))
  end.

(** The id as the specification words it: the first candidate that yields a
    non-empty value gives the id; when none does, the id is
    "<featuretype>_<n>", [n] being the value of the counter of the feature
    type after incrementing. *)
Definition first_nonempty_id (ks : list string) (f : Feature)
    (c : gmap string nat) : string :=
  match list_find (λ k, candidate_value f k ≠ "") ks with
  | Some (_, k) => candidate_value f k
  | None => featuretype f +:+ "_" +:+ pretty (S (default 0 (c !! featuretype f)))
  end.

(** ** What the id handler touches *)

Definition with_counters (c : gmap string nat) (st : State) : State :=
  mkState c (conn st) (current_item_number st) (current_item st) (stderr st).

Definition with_conn (db : DB) (st : State) : State :=
  mkState (_autoincrements st) db (current_item_number st) (current_item st)
          (stderr st).

(** [f'] is [f] up to attribute keys with an empty value list. *)
Definition same_values (f f' : Feature) : Prop :=
  set_id (id f) (set_attributes (attributes f) f') = f
  ∧ ∀ k, attr_get k (attributes f') = attr_get k (attributes f).

(** The handler reads and writes the counters only: [_id_handler] as a
    function of the counters. *)
Definition id_handler_pure (self : Config) (f : Feature) (c : gmap string nat)
    : Result (string * Feature) * gmap string nat :=
  let r := _id_handler self f (mkState c empty_db 0 None []) in
  (r.1, _autoincrements r.2).

(** ** Merging attributes *)

(** The union as the specification words it: the existing values first, in
    their stored order, the newly added values second. *)
Definition existing_first_union (existing new : list string) : list string :=
  foldl (λ acc x, if decide (x ∈ acc) then acc else acc ++ [x]) [] (existing ++ new).

(** ** Ingesting an input twice *)

(** Counters are only ever added or raised. *)
Definition counters_le (c c' : gmap string nat) : Prop :=
  ∀ k n, c !! k = Some n → ∃ n', c' !! k = Some n' ∧ n ≤ n'.

Definition counters_above (c : gmap string nat) (st : State) : Prop :=
  counters_le c (_autoincrements st).

(** A stored row [r] as a later state holds it, [r']: every field but
    [attributes] is the same, and no value was lost ([row_le]), or the value
    lists hold the same values ([row_eqv]). *)
Definition row_le (r r' : Feature) : Prop :=
  set_attributes (attributes r) r' = r
  ∧ ∀ k x, x ∈ attr_get k (attributes r) → x ∈ attr_get k (attributes r').

Definition row_eqv (r r' : Feature) : Prop :=
  set_attributes (attributes r) r' = r
  ∧ ∀ k x, x ∈ attr_get k (attributes r') ↔ x ∈ attr_get k (attributes r).

(** The store holds the record [g] already: a row with its id and its
    columns, whose value lists include those of [g]. *)
Definition covers (db : DB) (g : Feature) : Prop :=
  ∃ r, r ∈ features db ∧ id r = id g
       ∧ Forall (λ k, getattr r k = getattr g k) column_names
       ∧ ∀ k x, x ∈ attr_get k (attributes g) → x ∈ attr_get k (attributes r).

(** The edges that the GFF driver inserts for [g]. *)
Definition parent_edges (g : Feature) : list Edge :=
  (λ p, mkEdge p (id g) 1) <$> attr_get "Parent" (attributes g).

(** The edges that the GTF driver inserts for [g]: [gtf_relations] reads the
    record and nothing else. *)
Definition gtf_edges (self : Config) (g : Feature) : Result (list Edge) :=
  (gtf_relations self g (mkState ∅ empty_db 0 None [])).1.

(** The store holds what the line of [g] puts there, [edges g] being the
    edges that the driver inserts for the record. *)
Definition settled (edges : Feature → Result (list Edge)) (db : DB)
    (g : Feature) : Prop :=
  covers db g ∧ ∃ es, edges g = Ok es ∧ ∀ e, e ∈ es → e ∈ relations db.

(** The store [db'] extends [db]: the rows of [db] are there, in their
    places, with no value lost, and so are its edges. *)
Definition db_le (db db' : DB) : Prop :=
  (∃ fs new, Forall2 row_le (features db) fs ∧ features db' = fs ++ new)
  ∧ ∀ e, e ∈ relations db → e ∈ relations db'.

(** [stderr] after [percent_complete]. *)
Definition progress_out (self : Config) (i : nat) (out : list nat) : list nat :=
  if verbose self then
    if bool_decide (i `mod` 1000 = 0) then out ++ [i] else out
  else out.

(** What the ingestion of a record does under [merge], spelt out: the id
    handler runs, the record is inserted or merged into the row that has its
    id, and the edges [edges g] of the record are inserted.  [out] is what
    the step writes to [stderr].  A line of either driver is of this form,
    and so is, without edges or output, a derived record of the GTF driver. *)
Definition merge_line `{PyRuntime} (self : Config)
    (edges : Feature → Result (list Edge)) (out : list nat → list nat)
    (f : Feature) (st : State) : Result unit * State :=
  let st_h c := mkState c (conn st) (current_item_number st) (current_item st)
                        (out (stderr st)) in
  match id_handler_pure self f (_autoincrements st) with
  | (Raise e, c) => (Raise e, st_h c)
  | (Ok (fid, f'), c) =>
      let g := set_id fid f' in
      let finish db :=
        match edges g with
        | Ok es => (Ok (), with_conn (sql_insert_relations es db) (st_h c))
        | Raise e => (Raise e, with_conn db (st_h c))
        end in
      if decide (fid ∈ ids (conn st)) then
        match sql_select_feature fid (conn st) with
        | None =>
            (Raise (TypeError "type object argument after ** must be a mapping, not NoneType"),
             st_h c)
        | Some r =>
            match list_find (λ k, getattr r k ≠ getattr g k) column_names with
            | Some _ =>
                (Raise (AssertionError merge_assert_fmt
                          (fid, current_item_number st, current_item st)),
                 st_h c)
            | None =>
                finish (sql_update_attributes
                          (merge_attributes (attributes r) (attributes g))
                          (id r) (conn st))
            end
        end
      else
        finish (mkDB (features (conn st) ++ [g]) (relations (conn st))
                     (autoincrements (conn st)))
  end.

(** The record [f] draws no counter at [c], and the store holds what its
    line puts there. *)
Definition resolved (self : Config) (edges : Feature → Result (list Edge))
    (c : gmap string nat) (db : DB) (f : Feature) : Prop :=
  ∃ fid f', id_handler_pure self f c = (Ok (fid, f'), c)
            ∧ settled edges db (set_id fid f').

(** The level-2 edges that [_GFFDBCreator._update_relations] inserts. *)
Definition closure_edges (db : DB) : list Edge :=
  (λ l : string * string, mkEdge l.1 l.2 2)
    <$> (p ← ids db; grandchild ← select_grandchildren db p; [(p, grandchild)]).

(** The body of the loop [for i, f in enumerate(lines)], [line] being that of
    a driver. *)
Definition loop_body (line : nat → Feature → M unit) : nat * Feature → M unit :=
  λ '(i, f), iterator_next i f;; line i f.

(** The state in which the line of the record [x.2], numbered [x.1], runs. *)
Definition line_start (x : nat * Feature) (st : State) : State :=
  mkState (_autoincrements st) (conn st) x.1 (Some x.2) (stderr st).

(** ** Ids that the scratch file gives back *)

(** [s] is not empty, neither begins nor ends with white space, and holds no
    tab and no newline: written to a line of the scratch file beside another
    such id, it is read back as it was. *)
Definition plain (s : string) : Prop :=
  s ≠ "" ∧ lstrip s = s ∧ rstrip s = s
  ∧ (tab ∉ String.list_ascii_of_string s)
  ∧ (newline ∉ String.list_ascii_of_string s).

Global Instance plain_dec s : Decision (plain s).
Proof. unfold plain. apply _. Defined.

Definition plain_edge (e : Edge) : Prop := plain (parent e) ∧ plain (child e).

Global Instance plain_edge_dec e : Decision (plain_edge e).
Proof. unfold plain_edge. apply _. Defined.

(** ** What pass 2 of the GTF driver reads *)

(** [db'] is [db] as pass 2 of the GTF driver reads it: the same edges, the
    rows of [db] in their places with their columns, and after them only
    rows that are not of the subfeature type. *)
Definition same_subfeatures (self : Config) (db db' : DB) : Prop :=
  relations db' = relations db
  ∧ ∃ fs new, features db' = fs ++ new
      ∧ Forall2 (λ r r', set_attributes (attributes r) r' = r) (features db) fs
      ∧ Forall (λ r, featuretype r ≠ subfeature self) new.

(** ** The output of the writer *)

Module gffwriter_order.
Import gffwriter.

(** The dict that a loop fills with [d[key x] = val x] for the [x] that pass
    the test [P]. *)
Definition fill {V A : Type} (P : A → Prop) `{∀ x, Decision (P x)}
    (key : A → string) (val : A → V) (xs : list A) : list (string * V) :=
  foldl (λ d x, if decide (P x) then dict_set (key x) (val x) d else d) [] xs.

(** What follows an mRNA record, [rec i] being the record [db[i]]. *)
Definition mRNA_block `{PyRuntime} (db : FeatureDB) (rec : string → Feature)
    (mRNA_id : string) : list Feature :=
  (sorted_exons db mRNA_id ≫= λ e, rec e.1 :: children db e.1 None None)
  ++ nonexonic_children db mRNA_id.

End gffwriter_order.

(** ** Concrete inputs *)

Module examples.

(** A record of [chr1], strand [+], with the id left for [_id_handler]. *)
Definition record (ftype : string) (fstart fend : Z) (attrs : Attributes)
    : Feature :=
  mkFeature "" "chr1" "." ftype (Some fstart) (Some fend) "." "+" "." attrs []
            None.

Definition config (ms : MergeStrategy) (spec : IdSpec) (v : bool) : Config :=
  mkConfig ms spec v "transcript_id" "gene_id" "exon".

(** A GFF chain four levels deep: a ← b ← c ← d. *)
Definition gff_chain : list Feature :=
  [record "gene" 1 100 [("ID", ["a"])];
   record "mRNA" 1 100 [("ID", ["b"]); ("Parent", ["a"])];
   record "exon" 1 50 [("ID", ["c"]); ("Parent", ["b"])];
   record "part" 1 50 [("ID", ["d"]); ("Parent", ["c"])]].

(** Two GFF records with the id [x] that differ in [start]. *)
Definition gff_conflict : list Feature :=
  [record "gene" 1 100 [("ID", ["x"])];
   record "gene" 2 100 [("ID", ["x"])]].

(** Two GFF records with the id [x] that differ in their attributes only. *)
Definition gff_names : list Feature :=
  [record "gene" 1 100 [("ID", ["x"]); ("Name", ["b"; "a"])];
   record "gene" 1 100 [("ID", ["x"]); ("Name", ["c"])]].

(** A GTF file that has a line for the gene [G1] and one exon of its
    transcript [T1]. *)
Definition gtf_gene_and_exon : list Feature :=
  [record "gene" 100 150 [("gene_id", ["G1"])];
   record "exon" 100 150 [("transcript_id", ["T1"]); ("gene_id", ["G1"])]].

(** A GFF record without an [ID]. *)
Definition gff_anonymous : list Feature :=
  [record "gene" 1 100 [("Name", ["n"])]].

(** A GFF chain whose first id is a blank and whose third id holds a tab. *)
Definition gff_blank : list Feature :=
  [record "gene" 1 100 [("ID", [" "])];
   record "mRNA" 1 100 [("ID", ["b"]); ("Parent", [" "])];
   record "exon" 1 50 [("ID", ["x" +:+ String tab "y"]); ("Parent", ["b"])];
   record "part" 1 50 [("ID", ["d"]); ("Parent", ["x" +:+ String tab "y"])]].

(** Two exons of the transcript [T1] of the gene [G1], with ids of their
    own, and an [id_spec] that names a key for every feature type. *)
Definition gtf_exons : list Feature :=
  [record "exon" 100 150
     [("ID", ["e1"]); ("transcript_id", ["T1"]); ("gene_id", ["G1"])];
   record "exon" 200 250
     [("ID", ["e2"]); ("transcript_id", ["T1"]); ("gene_id", ["G1"])]].

Definition gtf_ids : IdSpec :=
  SpecDict (<["exon" := DictStr "ID"]>
              (<["gene" := DictStr "gene_id"]>
                 (<["transcript" := DictStr "transcript_id"]> ∅))).

(** Three records with ids of their own, read with [subfeature="gene"]: two
    are of that type, and the gene [H] of the first is the transcript of
    the third, whose gene [P] is the transcript of the second. *)
Definition gtf_nested : list Feature :=
  [record "gene" 1 100
     [("ID", ["a"]); ("transcript_id", ["G"]); ("gene_id", ["H"])];
   record "gene" 200 300
     [("ID", ["m"]); ("transcript_id", ["P"]); ("gene_id", ["Q"])];
   record "exon" 1 50
     [("ID", ["l"]); ("transcript_id", ["H"]); ("gene_id", ["P"])]].

Definition gtf_nested_config : Config :=
  mkConfig MSMerge
           (SpecSeq [KeyStr "ID"; KeyStr "transcript_id"; KeyStr "gene_id"])
           false "transcript_id" "gene_id" "gene".

Definition gff_creator : DBCreator := @_GFFDBCreator ascending_runtime.
Definition gtf_creator : DBCreator := @_GTFDBCreator ascending_runtime ucsc_bins.

(** A gene with two transcripts and a promoter, as two tables. *)
Definition gene_records : list Feature :=
  [set_id "g" (record "gene" 1 100 []);
   set_id "m1" (record "mRNA" 1 50 []);
   set_id "m2" (record "mRNA" 1 100 []);
   set_id "p" (record "promoter" 1 5 []);
   set_id "e1" (record "exon" 1 50 []);
   set_id "u" (record "five_prime_UTR" 1 10 []);
   set_id "e2" (record "exon" 60 100 []);
   set_id "e3" (record "exon" 1 40 []);
   set_id "c" (record "CDS" 5 40 [])].

Definition gene_edges : list Edge :=
  [mkEdge "g" "m1" 1; mkEdge "g" "m2" 1; mkEdge "g" "p" 1;
   mkEdge "m1" "e1" 1; mkEdge "m1" "u" 1;
   mkEdge "m2" "e2" 1; mkEdge "m2" "e3" 1; mkEdge "e3" "c" 1;
   mkEdge "g" "e1" 2; mkEdge "g" "u" 2; mkEdge "g" "e2" 2; mkEdge "g" "e3" 2;
   mkEdge "m2" "c" 2].

(** [db[id]] and [db.children] over these two tables. *)
Definition gene_db : gffwriter.FeatureDB :=
  {| gffwriter.getitem i := head (filter (λ r, id r = i) gene_records);
     gffwriter.children p lvl ftype :=
       filter (λ r,
                 Exists (λ e, parent e = p ∧ child e = id r
                              ∧ (lvl = None ∨ lvl = Some (level e)))
                        gene_edges
                 ∧ (ftype = None ∨ ftype = Some (featuretype r)))
              gene_records |}.

(** [len(feature)] is [end - start + 1]. *)
Definition feature_len (f : Feature) : Z :=
  match start f, end_ f with
  | Some s, Some e => e - s + 1
  | _, _ => 0
  end.

Definition gene_rec (i : string) : Feature :=
  default (record "" 0 0 []) (gffwriter.getitem gene_db i).

End examples.

(** ** What an ingestion leaves in place *)

(** [r'] is the row [r] with, possibly, other attributes. *)
Definition same_columns (r r' : Feature) : Prop :=
  set_attributes (attributes r) r' = r.

(** The rows [fs] are still there, each in its place, with its id and its
    columns; rows may have been added after them. *)
Definition rows_kept (fs : list Feature) (st : State) : Prop :=
  ∃ fs' new, features (conn st) = fs' ++ new ∧ Forall2 same_columns fs fs'.

(** The edges [es] are still there. *)
Definition edges_kept (es : list Edge) (st : State) : Prop :=
  es ⊆ relations (conn st).

(** The [autoincrements] table holds [t]. *)
Definition table_is (t : gmap string nat) (st : State) : Prop :=
  autoincrements (conn st) = t.

(** No row of [relations] is there twice. *)
Definition unique_edges (st : State) : Prop := NoDup (relations (conn st)).

(** ** A line of the GFF driver *)

(** The state in which a line inserts its record: the progress message is
    written and the id handler, which left [st1], has run. *)
Definition line_state (self : Config) (i : nat) (st st1 : State) : State :=
  mkState (_autoincrements st1) (conn st) (current_item_number st)
          (current_item st) (progress_out self i (stderr st)).

(** ** Configurations *)

(** [self] with another merge strategy. *)
Definition with_strategy (ms : MergeStrategy) (self : Config) : Config :=
  mkConfig ms (id_spec self) (verbose self) (transcript_key self)
           (gene_key self) (subfeature self).

(** ** Steps that leave [relations] alone *)

(** A property of the state that every primitive step keeps which does not
    write to [relations]: those of the id handler and of the insertion of a
    record. *)
Class RecordInvariant (I : State → Prop) := {
  rec_increment key : preserves I (_increment_featuretype_autoid key);
  rec_execute_insert f : preserves I (execute_insert f);
  rec_update_attributes a i : preserves I (modify_conn (sql_update_attributes a i));
  rec_write_progress i : preserves I (write_progress i);
  rec_iterator_next i f : preserves I (iterator_next i f)
}.

(** [relations] holds first-order edges only. *)
Definition first_order (st : State) : Prop :=
  Forall (λ e, level e = 1) (relations (conn st)).

(** ** The derived records of the GTF driver *)

(** The gene ids for which the loop over the rows [(transcript, gene)] writes
    a gene record: those that differ from the gene id of the row before. *)
Fixpoint new_genes (last_gene_id : option string)
    (rows : list (string * string)) : list string :=
  match rows with
  | [] => []
  | (_, gene_id) :: rows' =>
      (if bool_decide (Some gene_id ≠ last_gene_id) then [gene_id] else [])
      ++ new_genes (Some gene_id) rows'
  end.

(** [lo] is the least and [hi] the greatest of the values that are not NULL,
    and NULL when there is none. *)
Definition least_of (lo : option Z) (values : list (option Z)) : Prop :=
  match lo with
  | Some z => Some z ∈ values ∧ ∀ x, Some x ∈ values → (z ≤ x)%Z
  | None => ∀ x, Some x ∉ values
  end.

Definition greatest_of (hi : option Z) (values : list (option Z)) : Prop :=
  match hi with
  | Some z => Some z ∈ values ∧ ∀ x, Some x ∈ values → (x ≤ z)%Z
  | None => ∀ x, Some x ∉ values
  end.

(** The record spans the rows: from their least start to their greatest
    end. *)
Definition spans (f : Feature) (rows : list Feature) : Prop :=
  least_of (start f) (start <$> rows) ∧ greatest_of (end_ f) (end_ <$> rows).

(** * Properties *)

(** ** Reasoning about the creator monad *)

Lemma bind_Ok {A B} (m : M A) (k : A → M B) st a st' :
  m st = (Ok a, st') → (m ≫= k) st = k a st'.
Proof. intros Hm. unfold mbind, M_bind. by rewrite Hm. Qed.

Lemma bind_Raise {A B} (m : M A) (k : A → M B) st e st' :
  m st = (Raise e, st') → (m ≫= k) st = (Raise e, st').
Proof. intros Hm. unfold mbind, M_bind. by rewrite Hm. Qed.

Lemma execute_insert_taken f st :
  id f ∈ ids (conn st) → execute_insert f st = (Raise IntegrityError, st).
Proof.
  intros Hdup. unfold execute_insert, sql_insert_feature.
  erewrite bind_Ok by done. by rewrite decide_True.
Qed.

Lemma execute_insert_free f st :
  id f ∉ ids (conn st) →
  execute_insert f st =
    (Ok (), mkState (_autoincrements st)
              (mkDB (features (conn st) ++ [f]) (relations (conn st))
                    (autoincrements (conn st)))
              (current_item_number st) (current_item st) (stderr st)).
Proof.
  intros Hdup. unfold execute_insert, sql_insert_feature.
  erewrite bind_Ok by done. by rewrite decide_False.
Qed.

Lemma try_except_Ok {A} (body handler : M A) st a st' :
  body st = (Ok a, st') → try_except_IntegrityError body handler st = (Ok a, st').
Proof. intros Hb. unfold try_except_IntegrityError. by rewrite Hb. Qed.

Lemma try_except_caught {A} (body handler : M A) st st' :
  body st = (Raise IntegrityError, st') →
  try_except_IntegrityError body handler st = handler st'.
Proof. intros Hb. unfold try_except_IntegrityError. by rewrite Hb. Qed.

Section preserves.
Context (I : State → Prop).

Lemma preserves_ret {A} (a : A) : preserves I (mret a).
Proof. intros st HI. exact HI. Qed.

Lemma preserves_raise {A} (e : Exn) : preserves I (raise e : M A).
Proof. intros st HI. exact HI. Qed.

Lemma preserves_raise_with {A} (e : State → Exn) : preserves I (raise_with e : M A).
Proof. intros st HI. exact HI. Qed.

Lemma preserves_bind {A B} (m : M A) (k : A → M B) :
  preserves I m → (∀ a, preserves I (k a)) → preserves I (m ≫= k).
Proof.
  intros Hm Hk st HI. specialize (Hm st HI).
  unfold mbind, M_bind. destruct (m st) as [[a|e] st']; simpl in *.
  - by apply Hk.
  - done.
Qed.

Lemma preserves_for_each {A} (xs : list A) (body : A → M unit) :
  (∀ x, x ∈ xs → preserves I (body x)) → preserves I (for_each xs body).
Proof.
  induction xs as [|x xs IH]; intros Hbody; simpl.
  - apply preserves_ret.
  - apply preserves_bind.
    + apply Hbody. left.
    + intros _. apply IH. intros y Hy. apply Hbody. by right.
Qed.

Lemma preserves_try_except {A} (body handler : M A) :
  preserves I body → preserves I handler →
  preserves I (try_except_IntegrityError body handler).
Proof.
  intros Hb Hh st HI. specialize (Hb st HI).
  unfold try_except_IntegrityError.
  destruct (body st) as [[a|[]] st']; simpl in *; try done.
  by apply Hh.
Qed.
End preserves.

Section driver_invariant.
Context `{PyRuntime, BinsModule}.
Context (I : State → Prop) `{!DriverInvariant I}.
Variable self : Config.

Lemma preserves_try_id_keys id_key f : preserves I (try_id_keys id_key f).
Proof.
  revert f. induction id_key as [|[k|fn] rest IH]; intros f; simpl.
  - apply preserves_bind; [apply inv_increment|]. intros i. apply preserves_ret.
  - destruct (is_sentinel k).
    + destruct (getattr f (strip_colons k));
        [apply preserves_ret|apply preserves_raise].
    + destruct (attr_get k (attributes f)); [apply IH|apply preserves_ret].
  - destruct (fn f) as [_id|]; [|apply preserves_raise].
    case_bool_decide; [apply preserves_raise|].
    destruct (String.prefix _ _); [|apply preserves_ret].
    apply preserves_bind; [apply inv_increment|]. intros i. apply preserves_ret.
Qed.

Lemma preserves_id_handler f : preserves I (_id_handler self f).
Proof.
  unfold _id_handler. destruct (id_spec self) as [k|fn|d|ks];
    try apply preserves_try_id_keys.
  destruct (d !! featuretype f) as [[k|ks]|]; try apply preserves_try_id_keys.
  apply preserves_bind; [apply inv_increment|]. intros i. apply preserves_ret.
Qed.

Lemma preserves_get_feature ID : preserves I (_get_feature ID).
Proof.
  intros st HI. unfold _get_feature, mbind, M_bind, get_conn.
  by destruct (sql_select_feature ID (conn st)).
Qed.

Lemma preserves_do_merge f : preserves I (_do_merge self f).
Proof.
  unfold _do_merge. destruct (merge_strategy self);
    try apply preserves_raise; try apply preserves_ret.
  - apply preserves_bind; [apply preserves_get_feature|].
    intros existing. destruct (list_find _ _);
      [apply preserves_raise_with|apply preserves_ret].
  - apply preserves_bind; [apply inv_increment|]. intros i. apply preserves_ret.
Qed.

Lemma preserves_insert_feature f : preserves I (insert_feature self f).
Proof.
  unfold insert_feature. apply preserves_try_except.
  - apply preserves_bind; [apply inv_execute_insert|].
    intros _. apply preserves_ret.
  - apply preserves_bind; [apply preserves_do_merge|].
    intros [fixed f']. case_bool_decide.
    + destruct fixed as [fixed|]; [|apply preserves_raise].
      apply preserves_bind; [apply inv_update_attributes|].
      intros _. apply preserves_ret.
    + case_bool_decide; [|apply preserves_ret].
      apply preserves_bind; [apply inv_execute_insert|].
      intros _. apply preserves_ret.
Qed.

Lemma preserves_percent_complete i : preserves I (percent_complete self i).
Proof.
  unfold percent_complete. destruct (verbose self); [|apply preserves_ret].
  case_bool_decide; [apply inv_write_progress|apply preserves_ret].
Qed.

Lemma preserves_enumerate_lines lines body :
  (∀ i f, preserves I (body i f)) → preserves I (enumerate_lines lines body).
Proof.
  intros Hbody. unfold enumerate_lines. apply preserves_for_each.
  intros [i f] _. apply preserves_bind; [apply inv_iterator_next|done].
Qed.

Lemma preserves_gff_populate_line i f : preserves I (gff_populate_line self i f).
Proof.
  unfold gff_populate_line.
  apply preserves_bind; [apply preserves_percent_complete|]. intros _.
  apply preserves_bind; [apply preserves_id_handler|].
  intros [fid f']. apply preserves_bind; [apply preserves_insert_feature|].
  intros f''. destruct (attr_mem _ _); [|apply preserves_ret].
  apply preserves_for_each. intros p _. apply inv_insert_relation.
Qed.

Lemma preserves_gff_populate lines :
  preserves I (gff_populate_from_lines self lines).
Proof.
  unfold gff_populate_from_lines. apply preserves_bind.
  - apply preserves_enumerate_lines, preserves_gff_populate_line.
  - intros _. destruct (verbose self); [apply inv_write_progress|apply preserves_ret].
Qed.

Lemma preserves_gff_update_relations : preserves I gff_update_relations.
Proof.
  unfold gff_update_relations. apply preserves_bind.
  - by intros st.
  - intros db. apply preserves_for_each. intros line _.
    destruct (relations_generator_row line);
      [apply inv_insert_relation|apply preserves_raise].
Qed.

Lemma preserves_gtf_relations f : preserves I (gtf_relations self f).
Proof.
  unfold gtf_relations. apply preserves_bind.
  - destruct (attr_mem _ _); [|apply preserves_ret].
    destruct (attr_get _ _); [apply preserves_raise|apply preserves_ret].
  - intros [p rels]. destruct (attr_mem _ _); [|apply preserves_ret].
    destruct (attr_get _ _); apply preserves_ret.
Qed.

Lemma preserves_gtf_populate lines :
  preserves I (gtf_populate_from_lines self lines).
Proof.
  unfold gtf_populate_from_lines. apply preserves_bind.
  - apply preserves_enumerate_lines. intros i f. unfold gtf_populate_line.
    apply preserves_bind; [apply preserves_percent_complete|]. intros _.
    apply preserves_bind; [apply preserves_id_handler|].
    intros [fid f']. apply preserves_bind; [apply preserves_insert_feature|].
    intros f''. apply preserves_bind; [apply preserves_gtf_relations|].
    intros rels. apply inv_insert_relations.
  - intros _. destruct (verbose self); [|apply preserves_ret].
    destruct lines; [apply preserves_raise|apply inv_write_progress].
Qed.

Lemma preserves_insert_derived f : preserves I (insert_derived self f).
Proof.
  unfold insert_derived. apply preserves_bind; [apply preserves_id_handler|].
  intros [fid f']. apply preserves_try_except; [apply inv_execute_insert|].
  apply preserves_bind; [apply preserves_do_merge|].
  intros [[fixed|] f'']; [apply inv_update_attributes|apply preserves_raise].
Qed.

Lemma preserves_gtf_update_relations : preserves I (gtf_update_relations self).
Proof.
  unfold gtf_update_relations. apply preserves_bind.
  - by intros st.
  - intros db. apply preserves_for_each. intros f _. apply preserves_insert_derived.
Qed.

Lemma preserves_update fmt lines :
  preserves I (@update (creator_class fmt) self lines).
Proof.
  unfold update. apply preserves_bind.
  - destruct fmt; [apply preserves_gff_populate|apply preserves_gtf_populate].
  - intros _. destruct fmt;
      [apply preserves_gff_update_relations|apply preserves_gtf_update_relations].
Qed.
End driver_invariant.

(** ** Primary key of [features] *)

Lemma sql_insert_feature_ids f db db' :
  sql_insert_feature f db = Some db' → ids db' = ids db ++ [id f].
Proof.
  unfold sql_insert_feature. case_decide; [done|].
  intros [= <-]. unfold ids. simpl. by rewrite fmap_app.
Qed.

Lemma sql_insert_feature_NoDup f db db' :
  sql_insert_feature f db = Some db' → NoDup (ids db) → NoDup (ids db').
Proof.
  intros Hins Hnd. rewrite (sql_insert_feature_ids _ _ _ Hins).
  unfold sql_insert_feature in Hins. case_decide; [done|].
  apply NoDup_app. split_and!; [done| |apply NoDup_singleton].
  intros x Hx ->%list_elem_of_singleton. done.
Qed.

Lemma sql_update_attributes_ids a i db :
  ids (sql_update_attributes a i db) = ids db.
Proof.
  unfold ids, sql_update_attributes. simpl. rewrite <-list_fmap_compose.
  apply list_fmap_ext. intros _ r _. simpl. by case_decide.
Qed.

Lemma sql_insert_relation_features e db :
  features (sql_insert_relation e db) = features db.
Proof. unfold sql_insert_relation. by case_decide. Qed.

Lemma sql_insert_relations_features es db :
  features (sql_insert_relations es db) = features db.
Proof.
  revert db. induction es as [|e es IH]; intros db; [done|].
  unfold sql_insert_relations in *. simpl. by rewrite IH, sql_insert_relation_features.
Qed.

Global Instance unique_ids_invariant : DriverInvariant unique_ids.
Proof.
  split; try (by intros; intros st).
  - intros f st Hnd. unfold execute_insert, mbind, M_bind, get_conn.
    destruct (sql_insert_feature f (conn st)) as [db'|] eqn:Hins; simpl; [|done].
    unfold unique_ids. simpl. by eapply sql_insert_feature_NoDup.
  - intros a i st. unfold unique_ids. simpl. by rewrite sql_update_attributes_ids.
  - intros e st. unfold unique_ids, ids. simpl.
    by rewrite sql_insert_relation_features.
  - intros es st. unfold unique_ids, ids. simpl.
    by rewrite sql_insert_relations_features.
Qed.

Lemma NoDup_fmap_filter_length {A B} `{EqDecision B} (g : A → B) (l : list A) (b : B) :
  NoDup (g <$> l) → length (filter (λ x, g x = b) l) ≤ 1.
Proof.
  induction l as [|x l IH]; simpl; [lia|].
  intros [Hx Hl]%NoDup_cons. rewrite filter_cons. case_decide as Hb; simpl.
  - assert (filter (λ x0, g x0 = b) l = []) as ->; [|simpl; lia].
    destruct (filter _ l) as [|y l'] eqn:Hf; [done|]. exfalso.
    assert (y ∈ filter (λ x0, g x0 = b) l) as [Hgy Hy]%list_elem_of_filter
      by (rewrite Hf; left).
    apply Hx. rewrite Hb, <-Hgy. by apply list_elem_of_fmap_2.
  - by apply IH.
Qed.

Lemma unique_ids_init_tables st : unique_ids (_init_tables st).2.
Proof. unfold unique_ids, ids. simpl. constructor. Qed.

Lemma preserves_finalize : preserves unique_ids _finalize.
Proof. by intros st. Qed.

(** C8.  Whatever the dialect, the configuration and the merge strategy: when
    an ingestion returns without raising, be it an update of a store whose ids
    are unique or a creation, which starts from the empty tables, every id
    occurs at most once in [features]. *)
Theorem features_id_unique `{PyRuntime, BinsModule} (fmt : Fmt) (self : Config)
    (lines : list Feature) (st st' : State) (i : string) :
  unique_ids st ∧ @update (creator_class fmt) self lines st = (Ok (), st')
  ∨ @create (creator_class fmt) self lines st = (Ok (), st') →
  length (filter (λ r, id r = i) (features (conn st'))) ≤ 1.
Proof.
  intros Hrun. apply NoDup_fmap_filter_length.
  assert (unique_ids st') as Hst'; [|exact Hst'].
  destruct Hrun as [[Hst Hrun]|Hrun].
  - pose proof (preserves_update unique_ids self fmt lines st Hst) as Hp.
    by rewrite Hrun in Hp.
  - assert (preserves unique_ids
              (@update (creator_class fmt) self lines ≫= λ _, _finalize)) as Hp.
    { apply preserves_bind; [apply preserves_update, _|].
      intros _. apply preserves_finalize. }
    specialize (Hp _ (unique_ids_init_tables st)).
    unfold create in Hrun. unfold mbind at 1, M_bind in Hrun.
    change (_init_tables st) with (Ok (), (_init_tables st).2) in Hrun.
    unfold update in Hp.
    revert Hp Hrun. unfold mbind, M_bind.
    destruct (_populate_from_lines _ _ _) as [[[]|e] st1]; [|done].
    destruct (_update_relations _ _) as [[[]|e] st2]; [|done].
    intros Hp Hrun. by rewrite Hrun in Hp.
Qed.

(** ** The id of a record *)

Lemma attr_lookup_del_eq k a : attr_lookup k (attr_del k a) = None.
Proof.
  unfold attr_del. induction a as [|[k' v] a IH]; [done|].
  rewrite filter_cons. simpl. case_decide as Hk; simpl; [|done].
  case_decide; [congruence|done].
Qed.

Lemma attr_lookup_del_ne k k' a :
  k ≠ k' → attr_lookup k' (attr_del k a) = attr_lookup k' a.
Proof.
  intros Hne. unfold attr_del. induction a as [|[k'' v] a IH]; [done|].
  rewrite filter_cons. simpl. case_decide as Hk; simpl.
  - by rewrite IH.
  - rewrite IH. case_decide; [congruence|done].
Qed.

(** Removing a key whose value list is empty changes no value read. *)
Lemma attr_get_del_empty k k' a :
  attr_get k a = [] → attr_get k' (attr_del k a) = attr_get k' a.
Proof.
  intros Hk. unfold attr_get in *. destruct (decide (k = k')) as [<-|Hne].
  - by rewrite attr_lookup_del_eq, Hk.
  - by rewrite attr_lookup_del_ne.
Qed.

Lemma getattr_set_attributes a f name :
  getattr (set_attributes a f) name = getattr f name.
Proof. done. Qed.

Lemma set_attributes_set_attributes a b f :
  set_attributes a (set_attributes b f) = set_attributes a f.
Proof. done. Qed.

Lemma yields_del_empty f k k' :
  attr_get k (attributes f) = [] →
  yields (set_attributes (attr_del k (attributes f)) f) k' ↔ yields f k'.
Proof. intros Hk. unfold yields. simpl. by rewrite attr_get_del_empty. Qed.

Section id_handler.
Context `{PyRuntime}.

Lemma getattr_column f name :
  name ∈ column_names → is_Some (getattr f name).
Proof.
  unfold column_names, getattr. simpl. intros Hname.
  repeat (case_decide; [by eexists|]).
  rewrite !elem_of_cons, elem_of_nil in Hname. intuition congruence.
Qed.

Lemma try_id_keys_by_candidates ks f st :
  (∀ k, k ∈ ks → is_sentinel k = true → strip_colons k ∈ column_names) →
  try_id_keys (KeyStr <$> ks) f st = id_by_candidates ks f st.
Proof.
  revert f. induction ks as [|k ks IH]; intros f Hcols; [by destruct f|].
  unfold id_by_candidates. simpl. unfold candidate_value.
  destruct (is_sentinel k) eqn:Hsent.
  - rewrite decide_True by (by left). simpl. rewrite Hsent.
    destruct (getattr_column f (strip_colons k)) as [v ->];
      [apply Hcols; [left|done]|].
    by destruct f.
  - destruct (attr_get k (attributes f)) as [|v0 vs] eqn:Hget.
    + rewrite decide_False by (unfold yields; intros [?|?]; congruence).
      rewrite IH by (intros k' Hk'; apply Hcols; by right).
      unfold id_by_candidates. simpl.
      rewrite (list_find_ext _ (yields f))
        by (intros k'; by apply yields_del_empty).
      destruct (list_find (yields f) ks) as [[n k']|]; simpl; [|done].
      unfold candidate_value. simpl. by rewrite attr_get_del_empty.
    + rewrite decide_True by (right; congruence). simpl.
      rewrite Hsent, Hget. by destruct f.
Qed.

(** C7, as amended.  With a sequence of candidate keys as [id_spec], whose
    sentinels name columns, [_id_handler] gives what the first candidate
    reads that is a sentinel or has a value list that is not empty, be it the
    empty string, and removes the keys tried before it; when there is no
    such candidate it increments the counter of the record's feature type
    and gives "<featuretype>_<n>" for the counter's new value [n]. *)
Theorem id_handler_sequence (self : Config) ks f st :
  id_spec self = SpecSeq (KeyStr <$> ks) →
  (∀ k, k ∈ ks → is_sentinel k = true → strip_colons k ∈ column_names) →
  _id_handler self f st = id_by_candidates ks f st.
Proof.
  intros Hspec Hcols. unfold _id_handler. rewrite Hspec.
  by apply try_id_keys_by_candidates.
Qed.
End id_handler.

(** ** What the id handler touches *)

Lemma same_values_refl f : same_values f f.
Proof. split; [by destruct f|done]. Qed.

Lemma same_values_del_empty f k :
  attr_get k (attributes f) = [] →
  same_values f (set_attributes (attr_del k (attributes f)) f).
Proof.
  intros Hk. split; [by destruct f|].
  intros k'. simpl. by apply attr_get_del_empty.
Qed.

Lemma same_values_trans f1 f2 f3 :
  same_values f1 f2 → same_values f2 f3 → same_values f1 f3.
Proof.
  intros [H1 H1'] [H2 H2']. split.
  - destruct f1, f2, f3. unfold set_id, set_attributes in *. simpl in *.
    inversion H1; inversion H2; by subst.
  - intros k. by rewrite H2', H1'.
Qed.

Section id_handler_frame.
Context `{PyRuntime}.
Variable self : Config.

Lemma increment_frame key st :
  _increment_featuretype_autoid key st =
    ((_increment_featuretype_autoid key (mkState (_autoincrements st) empty_db 0 None [])).1,
     with_counters (_autoincrements (_increment_featuretype_autoid key (mkState (_autoincrements st) empty_db 0 None [])).2) st).
Proof. done. Qed.

Lemma try_id_keys_frame id_key f st :
  let r := try_id_keys id_key f (mkState (_autoincrements st) empty_db 0 None []) in
  try_id_keys id_key f st = (r.1, with_counters (_autoincrements r.2) st).
Proof.
  revert f. induction id_key as [|[k|fn] rest IH]; intros f; simpl.
  - by destruct st.
  - destruct (is_sentinel k).
    + destruct (getattr f (strip_colons k)); by destruct st.
    + destruct (attr_get k (attributes f)); [apply IH|by destruct st].
  - destruct (fn f) as [_id|]; [|by destruct st].
    case_bool_decide; [by destruct st|].
    destruct (String.prefix _ _); by destruct st.
Qed.

Lemma id_handler_frame f st :
  _id_handler self f st =
    ((id_handler_pure self f (_autoincrements st)).1,
     with_counters (id_handler_pure self f (_autoincrements st)).2 st).
Proof.
  unfold id_handler_pure, _id_handler.
  destruct (id_spec self) as [k|fn|d|ks]; try apply try_id_keys_frame.
  destruct (d !! featuretype f) as [[k|ks]|]; try apply try_id_keys_frame.
  by destruct st.
Qed.

Lemma try_id_keys_same_values id_key f st fid f' st' :
  try_id_keys id_key f st = (Ok (fid, f'), st') → same_values f f'.
Proof.
  revert f. induction id_key as [|[k|fn] rest IH]; intros f; simpl.
  - intros [= _ <- _]. apply same_values_refl.
  - destruct (is_sentinel k).
    + destruct (getattr f (strip_colons k)); [|done].
      intros [= _ <- _]. apply same_values_refl.
    + destruct (attr_get k (attributes f)) eqn:Hk.
      * intros Hrest%IH. eapply same_values_trans; [|done].
        by apply same_values_del_empty.
      * intros [= _ <- _]. apply same_values_refl.
  - destruct (fn f) as [_id|]; [|done].
    case_bool_decide; [done|].
    destruct (String.prefix _ _); intros [= _ <- _]; apply same_values_refl.
Qed.

Lemma id_handler_same_values f st fid f' st' :
  _id_handler self f st = (Ok (fid, f'), st') → same_values f f'.
Proof.
  unfold _id_handler.
  destruct (id_spec self) as [k|fn|d|ks]; try apply try_id_keys_same_values.
  destruct (d !! featuretype f) as [[k|ks]|]; try apply try_id_keys_same_values.
  intros [= _ <- _]. apply same_values_refl.
Qed.
End id_handler_frame.

(** ** First-order edges *)

Lemma sql_insert_relation_elem_of e e' db :
  e' ∈ relations (sql_insert_relation e db) ↔ e' = e ∨ e' ∈ relations db.
Proof.
  unfold sql_insert_relation. case_decide; simpl.
  - split; [intros ?; by right|intros [->|?]; done].
  - rewrite elem_of_app, list_elem_of_singleton. tauto.
Qed.

Lemma sql_insert_relations_elem_of es e' db :
  e' ∈ relations (sql_insert_relations es db) ↔ e' ∈ es ∨ e' ∈ relations db.
Proof.
  unfold sql_insert_relations. revert db.
  induction es as [|e es IH]; intros db; simpl.
  - rewrite elem_of_nil. tauto.
  - rewrite IH, sql_insert_relation_elem_of, elem_of_cons. tauto.
Qed.

Lemma for_each_modify_conn {A} (xs : list A) (g : A → DB → DB) st :
  for_each xs (λ x, modify_conn (g x)) st =
    (Ok (), with_conn (foldl (λ d x, g x d) (conn st) xs) st).
Proof.
  revert st. induction xs as [|x xs IH]; intros st; simpl.
  - by destruct st.
  - unfold mbind at 1, M_bind. simpl. by rewrite IH.
Qed.

Lemma for_each_insert_relation (mk : string → Edge) ps st :
  for_each ps (λ p, modify_conn (sql_insert_relation (mk p))) st =
    (Ok (), with_conn (sql_insert_relations (mk <$> ps) (conn st)) st).
Proof.
  rewrite for_each_modify_conn. do 2 f_equal.
  unfold sql_insert_relations. generalize (conn st).
  induction ps as [|p ps IH]; intros db; simpl; [done|]. apply IH.
Qed.

Section warning.
Context `{PyRuntime, BinsModule}.
Variable self : Config.

Lemma percent_complete_frame i st :
  ∃ out, percent_complete self i st =
    (Ok (), mkState (_autoincrements st) (conn st) (current_item_number st)
                    (current_item st) out).
Proof.
  unfold percent_complete. destruct (verbose self); [|exists (stderr st); by destruct st].
  case_bool_decide; [by eexists|exists (stderr st); by destruct st].
Qed.

(** C10.  In the GFF driver under [warning], a record whose id is taken
    leaves [features] as it is, and still every value [P] of its [Parent]
    attribute gets its edge [(P, id, 1)] in [relations]. *)
Theorem gff_warning_skips_record_keeps_edges i f st fid f' st1 :
  merge_strategy self = MSWarning →
  _id_handler self f st = (Ok (fid, f'), st1) →
  fid ∈ ids (conn st) →
  ∃ st2, gff_populate_line self i f st = (Ok (), st2)
    ∧ features (conn st2) = features (conn st)
    ∧ ∀ P, P ∈ attr_get "Parent" (attributes f) →
           mkEdge P fid 1 ∈ relations (conn st2).
Proof.
  intros Hms Hid Hdup. unfold gff_populate_line.
  destruct (percent_complete_frame i st) as [out Hpc].
  rewrite (bind_Ok _ _ _ _ _ Hpc). cbv beta.
  pose proof (id_handler_same_values _ _ _ _ _ _ Hid) as [_ Hvals].
  rewrite id_handler_frame in Hid. injection Hid as Hr Hst1.
  erewrite bind_Ok; [|rewrite id_handler_frame; simpl; by rewrite Hr].
  cbv beta iota.
  erewrite bind_Ok; cycle 1.
  { unfold insert_feature. erewrite try_except_caught; cycle 1.
    { erewrite bind_Raise; [done|]. by apply execute_insert_taken. }
    unfold _do_merge. rewrite Hms. erewrite bind_Ok by done. done. }
  simpl. destruct (attr_mem "Parent" (attributes f')) eqn:Hmem.
  - rewrite for_each_insert_relation. eexists. split_and!; [done|..].
    + simpl. by rewrite sql_insert_relations_features.
    + intros P HP. simpl. apply sql_insert_relations_elem_of. left.
      rewrite Hvals. by apply (list_elem_of_fmap_2 (λ p, mkEdge p fid 1)).
  - eexists. split_and!; [done..|].
    intros P HP. exfalso. rewrite <-Hvals in HP.
    unfold attr_mem in Hmem. apply bool_decide_eq_false in Hmem.
    unfold attr_get in HP. destruct (attr_lookup "Parent" (attributes f')).
    + by destruct Hmem.
    + by apply elem_of_nil in HP.
Qed.
End warning.

(** ** Merging attributes *)

Lemma attr_lookup_set_eq k v a : attr_lookup k (attr_set k v a) = Some v.
Proof.
  induction a as [|[k' v'] a IH]; simpl.
  - by rewrite decide_True.
  - case_decide; simpl; [by rewrite decide_True|by rewrite decide_False].
Qed.

Lemma attr_lookup_set_ne k k' v a :
  k ≠ k' → attr_lookup k' (attr_set k v a) = attr_lookup k' a.
Proof.
  intros Hne. induction a as [|[k'' v'] a IH]; simpl.
  - by rewrite decide_False.
  - case_decide as Hk; simpl.
    + subst k''. by rewrite !decide_False by done.
    + by rewrite IH.
Qed.

Section merge_attributes.
Context `{PyRuntime}.

Lemma merge_attributes_snoc existing new k v :
  merge_attributes existing (new ++ [(k, v)]) =
    let acc := merge_attributes existing new in
    attr_set k (set_iter (attr_get k acc ++ v)) acc.
Proof. unfold merge_attributes. by rewrite foldl_snoc. Qed.

Lemma merge_attributes_lookup_other existing new k :
  k ∉ new.*1 →
  attr_lookup k (merge_attributes existing new) = attr_lookup k existing.
Proof.
  induction new as [|[k' v'] new IH] using rev_ind; [done|].
  rewrite fmap_app, not_elem_of_app. simpl.
  rewrite list_elem_of_singleton. intros [Hnew Hk].
  rewrite merge_attributes_snoc. simpl.
  rewrite attr_lookup_set_ne by done. by apply IH.
Qed.

Lemma merge_attributes_elem_of existing new k x :
  x ∈ attr_get k (merge_attributes existing new) ↔
  x ∈ attr_get k existing ∨ ∃ v, (k, v) ∈ new ∧ x ∈ v.
Proof.
  induction new as [|[k' v'] new IH] using rev_ind.
  - split; [by left|]. intros [?|(v & []%elem_of_nil & _)]. done.
  - rewrite merge_attributes_snoc. simpl. unfold attr_get at 1.
    destruct (decide (k' = k)) as [->|Hne].
    + rewrite attr_lookup_set_eq. simpl.
      rewrite set_iter_elem_of, elem_of_app, IH. split.
      * intros [[?|(v & Hv & Hx)]|Hx]; [by left| |].
        -- right. exists v. split; [|done]. apply elem_of_app. by left.
        -- right. exists v'. split; [|done]. apply elem_of_app. right. left.
      * intros [?|(v & [Hv|Hv%list_elem_of_singleton]%elem_of_app & Hx)].
        -- left. by left.
        -- left. right. by exists v.
        -- right. by simplify_eq.
    + rewrite attr_lookup_set_ne by done. fold (attr_get k (merge_attributes existing new)).
      rewrite IH. split.
      * intros [?|(v & Hv & Hx)]; [by left|].
        right. exists v. split; [|done]. apply elem_of_app. by left.
      * intros [?|(v & [Hv|Hv%list_elem_of_singleton]%elem_of_app & Hx)].
        -- by left.
        -- right. by exists v.
        -- by simplify_eq.
Qed.

Lemma merge_attributes_NoDup existing new k :
  k ∈ new.*1 → NoDup (attr_get k (merge_attributes existing new)).
Proof.
  induction new as [|[k' v'] new IH] using rev_ind.
  - by intros ?%elem_of_nil.
  - rewrite fmap_app, elem_of_app. simpl. rewrite list_elem_of_singleton.
    intros Hk. rewrite merge_attributes_snoc. simpl. unfold attr_get at 1.
    destruct (decide (k' = k)) as [->|Hne].
    + rewrite attr_lookup_set_eq. simpl. apply set_iter_NoDup.
    + rewrite attr_lookup_set_ne by done. apply IH.
      destruct Hk as [?|?]; [done|congruence].
Qed.

Variable self : Config.

Lemma get_feature_Some ID st r :
  sql_select_feature ID (conn st) = Some r → _get_feature ID st = (Ok r, st).
Proof.
  intros Hr. unfold _get_feature. erewrite bind_Ok by done. by rewrite Hr.
Qed.

Lemma get_feature_None ID st :
  sql_select_feature ID (conn st) = None →
  ∃ e, _get_feature ID st = (Raise e, st).
Proof.
  intros Hr. unfold _get_feature. erewrite bind_Ok by done. rewrite Hr.
  by eexists.
Qed.

(** What the [merge] branch returns. *)
Lemma do_merge_merge f st fixed f' st' :
  merge_strategy self = MSMerge →
  _do_merge self f st = (Ok (fixed, f'), st') →
  ∃ existing,
    sql_select_feature (id f) (conn st) = Some existing
    ∧ Forall (λ k, getattr existing k = getattr f k) column_names
    ∧ fixed = Some (set_attributes
                      (merge_attributes (attributes existing) (attributes f))
                      existing)
    ∧ f' = f ∧ st' = st.
Proof.
  intros Hms. unfold _do_merge. rewrite Hms.
  destruct (sql_select_feature (id f) (conn st)) as [existing|] eqn:Hsel.
  - erewrite bind_Ok by by apply get_feature_Some.
    destruct (list_find _ _) eqn:Hfind; [done|].
    intros [= <- <- <-]. exists existing. split_and!; try done.
    apply list_find_None in Hfind. eapply Forall_impl; [exact Hfind|].
    simpl. intros k Hk. by destruct (decide (getattr existing k = getattr f k)).
  - destruct (get_feature_None _ _ Hsel) as [e He].
    by erewrite bind_Raise by done.
Qed.

(** C4, as amended.  When [_do_merge] returns under [merge], the record it
    returns is the stored one with new attributes: a key of the new record
    holds, without duplicates, exactly the values that the stored and the new
    record hold for it; every other key is as stored.  The order of the
    values is the runtime's. *)
Theorem merge_unions_values f st fixed f' st' :
  merge_strategy self = MSMerge →
  _do_merge self f st = (Ok (Some fixed, f'), st') →
  ∃ existing,
    sql_select_feature (id f) (conn st) = Some existing
    ∧ set_attributes (attributes existing) fixed = existing
    ∧ ∀ k,
        (k ∈ (attributes f).*1 →
           NoDup (attr_get k (attributes fixed))
           ∧ ∀ x, x ∈ attr_get k (attributes fixed) ↔
                  x ∈ attr_get k (attributes existing)
                  ∨ ∃ v, (k, v) ∈ attributes f ∧ x ∈ v)
        ∧ (k ∉ (attributes f).*1 →
             attr_lookup k (attributes fixed) = attr_lookup k (attributes existing)).
Proof.
  intros Hms Hrun.
  destruct (do_merge_merge _ _ _ _ _ Hms Hrun) as (existing & Hsel & _ & [= ->] & _).
  exists existing. split_and!; [done|by destruct existing|].
  intros k. simpl. split.
  - intros Hk. split; [by apply merge_attributes_NoDup|].
    intros x. apply merge_attributes_elem_of.
  - apply merge_attributes_lookup_other.
Qed.
End merge_attributes.

(** ** Derived records and the merge strategy *)

(** C1.  The loop that inserts the derived records hands a collision to
    [_do_merge], which follows [self.merge_strategy]: with the strategy
    [error] and a gene line [G1] in the input, the derived gene [G1] raises
    the duplicate-id error. *)
Theorem gtf_derived_collision_follows_user_strategy :
  (@create examples.gtf_creator
     (examples.config MSError (default_id_spec gtf None) false)
     examples.gtf_gene_and_exon init_state).1
  = Raise (ValueError "Duplicate ID G1").
Proof. vm_compute. reflexivity. Qed.

(** ** Second-order edges *)

(** C3.  [_GFFDBCreator._update_relations] joins [relations] with itself
    whatever the level of the rows.  Run once more on the store that the chain
    a ← b ← c ← d gave, it inserts [(a, d, 2)], and no [c] has both
    [(a, c, 1)] and [(c, d, 1)]. *)
Theorem gff_second_closure_adds_unwitnessed_edge :
  let self := examples.config MSMerge (SpecStr "ID") false in
  let st1 := (@create examples.gff_creator self examples.gff_chain init_state).2 in
  let r := @update examples.gff_creator self [] st1 in
  r.1 = Ok ()
  ∧ mkEdge "a" "d" 2 ∈ relations (conn r.2)
  ∧ ¬ ∃ c, mkEdge "a" c 1 ∈ relations (conn r.2)
           ∧ mkEdge c "d" 1 ∈ relations (conn r.2).
Proof.
  intros self st1 r.
  assert (r.1 = Ok ()) as Hr by (vm_compute; reflexivity).
  assert (relations (conn r.2) =
            [mkEdge "a" "b" 1; mkEdge "b" "c" 1; mkEdge "c" "d" 1;
             mkEdge "a" "c" 2; mkEdge "b" "d" 2; mkEdge "a" "d" 2]) as Hrel
    by (vm_compute; reflexivity).
  clearbody r. rewrite Hrel. clear Hrel.
  split_and!; [done|repeat constructor|].
  intros (c & Hac & Hcd). rewrite !elem_of_cons, elem_of_nil in Hac, Hcd.
  destruct_or!; simplify_eq.
Qed.

(** ** Merge conflicts *)

(** C5.  The assertion of the [merge] branch formats its message with
    [f.id], the number of the current item and the current item: for two
    records [x] that differ in [start], the slot before " field" holds "x",
    and the name [start] is not part of what is raised. *)
Theorem merge_conflict_names_id_not_field :
  (@create examples.gff_creator
     (examples.config MSMerge (SpecStr "ID") false)
     examples.gff_conflict init_state).1
  = Raise (AssertionError
             "Same ID, but differing info for %s field. Line %s: \n%s"
             ("x", 1, Some (examples.record "gene" 2 100 [("ID", ["x"])]))).
Proof. vm_compute. reflexivity. Qed.

(** ** Empty input *)

(** C6.  [_GTFDBCreator._populate_from_lines] reads [i] after its loop, which
    an empty input leaves unbound: with [verbose] set, an update with no
    record raises, whatever the rest of the configuration and the store. *)
Theorem gtf_verbose_empty_update_raises `{PyRuntime, BinsModule}
    (ms : MergeStrategy) (spec : IdSpec) (tk gk sf : string) (st : State) :
  @update _GTFDBCreator (mkConfig ms spec true tk gk sf) [] st
  = (Raise (UnboundLocalError "i"), st).
Proof. reflexivity. Qed.

(** The GFF driver assigns [i = 0] first, and then only writes the message. *)
Lemma gff_populate_empty `{PyRuntime} (self : Config) (st : State) :
  ∃ out, gff_populate_from_lines self [] st =
    (Ok (), mkState (_autoincrements st) (conn st) (current_item_number st)
                    (current_item st) out).
Proof.
  unfold gff_populate_from_lines. simpl.
  destruct st. destruct (verbose self); by eexists.
Qed.

Lemma gtf_populate_empty_quiet `{PyRuntime} (self : Config) (st : State) :
  verbose self = false → gtf_populate_from_lines self [] st = (Ok (), st).
Proof. intros Hv. unfold gtf_populate_from_lines. simpl. by rewrite Hv. Qed.

(** ** The order of merged values *)

(** C4, as stated, fails: under a runtime that iterates sets in ascending
    order, merging [Name=c] into the stored [Name=b,a] gives [a; b; c], not the
    stored values first. *)
Lemma merge_order_counterexample :
  let self := examples.config MSMerge (SpecStr "ID") false in
  let st := (@gff_populate_from_lines ascending_runtime self
               (take 1 examples.gff_names) init_state).2 in
  let new := set_id "x" (examples.record "gene" 1 100 [("ID", ["x"]); ("Name", ["c"])]) in
  match (@_do_merge ascending_runtime self new st).1 with
  | Ok (Some fixed, _) =>
      attr_get "Name" (attributes fixed) = ["a"; "b"; "c"]
      ∧ attr_get "Name" (attributes fixed)
        ≠ existing_first_union ["b"; "a"] ["c"]
  | _ => False
  end.
Proof. vm_compute. split; [reflexivity|discriminate]. Qed.

(** ** Ingesting an input twice *)

(** *** Counters *)

Global Instance counters_le_preorder : PreOrder counters_le.
Proof.
  split.
  - intros c k n Hk. eauto.
  - intros c1 c2 c3 H12 H23 k n Hk.
    destruct (H12 k n Hk) as (n' & Hk' & ?).
    destruct (H23 k n' Hk') as (n'' & Hk'' & ?). exists n''. split; [done|lia].
Qed.

Lemma counters_le_antisymm (c c' : gmap string nat) : counters_le c c' → counters_le c' c → c = c'.
Proof.
  intros H1 H2. apply map_eq. intros k.
  destruct (c !! k) as [n|] eqn:Hk, (c' !! k) as [n'|] eqn:Hk'; try done.
  - destruct (H1 k n Hk) as (m & Hm & ?), (H2 k n' Hk') as (m' & Hm' & ?).
    simplify_eq. f_equal. lia.
  - destruct (H1 k n Hk) as (m & Hm & ?). congruence.
  - destruct (H2 k n' Hk') as (m & Hm & ?). congruence.
Qed.

Lemma counters_le_increment (c : gmap string nat) (key : string) :
  counters_le c (<[key := S (default 0 (c !! key))]> c).
Proof.
  intros k n Hk. destruct (decide (key = k)) as [->|Hne].
  - rewrite lookup_insert_eq, Hk. simpl. exists (S n). split; [done|lia].
  - rewrite lookup_insert_ne by done. eauto.
Qed.

Lemma increment_changes (c : gmap string nat) (key : string) : <[key := S (default 0 (c !! key))]> c ≠ c.
Proof.
  intros Heq. assert ((<[key := S (default 0 (c !! key))]> c) !! key = c !! key)
    as Hk by by rewrite Heq.
  rewrite lookup_insert_eq in Hk. destruct (c !! key); simplify_eq/=. lia.
Qed.

Global Instance counters_above_invariant c : DriverInvariant (counters_above c).
Proof.
  split; try (by intros; intros st).
  - intros key st Hc. unfold counters_above in *. simpl.
    etrans; [exact Hc|]. apply counters_le_increment.
  - intros f st Hc. unfold execute_insert, mbind, M_bind, get_conn.
    by destruct (sql_insert_feature f (conn st)).
Qed.

(** A run leaves the counters at least where they were. *)
Lemma counters_monotone {A} (m : M A) st :
  (∀ c, preserves (counters_above c) m) →
  counters_le (_autoincrements st) (_autoincrements (m st).2).
Proof. intros Hm. apply (Hm (_autoincrements st) st). unfold counters_above. done. Qed.

Lemma bind_unfold {A B} (m : M A) (k : A → M B) st :
  (m ≫= k) st =
    match m st with
    | (Ok a, st') => k a st'
    | (Raise e, st') => (Raise e, st')
    end.
Proof. done. Qed.

Local Arguments id_handler_pure : simpl never.

Section merge_line_facts.
Context `{PyRuntime}.
Variable self : Config.
Hypothesis Hmerge : merge_strategy self = MSMerge.

Lemma percent_complete_eq i st :
  percent_complete self i st =
    (Ok (), mkState (_autoincrements st) (conn st) (current_item_number st)
                    (current_item st) (progress_out self i (stderr st))).
Proof.
  unfold percent_complete, progress_out.
  destruct (verbose self); [case_bool_decide|]; by destruct st.
Qed.

Lemma parent_loop_eq (g : Feature) st :
  (if attr_mem "Parent" (attributes g)
   then for_each (attr_get "Parent" (attributes g))
          (λ parent, modify_conn (sql_insert_relation (mkEdge parent (id g) 1)))
   else mret ()) st =
  (Ok (), with_conn (sql_insert_relations (parent_edges g) (conn st)) st).
Proof.
  unfold parent_edges. destruct (attr_mem _ _) eqn:Hmem.
  - by rewrite (for_each_insert_relation (λ p, mkEdge p (id g) 1)).
  - unfold attr_mem in Hmem. apply bool_decide_eq_false in Hmem.
    unfold attr_get. destruct (attr_lookup "Parent" (attributes g)).
    + by destruct Hmem.
    + by destruct st.
Qed.

Lemma do_merge_merge_eq f st :
  _do_merge self f st =
    match sql_select_feature (id f) (conn st) with
    | None =>
        (Raise (TypeError "type object argument after ** must be a mapping, not NoneType"),
         st)
    | Some r =>
        match list_find (λ k, getattr r k ≠ getattr f k) column_names with
        | Some _ =>
            (Raise (AssertionError merge_assert_fmt
                      (id f, current_item_number st, current_item st)), st)
        | None =>
            (Ok (Some (set_attributes
                         (merge_attributes (attributes r) (attributes f)) r),
                 f), st)
        end
    end.
Proof.
  unfold _do_merge. rewrite Hmerge.
  rewrite (bind_unfold (_get_feature (id f))).
  unfold _get_feature. erewrite bind_Ok by done.
  destruct (sql_select_feature (id f) (conn st)) as [r|]; [|done].
  unfold column_names. change ((mret r : M Feature) st) with (Ok r, st).
  cbv beta iota.
  by destruct (list_find _ (removelast _gffkeys)).
Qed.

Local Opaque column_names.

Lemma gff_populate_line_merge i f st :
  gff_populate_line self i f st =
    merge_line self (λ g, Ok (parent_edges g)) (progress_out self i) f st.
Proof.
  unfold gff_populate_line, merge_line.
  erewrite bind_Ok by apply percent_complete_eq. cbv beta.
  rewrite (bind_unfold (_id_handler self f)), id_handler_frame.
  cbn [_autoincrements].
  destruct (id_handler_pure self f (_autoincrements st)) as [[[fid f']|e] c];
    simpl; [|done].
  rewrite (bind_unfold (insert_feature self _)).
  unfold insert_feature. case_decide as Hdup.
  - erewrite try_except_caught; cycle 1.
    { erewrite bind_Raise; [done|]. by apply execute_insert_taken. }
    rewrite (bind_unfold (_do_merge self _)), do_merge_merge_eq. simpl.
    destruct (sql_select_feature fid (conn st)) as [r|]; [|done].
    destruct (list_find _ column_names); [done|].
    rewrite Hmerge. simpl. exact (parent_loop_eq (set_id fid f') _).
  - erewrite try_except_Ok; cycle 1.
    { erewrite bind_Ok; [done|]. by apply execute_insert_free. }
    exact (parent_loop_eq (set_id fid f') _).
Qed.

Lemma gtf_relations_pure g st :
  gtf_relations self g st = (gtf_edges self g, st).
Proof.
  unfold gtf_edges, gtf_relations.
  destruct (attr_mem (transcript_key self) (attributes g)).
  - destruct (attr_get (transcript_key self) (attributes g)) as [|p ps]; [done|].
    erewrite !bind_Ok by done. cbv beta iota.
    destruct (attr_mem (gene_key self) (attributes g)); [|done].
    by destruct (attr_get (gene_key self) (attributes g)).
  - erewrite !bind_Ok by done. cbv beta iota.
    destruct (attr_mem (gene_key self) (attributes g)); [|done].
    by destruct (attr_get (gene_key self) (attributes g)).
Qed.

Lemma gtf_populate_line_merge i f st :
  gtf_populate_line self i f st =
    merge_line self (gtf_edges self) (progress_out self i) f st.
Proof.
  unfold gtf_populate_line, merge_line.
  erewrite bind_Ok by apply percent_complete_eq. cbv beta.
  rewrite (bind_unfold (_id_handler self f)), id_handler_frame.
  cbn [_autoincrements].
  destruct (id_handler_pure self f (_autoincrements st)) as [[[fid f']|e] c];
    simpl; [|done].
  rewrite (bind_unfold (insert_feature self _)).
  unfold insert_feature. case_decide as Hdup.
  - erewrite try_except_caught; cycle 1.
    { erewrite bind_Raise; [done|]. by apply execute_insert_taken. }
    rewrite (bind_unfold (_do_merge self _)), do_merge_merge_eq. simpl.
    destruct (sql_select_feature fid (conn st)) as [r|]; [|done].
    destruct (list_find _ column_names); [done|].
    rewrite Hmerge. simpl.
    rewrite (bind_unfold (gtf_relations self _)), gtf_relations_pure.
    by destruct (gtf_edges self (set_id fid f')).
  - erewrite try_except_Ok; cycle 1.
    { erewrite bind_Ok; [done|]. by apply execute_insert_free. }
    rewrite (bind_unfold (gtf_relations self _)), gtf_relations_pure.
    by destruct (gtf_edges self (set_id fid f')).
Qed.

Lemma insert_derived_merge f st :
  insert_derived self f st = merge_line self (λ _, Ok []) (λ out, out) f st.
Proof.
  unfold insert_derived, merge_line.
  rewrite (bind_unfold (_id_handler self f)), id_handler_frame.
  cbn [_autoincrements].
  destruct (id_handler_pure self f (_autoincrements st)) as [[[fid f']|e] c];
    simpl; [|by destruct st].
  case_decide as Hdup.
  - erewrite try_except_caught by (by apply execute_insert_taken).
    rewrite (bind_unfold (_do_merge self _)), do_merge_merge_eq. simpl.
    destruct (sql_select_feature fid (conn st)) as [r|]; [|by destruct st].
    destruct (list_find _ column_names); [by destruct st|].
    by destruct st.
  - erewrite try_except_Ok by (by apply execute_insert_free). by destruct st.
Qed.
End merge_line_facts.

(** *** Rows and stores that grow *)

Lemma row_le_refl r : row_le r r.
Proof. split; [by destruct r|done]. Qed.

Lemma row_eqv_refl r : row_eqv r r.
Proof. split; [by destruct r|done]. Qed.

Lemma row_eqv_le r r' : row_eqv r r' → row_le r r'.
Proof. intros [Hr Ha]. split; [done|]. intros k x. by apply Ha. Qed.

Lemma row_le_trans r1 r2 r3 : row_le r1 r2 → row_le r2 r3 → row_le r1 r3.
Proof.
  intros [H1 H1'] [H2 H2']. split; [|by eauto].
  destruct r1, r2, r3. unfold set_attributes in *. simpl in *.
  inversion H1; inversion H2; by subst.
Qed.

Lemma row_le_id r r' : row_le r r' → id r' = id r.
Proof. intros [<- _]. done. Qed.

Lemma row_le_getattr r r' k : row_le r r' → getattr r' k = getattr r k.
Proof. intros [<- _]. done. Qed.

Lemma Forall2_row_le_refl fs : Forall2 row_le fs fs.
Proof. apply Forall2_same_length_lookup_2; [done|]. intros i r r' ? ?. simplify_eq. apply row_le_refl. Qed.

Lemma Forall2_row_eqv_refl fs : Forall2 row_eqv fs fs.
Proof. apply Forall2_same_length_lookup_2; [done|]. intros i r r' ? ?. simplify_eq. apply row_eqv_refl. Qed.

Lemma Forall2_row_le_ids fs fs' : Forall2 row_le fs fs' → id <$> fs' = id <$> fs.
Proof.
  induction 1 as [|r r' fs fs' Hr _ IH]; [done|]. csimpl.
  by rewrite IH, (row_le_id _ _ Hr).
Qed.

Lemma db_le_refl db : db_le db db.
Proof.
  split; [|done]. exists (features db), []. split; [apply Forall2_row_le_refl|].
  by rewrite app_nil_r.
Qed.

Lemma db_le_trans db1 db2 db3 : db_le db1 db2 → db_le db2 db3 → db_le db1 db3.
Proof.
  intros [(fs & new & Hfs & Heq) Hrel] [(fs' & new' & Hfs' & Heq') Hrel'].
  split; [|by eauto].
  rewrite Heq in Hfs'. apply Forall2_app_inv_l in Hfs' as (gs & gnew & Hgs & Hgnew & ->).
  exists gs, (gnew ++ new'). split.
  - eapply Forall2_trans; [|exact Hfs|exact Hgs]. apply row_le_trans.
  - by rewrite Heq', app_assoc.
Qed.

Lemma db_le_elem_of db db' r :
  db_le db db' → r ∈ features db → ∃ r', r' ∈ features db' ∧ row_le r r'.
Proof.
  intros [(fs & new & Hfs & Heq) _] Hr.
  apply list_elem_of_lookup in Hr as [i Hi].
  destruct (Forall2_lookup_l _ _ _ _ _ Hfs Hi) as (r' & Hi' & Hrr').
  exists r'. split; [|done]. rewrite Heq. apply elem_of_app. left.
  by eapply list_elem_of_lookup_2.
Qed.

Lemma covers_mono db db' g : db_le db db' → covers db g → covers db' g.
Proof.
  intros Hle (r & Hr & Hid & Hcols & Hattrs).
  destruct (db_le_elem_of _ _ _ Hle Hr) as (r' & Hr' & Hrr').
  exists r'. split_and!; [done|by rewrite (row_le_id _ _ Hrr')| |].
  - eapply Forall_impl; [exact Hcols|]. simpl. intros k <-.
    by apply row_le_getattr.
  - intros k x Hx. by apply Hrr', Hattrs.
Qed.

Lemma settled_mono edges db db' g :
  db_le db db' → settled edges db g → settled edges db' g.
Proof.
  intros Hle [Hc (es & Hes & He)]. split; [by eapply covers_mono|].
  exists es. split; [done|]. intros e H. by apply Hle, He.
Qed.

Lemma NoDup_fmap_elem_inj {A B} (g : A → B) (l : list A) x y :
  NoDup (g <$> l) → x ∈ l → y ∈ l → g x = g y → x = y.
Proof.
  induction l as [|z l IH]; [by intros _ ?%elem_of_nil|].
  csimpl. intros [Hz Hl]%NoDup_cons [->|Hx]%elem_of_cons [->|Hy]%elem_of_cons Hg;
    [done| | |by apply IH].
  - destruct Hz. rewrite Hg. by apply list_elem_of_fmap_2.
  - destruct Hz. rewrite <-Hg. by apply list_elem_of_fmap_2.
Qed.

Lemma sql_select_feature_unique db r :
  NoDup (ids db) → r ∈ features db → sql_select_feature (id r) db = Some r.
Proof.
  intros Hnd Hr. unfold sql_select_feature.
  destruct (list_find_elem_of (λ r0, id r0 = id r) (features db) r Hr eq_refl)
    as [[i r0] Hfind].
  rewrite Hfind. simpl. f_equal.
  apply list_find_Some in Hfind as (Hi & Hid & _).
  apply (NoDup_fmap_elem_inj id (features db)); [done| |done|done].
  by eapply list_elem_of_lookup_2.
Qed.

Lemma sql_select_feature_Some db i r :
  sql_select_feature i db = Some r → r ∈ features db ∧ id r = i.
Proof.
  unfold sql_select_feature.
  destruct (list_find _ _) as [[n r0]|] eqn:Hfind; [|done].
  intros [= <-]. apply list_find_Some in Hfind as (Hi & Hid & _).
  split; [|done]. by eapply list_elem_of_lookup_2.
Qed.

(** The rows after an [UPDATE] of the attributes of [r], the only row with its
    id. *)
Lemma sql_update_attributes_Forall2 (R : Feature → Feature → Prop) a db r :
  (∀ r0, R r0 r0) → NoDup (ids db) → r ∈ features db →
  R r (set_attributes a r) →
  Forall2 R (features db) (features (sql_update_attributes a (id r) db)).
Proof.
  intros Hrefl Hnd Hr HR. unfold sql_update_attributes. simpl.
  apply Forall2_fmap_r. apply Forall2_same_length_lookup_2; [done|].
  intros i r1 r2 H1 H2. simplify_eq. unfold compose. cbv beta. case_decide as Hid; [|done].
  assert (r1 = r) as ->; [|done].
  apply (NoDup_fmap_elem_inj id (features db)); [done| |done|done].
  by eapply list_elem_of_lookup_2.
Qed.

Lemma sql_update_attributes_elem_of a db r :
  r ∈ features db →
  set_attributes a r ∈ features (sql_update_attributes a (id r) db).
Proof.
  intros Hr. unfold sql_update_attributes. simpl.
  apply list_elem_of_fmap. exists r. by rewrite decide_True.
Qed.

Lemma sql_update_attributes_relations a i db :
  relations (sql_update_attributes a i db) = relations db.
Proof. done. Qed.

Lemma sql_insert_relations_present es db :
  (∀ e, e ∈ es → e ∈ relations db) → sql_insert_relations es db = db.
Proof.
  unfold sql_insert_relations. revert db.
  induction es as [|e es IH]; intros db Hes; simpl; [done|].
  unfold sql_insert_relation at 2. rewrite decide_True by (apply Hes; left).
  apply IH. intros e' He'. apply Hes. by right.
Qed.

(** Edges of another level are not seen among those of level [n]. *)
Lemma sql_insert_relations_filter_level n es db :
  Forall (λ e, level e ≠ n) es →
  filter (λ e, level e = n) (relations (sql_insert_relations es db))
  = filter (λ e, level e = n) (relations db).
Proof.
  unfold sql_insert_relations. revert db.
  induction es as [|e es IH]; intros db; [done|].
  intros [He Hes]%Forall_cons. simpl. rewrite IH by done.
  unfold sql_insert_relation. case_decide; [done|]. simpl.
  rewrite filter_app, filter_cons_False by done. by rewrite filter_nil, app_nil_r.
Qed.

Lemma attr_lookup_elem_of k v (a : Attributes) :
  attr_lookup k a = Some v → (k, v) ∈ a.
Proof.
  induction a as [|[k' v'] a IH]; simpl; [done|].
  case_decide; [intros [= ->]; subst; left|intros ?; right; by apply IH].
Qed.

Lemma attr_lookup_NoDup k v (a : Attributes) :
  NoDup a.*1 → (k, v) ∈ a → attr_lookup k a = Some v.
Proof.
  induction a as [|[k' v'] a IH]; simpl; [by intros _ ?%elem_of_nil|].
  intros [Hk' Ha]%NoDup_cons [[= -> ->]|Hkv]%elem_of_cons.
  - by rewrite decide_True.
  - rewrite decide_False; [by apply IH|].
    intros ->. apply Hk'. by apply (list_elem_of_fmap_2 fst _ (k', v)).
Qed.

Lemma bind_Ok_inv {A B} (m : M A) (k : A → M B) st b st' :
  (m ≫= k) st = (Ok b, st') → ∃ a st1, m st = (Ok a, st1) ∧ k a st1 = (Ok b, st').
Proof. rewrite bind_unfold. destruct (m st) as [[a|e] st1]; [eauto|done]. Qed.

Lemma row_eqv_trans r1 r2 r3 : row_eqv r1 r2 → row_eqv r2 r3 → row_eqv r1 r3.
Proof.
  intros [H1 H1'] [H2 H2']. split.
  - destruct r1, r2, r3. unfold set_attributes in *. simpl in *.
    inversion H1; inversion H2; by subst.
  - intros k x. by rewrite H2', H1'.
Qed.

Lemma attr_get_elem_of k x (a : Attributes) :
  x ∈ attr_get k a ↔ ∃ v, attr_lookup k a = Some v ∧ x ∈ v.
Proof.
  unfold attr_get. destruct (attr_lookup k a) as [v|]; simpl.
  - split; [eauto|]. by intros (v' & [= <-] & ?).
  - split; [by intros ?%elem_of_nil|]. by intros (v' & [=] & ?).
Qed.

Section id_handler_sublist.
Context `{PyRuntime}.
Variable self : Config.

Lemma try_id_keys_sublist id_key f st fid f' st' :
  try_id_keys id_key f st = (Ok (fid, f'), st') →
  attributes f' `sublist_of` attributes f.
Proof.
  revert f. induction id_key as [|[k|fn] rest IH]; intros f; simpl.
  - by intros [= _ <- _].
  - destruct (is_sentinel k).
    + destruct (getattr f (strip_colons k)); [|done]. by intros [= _ <- _].
    + destruct (attr_get k (attributes f)) eqn:Hk.
      * intros Hrest%IH. etrans; [exact Hrest|]. simpl. apply sublist_filter.
      * by intros [= _ <- _].
  - destruct (fn f) as [_id|]; [|done].
    case_bool_decide; [done|].
    by destruct (String.prefix _ _); intros [= _ <- _].
Qed.

Lemma id_handler_sublist f st fid f' st' :
  _id_handler self f st = (Ok (fid, f'), st') →
  attributes f' `sublist_of` attributes f.
Proof.
  unfold _id_handler.
  destruct (id_spec self) as [k|fn|d|ks]; try apply try_id_keys_sublist.
  destruct (d !! featuretype f) as [[k|ks]|]; try apply try_id_keys_sublist.
  by intros [= _ <- _].
Qed.

Lemma id_handler_pure_NoDup f c fid f' c' :
  id_handler_pure self f c = (Ok (fid, f'), c') →
  NoDup (attributes f).*1 → NoDup (attributes f').*1.
Proof.
  unfold id_handler_pure. simpl.
  destruct (_id_handler self f _) as [r st'] eqn:Hh. simpl. intros [= -> _].
  apply id_handler_sublist in Hh. intros Hnd.
  pose proof (fmap_sublist fst _ _ Hh). eapply sublist_NoDup; eassumption.
Qed.
End id_handler_sublist.

Lemma list_find_None_columns (r g : Feature) :
  list_find (λ k, getattr r k ≠ getattr g k) column_names = None →
  Forall (λ k, getattr r k = getattr g k) column_names.
Proof.
  intros Hnone%list_find_None. eapply Forall_impl; [exact Hnone|].
  simpl. intros k Hk. by destruct (decide (getattr r k = getattr g k)).
Qed.

Lemma columns_list_find_None (r g : Feature) :
  Forall (λ k, getattr r k = getattr g k) column_names →
  list_find (λ k, getattr r k ≠ getattr g k) column_names = None.
Proof.
  intros Hall. apply list_find_None. eapply Forall_impl; [exact Hall|].
  simpl. intros k Hk Hne. done.
Qed.

Lemma sql_insert_relations_ids es db : ids (sql_insert_relations es db) = ids db.
Proof. unfold ids. by rewrite sql_insert_relations_features. Qed.

Lemma conn_with_conn db st : conn (with_conn db st) = db.
Proof. done. Qed.

(** *** The scratch file of the GFF closure *)

Lemma string_app_nil_l (t : string) : "" +:+ t = t.
Proof. reflexivity. Qed.

Lemma string_app_cons c (s t : string) : String c s +:+ t = String c (s +:+ t).
Proof. reflexivity. Qed.

Lemma string_app_nil_r (s : string) : s +:+ "" = s.
Proof.
  induction s as [|c s IH]; [done|]. rewrite string_app_cons. by rewrite IH.
Qed.

Lemma string_app_assoc (s t u : string) : (s +:+ t) +:+ u = s +:+ (t +:+ u).
Proof.
  induction s as [|c s IH]; [done|]. rewrite !string_app_cons. by rewrite IH.
Qed.

Lemma list_ascii_app (s t : string) :
  String.list_ascii_of_string (s +:+ t)
  = String.list_ascii_of_string s ++ String.list_ascii_of_string t.
Proof.
  induction s as [|c s IH]; [done|]. rewrite string_app_cons. simpl.
  by rewrite IH.
Qed.

Lemma lstrip_length s : String.length (lstrip s) ≤ String.length s.
Proof.
  induction s as [|c s IH]; simpl; [done|].
  destruct (isspace c); simpl; lia.
Qed.

Lemma lstrip_app s t : s ≠ "" → lstrip s = s → lstrip (s +:+ t) = s +:+ t.
Proof.
  destruct s as [|c s]; [done|]. intros _. rewrite string_app_cons. simpl.
  destruct (isspace c); [|done]. intros Heq. exfalso.
  pose proof (lstrip_length s) as Hlen. rewrite Heq in Hlen. simpl in Hlen. lia.
Qed.

Lemma rstrip_app s t :
  rstrip (s +:+ t) = if decide (rstrip t = "") then rstrip s else s +:+ rstrip t.
Proof.
  induction s as [|c s IH].
  - rewrite !string_app_nil_l. by case_decide.
  - rewrite !string_app_cons. simpl. rewrite IH. case_decide; [done|].
    destruct s; [rewrite string_app_nil_l; by destruct (rstrip t)|].
    by rewrite string_app_cons.
Qed.

Lemma strip_line p g :
  plain p → plain g →
  strip (p +:+ String tab (g +:+ String newline "")) = p +:+ String tab g.
Proof.
  intros (Hp & Hpl & _) (Hg & _ & Hgr & _). unfold strip.
  rewrite lstrip_app by done.
  assert (rstrip (String tab (g +:+ String newline "")) = String tab g) as Ht.
  { simpl. rewrite rstrip_app. rewrite decide_True by done. rewrite Hgr.
    by destruct g. }
  rewrite rstrip_app, Ht. by rewrite decide_False.
Qed.

Lemma split_no_sep c s :
  c ∉ String.list_ascii_of_string s → split c s = [s].
Proof.
  induction s as [|a s IH]; cbn [split String.list_ascii_of_string]; [done|].
  rewrite not_elem_of_cons. intros [Hne Hs].
  rewrite decide_False by done. by rewrite IH.
Qed.

Lemma split_app c p g :
  c ∉ String.list_ascii_of_string p →
  split c (p +:+ String c g) = p :: split c g.
Proof.
  induction p as [|a p IH].
  - intros _. rewrite string_app_nil_l. cbn [split]. by rewrite decide_True.
  - rewrite string_app_cons. cbn [split String.list_ascii_of_string].
    rewrite not_elem_of_cons. intros [Hne Hp].
    rewrite decide_False by done. by rewrite IH.
Qed.

Lemma readlines_line body rest :
  newline ∉ String.list_ascii_of_string body →
  readlines (body +:+ String newline rest)
  = (body +:+ String newline "") :: readlines rest.
Proof.
  induction body as [|a body IH].
  - intros _. rewrite !string_app_nil_l. cbn [readlines]. by rewrite decide_True.
  - rewrite !string_app_cons. cbn [readlines String.list_ascii_of_string].
    rewrite not_elem_of_cons. intros [Hne Hb].
    rewrite decide_False by done. by rewrite IH.
Qed.

(** A line of two plain ids is read back as the two ids. *)
Lemma relations_generator_row_plain p g :
  plain p → plain g →
  relations_generator_row (p +:+ String tab (g +:+ String newline ""))
  = Ok (mkEdge p g 2).
Proof.
  intros Hp Hg. unfold relations_generator_row.
  rewrite strip_line by done.
  destruct Hp as (_ & _ & _ & Hpt & _), Hg as (_ & _ & _ & Hgt & _).
  by rewrite split_app, split_no_sep.
Qed.

Lemma foldl_write (acc : string) (ls : list string) :
  foldl (λ out line, out +:+ line) acc ls = acc +:+ foldr String.append "" ls.
Proof.
  revert acc. induction ls as [|l ls IH]; intros acc; simpl.
  - by rewrite string_app_nil_r.
  - by rewrite IH, string_app_assoc.
Qed.

(** The file that holds the lines of plain ids is read back line by line. *)
Lemma readlines_plain (pairs : list (string * string)) :
  Forall (λ pg, plain pg.1 ∧ plain pg.2) pairs →
  readlines
    (foldr String.append ""
       ((λ pg, pg.1 +:+ String tab (pg.2 +:+ String newline "")) <$> pairs))
  = (λ pg, pg.1 +:+ String tab (pg.2 +:+ String newline "")) <$> pairs.
Proof.
  induction 1 as [|[p g] pairs [Hp Hg] _ IH]; [done|].
  cbn [fmap list_fmap foldr fst snd].
  assert (∀ rest,
            String.append (p +:+ String tab (g +:+ String newline "")) rest
            = (p +:+ String tab g) +:+ String newline rest) as ->.
  { intros rest.
    by repeat first [rewrite string_app_assoc|rewrite string_app_cons
                    |rewrite string_app_nil_l]. }
  rewrite readlines_line, IH.
  - f_equal. by rewrite string_app_assoc.
  - destruct Hp as (_ & _ & _ & _ & Hpn), Hg as (_ & _ & _ & _ & Hgn).
    rewrite list_ascii_app. simpl.
    rewrite not_elem_of_app, not_elem_of_cons. done.
Qed.

Lemma for_each_ext {A} (xs : list A) (body body' : A → M unit) st :
  (∀ x, x ∈ xs → body x = body' x) → for_each xs body st = for_each xs body' st.
Proof.
  revert st. induction xs as [|x xs IH]; intros st Hb; [done|].
  cbn [for_each]. rewrite !bind_unfold.
  rewrite (Hb x) by left. destruct (body' x st) as [[[]|e] st']; [|done].
  apply IH. intros y Hy. apply Hb. by right.
Qed.

Lemma for_each_fmap {A B} (g : A → B) (xs : list A) (body : B → M unit) st :
  for_each (g <$> xs) body st = for_each xs (λ x, body (g x)) st.
Proof.
  revert st. induction xs as [|x xs IH]; intros st; [done|].
  cbn [fmap list_fmap for_each]. rewrite !bind_unfold.
  destruct (body (g x) st) as [[[]|e] st']; [|done]. apply IH.
Qed.

Lemma for_each_insert_edges {A} (mk : A → Edge) (xs : list A) st :
  for_each xs (λ x, modify_conn (sql_insert_relation (mk x))) st =
    (Ok (), with_conn (sql_insert_relations (mk <$> xs) (conn st)) st).
Proof.
  rewrite for_each_modify_conn. do 2 f_equal.
  unfold sql_insert_relations. generalize (conn st).
  induction xs as [|x xs IH]; intros db; simpl; [done|]. apply IH.
Qed.

Lemma grandchild_lines_pairs db :
  grandchild_lines db
  = (λ pg, pg.1 +:+ String tab (pg.2 +:+ String newline ""))
      <$> (p ← ids db; grandchild ← select_grandchildren db p; [(p, grandchild)]).
Proof.
  unfold grandchild_lines. induction (ids db) as [|p ps IH]; [done|].
  rewrite !bind_cons, fmap_app, IH. f_equal.
  induction (select_grandchildren db p) as [|g gs IHg]; [done|].
  rewrite !bind_cons, fmap_app, IHg. done.
Qed.

Lemma grandchild_pairs_plain db :
  Forall plain_edge (relations db) →
  Forall (λ pg, plain pg.1 ∧ plain pg.2)
         (p ← ids db; grandchild ← select_grandchildren db p; [(p, grandchild)]).
Proof.
  intros Hall. rewrite Forall_forall in Hall. apply Forall_forall.
  intros [p g] Hpg.
  apply list_elem_of_bind in Hpg as (p' & Hpg & Hp).
  apply list_elem_of_bind in Hpg as (g' & Hpg & Hg).
  apply list_elem_of_singleton in Hpg as [= -> ->].
  unfold select_grandchildren in Hg.
  apply list_elem_of_fmap in Hg as (e2 & -> & He2).
  apply list_elem_of_filter in He2 as [Hc He2].
  apply list_elem_of_fmap in Hc as (e1 & Hc & He1).
  apply list_elem_of_filter in He1 as [Hp1 He1]. simpl.
  split; [rewrite <-Hp1; by apply Hall|by apply Hall].
Qed.

(** With plain ids in [relations], the closure inserts the edge of every
    pair that the query gives. *)
Lemma gff_update_relations_plain st :
  Forall plain_edge (relations (conn st)) →
  gff_update_relations st =
    (Ok (), with_conn (sql_insert_relations (closure_edges (conn st)) (conn st)) st).
Proof.
  intros Hall. unfold gff_update_relations. erewrite bind_Ok by done.
  cbv beta zeta. pose proof (grandchild_pairs_plain _ Hall) as Hpairs.
  rewrite foldl_write, grandchild_lines_pairs, string_app_nil_l.
  rewrite readlines_plain by done. rewrite for_each_fmap.
  rewrite (for_each_ext _ _
             (λ pg, modify_conn (sql_insert_relation (mkEdge pg.1 pg.2 2))));
    cycle 1.
  { intros [p g] Hpg. rewrite Forall_forall in Hpairs.
    destruct (Hpairs _ Hpg) as [Hp Hg]. simpl in *.
    by rewrite relations_generator_row_plain. }
  by rewrite (for_each_insert_edges (λ pg, mkEdge pg.1 pg.2 2)).
Qed.

Lemma relations_generator_row_level line e :
  relations_generator_row line = Ok e → level e = 2.
Proof.
  unfold relations_generator_row.
  destruct (split tab (strip line)) as [|p [|g [|? ?]]]; try done.
  by intros [= <-].
Qed.

(** Whatever the ids and whether it returns or raises, the closure writes
    to [relations] only, and only edges of level 2. *)
Lemma gff_update_relations_grows st :
  ∃ db', (gff_update_relations st).2 = with_conn db' st
    ∧ features db' = features (conn st)
    ∧ (∀ e, e ∈ relations (conn st) → e ∈ relations db')
    ∧ filter (λ e, level e = 1) (relations db')
      = filter (λ e, level e = 1) (relations (conn st)).
Proof.
  unfold gff_update_relations. rewrite bind_unfold. cbn [get_conn].
  generalize (readlines
                (foldl (λ out line, out +:+ line) "" (grandchild_lines (conn st)))).
  intros lines.
  assert (∀ st0, ∃ db', (for_each lines
            (λ line, match relations_generator_row line with
                     | Ok row => modify_conn (sql_insert_relation row)
                     | Raise e => raise e
                     end) st0).2 = with_conn db' st0
    ∧ features db' = features (conn st0)
    ∧ (∀ e, e ∈ relations (conn st0) → e ∈ relations db')
    ∧ filter (λ e, level e = 1) (relations db')
      = filter (λ e, level e = 1) (relations (conn st0))) as Hloop; [|apply Hloop].
  induction lines as [|line lines IH]; intros st0.
  - exists (conn st0). by destruct st0.
  - cbn [for_each]. rewrite bind_unfold.
    destruct (relations_generator_row line) as [row|e] eqn:Hrow.
    + apply relations_generator_row_level in Hrow.
      change (modify_conn (sql_insert_relation row) st0)
        with (Ok (), with_conn (sql_insert_relation row (conn st0)) st0).
      cbv beta iota.
      destruct (IH (with_conn (sql_insert_relation row (conn st0)) st0))
        as (db' & -> & Hf & Hr & Hl).
      exists db'. simpl in *. split_and!; [done| | |].
      * by rewrite Hf, sql_insert_relation_features.
      * intros e He. apply Hr, sql_insert_relation_elem_of. by right.
      * rewrite Hl. unfold sql_insert_relation. case_decide; [done|]. simpl.
        rewrite filter_app, filter_cons_False by (rewrite Hrow; lia).
        by rewrite filter_nil, app_nil_r.
    + exists (conn st0). by destruct st0.
Qed.

(** *** One record, ingested for the first time and again *)

Section reingest_line.
Context `{PyRuntime}.
Variable self : Config.
Variable edges : Feature → Result (list Edge).
Variable out : list nat → list nat.

Local Opaque column_names.

Lemma id_handler_pure_counters f c :
  counters_le c (id_handler_pure self f c).2.
Proof.
  unfold id_handler_pure. cbn [snd].
  apply (counters_monotone (_id_handler self f) (mkState c empty_db 0 None [])).
  intros c0. apply preserves_id_handler, _.
Qed.

Lemma id_handler_pure_same_values f c fid f' c' :
  id_handler_pure self f c = (Ok (fid, f'), c') → same_values f f'.
Proof.
  unfold id_handler_pure.
  destruct (_id_handler self f _) as [r st'] eqn:Hh. cbn [fst snd].
  intros [= -> _]. by eapply id_handler_same_values.
Qed.

(** A step never lowers a counter. *)
Lemma merge_line_counters f st :
  counters_le (_autoincrements st)
              (_autoincrements (merge_line self edges out f st).2).
Proof.
  unfold merge_line.
  pose proof (id_handler_pure_counters f (_autoincrements st)) as Hc.
  destruct (id_handler_pure self f (_autoincrements st)) as [[[fid f']|e] c];
    [|done].
  cbv zeta. cbn [snd] in Hc.
  repeat first [case_decide|case_match]; done.
Qed.

(** A step that returns leaves the rows in their places, with their
    columns, and adds at most the record, which has the type of [f]. *)
Lemma merge_line_rows f st st' :
  merge_line self edges out f st = (Ok (), st') →
  ∃ fs new, features (conn st') = fs ++ new
    ∧ Forall2 (λ r r', set_attributes (attributes r) r' = r)
              (features (conn st)) fs
    ∧ Forall (λ r, featuretype r = featuretype f) new.
Proof.
  unfold merge_line.
  destruct (id_handler_pure self f (_autoincrements st)) as [[[fid f']|e] c]
    eqn:Hh; [|done].
  apply id_handler_pure_same_values in Hh as [Hf _].
  cbv zeta. destruct (edges (set_id fid f')) as [es|e]; cycle 1.
  { repeat first [case_decide|case_match]; done. }
  case_decide as Hdup.
  - destruct (sql_select_feature fid (conn st)) as [r|]; [|done].
    destruct (list_find _ column_names); [done|].
    intros [= <-]. eexists _, []. rewrite app_nil_r. simpl.
    rewrite sql_insert_relations_features. split_and!; [done| |done].
    unfold sql_update_attributes. simpl.
    apply Forall2_fmap_r, Forall2_same_length_lookup_2; [done|].
    intros n r1 r2 H1 H2. rewrite H1 in H2. injection H2 as <-.
    unfold compose. case_decide; by destruct r1.
  - intros [= <-]. exists (features (conn st)), [set_id fid f']. simpl.
    rewrite sql_insert_relations_features. split_and!; [done| |].
    + apply Forall2_same_length_lookup_2; [done|].
      intros n r1 r2 H1 H2. rewrite H1 in H2. injection H2 as <-. by destruct r1.
    + apply Forall_singleton. rewrite <-Hf. done.
Qed.

(** Without edges, a step leaves [relations] as it is. *)
Lemma merge_line_relations f st :
  (∀ g, edges g = Ok []) →
  relations (conn (merge_line self edges out f st).2) = relations (conn st).
Proof.
  intros Hedges. unfold merge_line.
  destruct (id_handler_pure self f (_autoincrements st)) as [[[fid f']|e] c];
    [|done].
  cbv zeta. rewrite Hedges.
  repeat first [case_decide|case_match]; done.
Qed.

(** A record of the first run. *)
Lemma merge_line_first f st st' :
  unique_ids st →
  merge_line self edges out f st = (Ok (), st') →
  ∃ fid f',
    id_handler_pure self f (_autoincrements st) = (Ok (fid, f'), _autoincrements st')
    ∧ db_le (conn st) (conn st')
    ∧ settled edges (conn st') (set_id fid f')
    ∧ unique_ids st'.
Proof.
  intros Hnd. unfold merge_line.
  destruct (id_handler_pure self f (_autoincrements st)) as [[[fid f']|e] c];
    [|done].
  cbv zeta. destruct (edges (set_id fid f')) as [es|e] eqn:Hes; cycle 1.
  { repeat first [case_decide|case_match]; done. }
  case_decide as Hdup.
  - destruct (sql_select_feature fid (conn st)) as [r|] eqn:Hsel; [|done].
    destruct (list_find _ column_names) eqn:Hcols; [done|].
    intros [= <-]. exists fid, f'. simpl.
    apply sql_select_feature_Some in Hsel as [Hr Hid].
    apply list_find_None_columns in Hcols.
    set (m := merge_attributes (attributes r) (attributes (set_id fid f'))).
    assert (row_le r (set_attributes m r)) as Hrow.
    { split; [by destruct r|]. intros k x Hx. simpl.
      apply merge_attributes_elem_of. by left. }
    split_and!; [done| | |].
    + split.
      * exists (features (sql_update_attributes m (id r) (conn st))), [].
        rewrite app_nil_r, sql_insert_relations_features. split; [|done].
        by apply sql_update_attributes_Forall2; [apply row_le_refl| | |].
      * intros e He. apply sql_insert_relations_elem_of. by right.
    + split.
      * exists (set_attributes m r). split_and!.
        -- rewrite sql_insert_relations_features.
           by apply sql_update_attributes_elem_of.
        -- done.
        -- eapply Forall_impl; [exact Hcols|]. simpl. intros k Hk.
           by rewrite getattr_set_attributes.
        -- intros k x Hx. simpl. apply merge_attributes_elem_of. right.
           apply attr_get_elem_of in Hx as (v & Hv & Hx).
           exists v. split; [|done]. by apply attr_lookup_elem_of.
      * exists es. split; [done|].
        intros e He. apply sql_insert_relations_elem_of. by left.
    + unfold unique_ids.
      by rewrite conn_with_conn, sql_insert_relations_ids, sql_update_attributes_ids.
  - intros [= <-]. exists fid, f'. simpl. split_and!; [done| | |].
    + split.
      * exists (features (conn st)), [set_id fid f'].
        rewrite sql_insert_relations_features. split; [|done].
        apply Forall2_row_le_refl.
      * intros e He. apply sql_insert_relations_elem_of. by right.
    + split.
      * exists (set_id fid f'). split_and!; [|done| |done].
        -- rewrite sql_insert_relations_features. simpl.
           apply elem_of_app. right. by left.
        -- by apply Forall_forall.
      * exists es. split; [done|].
        intros e He. apply sql_insert_relations_elem_of. by left.
    + unfold unique_ids.
      rewrite conn_with_conn, sql_insert_relations_ids. unfold ids at 1. simpl.
      rewrite fmap_app. apply NoDup_app. split_and!; [done| |apply NoDup_singleton].
      simpl. intros x Hx [->|[]%elem_of_nil]%elem_of_cons. done.
Qed.

(** A record of the second run. *)
Lemma merge_line_again f st :
  unique_ids st → NoDup (attributes f).*1 →
  resolved self edges (_autoincrements st) (conn st) f →
  ∃ st', merge_line self edges out f st = (Ok (), st')
    ∧ _autoincrements st' = _autoincrements st
    ∧ Forall2 row_eqv (features (conn st)) (features (conn st'))
    ∧ relations (conn st') = relations (conn st).
Proof.
  intros Hnd Hkeys
    (fid & f' & Hh & (r & Hr & Hid & Hcols & Hattrs) & es & Hes & Hedges).
  unfold merge_line. rewrite Hh. cbv zeta. rewrite Hes.
  simpl in Hid. subst fid.
  rewrite decide_True by (by apply list_elem_of_fmap_2).
  rewrite (sql_select_feature_unique _ _ Hnd Hr).
  rewrite (columns_list_find_None _ _ Hcols).
  eexists. split; [done|]. simpl.
  set (m := merge_attributes (attributes r) (attributes (set_id (id r) f'))).
  rewrite sql_insert_relations_present; cycle 1.
  { intros e He. simpl. by apply Hedges. }
  split_and!; [done| |done].
  apply sql_update_attributes_Forall2; [apply row_eqv_refl|done|done|].
  split; [by destruct r|]. intros k x. simpl. unfold m.
  rewrite merge_attributes_elem_of. split; [|by left].
  intros [Hx|(v & Hkv & Hx)]; [done|]. apply Hattrs.
  apply attr_get_elem_of. exists v. split; [|done].
  apply attr_lookup_NoDup; [|done]. simpl.
  by eapply id_handler_pure_NoDup.
Qed.

Lemma resolved_mono c db db' f :
  db_le db db' → resolved self edges c db f → resolved self edges c db' f.
Proof.
  intros Hle (fid & f' & Hh & Hset). exists fid, f'.
  split; [done|by eapply settled_mono].
Qed.
End reingest_line.

Lemma Forall2_row_eqv_le fs fs' : Forall2 row_eqv fs fs' → Forall2 row_le fs fs'.
Proof. intros Hf. eapply Forall2_impl; [exact Hf|]. apply row_eqv_le. Qed.

(** *** A loop of such records *)

Section reingest_loop.
Context `{PyRuntime}.
Variable self : Config.
Variable edges : Feature → Result (list Edge).
Context {A : Type}.
(** The body of the loop, the record it ingests, what it writes to [stderr]
    and the state in which it comes to the record. *)
Variable body : A → M unit.
Variable feat : A → Feature.
Variable out : A → list nat → list nat.
Variable start : A → State → State.
Hypothesis Hbody : ∀ x st,
  body x st = merge_line self edges (out x) (feat x) (start x st).
Hypothesis Hstart : ∀ x st,
  conn (start x st) = conn st
  ∧ _autoincrements (start x st) = _autoincrements st.

Lemma counters_monotone_body x st :
  counters_le (_autoincrements st) (_autoincrements (body x st).2).
Proof using Hbody Hstart.
  rewrite Hbody. destruct (Hstart x st) as [_ <-]. apply merge_line_counters.
Qed.

Lemma counters_monotone_loop xs st :
  counters_le (_autoincrements st) (_autoincrements (for_each xs body st).2).
Proof using Hbody Hstart.
  revert st. induction xs as [|x xs IH]; intros st; [done|].
  cbn [for_each]. rewrite bind_unfold.
  pose proof (counters_monotone_body x st) as Hx.
  destruct (body x st) as [[[]|e] st']; [|done].
  etrans; [exact Hx|]. apply IH.
Qed.

Lemma loop_first xs st st' :
  unique_ids st →
  for_each xs body st = (Ok (), st') →
  _autoincrements st' = _autoincrements st →
  unique_ids st' ∧ db_le (conn st) (conn st')
  ∧ ∀ x, x ∈ xs → resolved self edges (_autoincrements st) (conn st') (feat x).
Proof using Hbody Hstart.
  revert st. induction xs as [|x xs IH]; intros st Hnd.
  - intros [= <-] _. split_and!; [done|apply db_le_refl|].
    by intros f ?%elem_of_nil.
  - cbn [for_each]. intros ([] & sta & Hline & Hrest)%bind_Ok_inv Hc.
    pose proof (counters_monotone_body x st) as Hc1.
    pose proof (counters_monotone_loop xs sta) as Hc2.
    rewrite Hline in Hc1. rewrite Hrest in Hc2. simpl in Hc1, Hc2.
    rewrite Hc in Hc2.
    pose proof (counters_le_antisymm _ _ Hc1 Hc2) as Hca.
    rewrite Hbody in Hline. destruct (Hstart x st) as [Hconn Hcs].
    apply merge_line_first in Hline as (fid & f' & Hh & Hle & Hset & Hnd');
      [|unfold unique_ids; by rewrite Hconn].
    rewrite Hcs, <-Hca in Hh. rewrite Hconn in Hle.
    destruct (IH sta Hnd' Hrest) as (Hnd'' & Hle' & Hres); [congruence|].
    split_and!; [done|by eapply db_le_trans|].
    intros y [->|Hy]%elem_of_cons.
    + exists fid, f'. split; [done|]. by eapply settled_mono.
    + rewrite Hca. by apply Hres.
Qed.

Lemma loop_again xs st :
  unique_ids st →
  Forall (λ x, NoDup (attributes (feat x)).*1) xs →
  (∀ x, x ∈ xs → resolved self edges (_autoincrements st) (conn st) (feat x)) →
  ∃ st', for_each xs body st = (Ok (), st')
    ∧ _autoincrements st' = _autoincrements st
    ∧ Forall2 row_eqv (features (conn st)) (features (conn st'))
    ∧ relations (conn st') = relations (conn st).
Proof using Hbody Hstart.
  revert st. induction xs as [|x xs IH]; intros st Hnd Hkeys Hres.
  - exists st. split_and!; [done|done|apply Forall2_row_eqv_refl|done].
  - apply Forall_cons in Hkeys as [Hkey Hkeys].
    destruct (Hstart x st) as [Hconn Hcs].
    destruct (merge_line_again self edges (out x) (feat x) (start x st))
      as (sta & Hline & Hc & Hrows & Hrel);
      [unfold unique_ids; by rewrite Hconn|done| |].
    { rewrite Hconn, Hcs. apply Hres. by left. }
    rewrite Hconn in Hrows, Hrel. rewrite Hcs in Hc.
    assert (db_le (conn st) (conn sta)) as Hle.
    { split; [|by rewrite Hrel]. exists (features (conn sta)), [].
      split; [by apply Forall2_row_eqv_le|by rewrite app_nil_r]. }
    destruct (IH sta) as (st' & Hrest & Hc' & Hrows' & Hrel').
    + unfold unique_ids, ids.
      by rewrite (Forall2_row_le_ids _ _ (Forall2_row_eqv_le _ _ Hrows)).
    + done.
    + intros y Hy. rewrite Hc.
      eapply resolved_mono; [exact Hle|]. apply Hres. by right.
    + exists st'. cbn [for_each].
      rewrite (bind_Ok _ _ _ _ _ (eq_trans (Hbody x st) Hline)).
      split_and!; [done|congruence| |congruence].
      eapply Forall2_trans; [|exact Hrows|exact Hrows']. apply row_eqv_trans.
Qed.

(** The rows that a loop adds have the types of its records. *)
Lemma loop_rows xs st st' :
  for_each xs body st = (Ok (), st') →
  ∃ fs new, features (conn st') = fs ++ new
    ∧ Forall2 (λ r r', set_attributes (attributes r) r' = r)
              (features (conn st)) fs
    ∧ Forall (λ r, ∃ x, x ∈ xs ∧ featuretype r = featuretype (feat x)) new.
Proof using Hbody Hstart.
  revert st. induction xs as [|x xs IH]; intros st.
  - intros [= <-]. exists (features (conn st)), []. rewrite app_nil_r.
    split_and!; [done| |done].
    apply Forall2_same_length_lookup_2; [done|].
    intros n r1 r2 H1 H2. rewrite H1 in H2. injection H2 as <-. by destruct r1.
  - cbn [for_each]. intros ([] & sta & Hline & Hrest)%bind_Ok_inv.
    rewrite Hbody in Hline. destruct (Hstart x st) as [Hconn _].
    apply merge_line_rows in Hline as (fs1 & new1 & Heq1 & Hfs1 & Hnew1).
    rewrite Hconn in Hfs1.
    destruct (IH sta Hrest) as (fs2 & new2 & Heq2 & Hfs2 & Hnew2).
    rewrite Heq1 in Hfs2.
    apply Forall2_app_inv_l in Hfs2 as (gs & gnew & Hgs & Hgnew & ->).
    exists gs, (gnew ++ new2). split_and!.
    + by rewrite Heq2, app_assoc.
    + eapply Forall2_trans; [|exact Hfs1|exact Hgs].
      intros r1 r2 r3 H12 H23. destruct r1, r2, r3.
      unfold set_attributes in *. simpl in *.
      inversion H12; inversion H23; by subst.
    + apply Forall_app. split.
      * apply Forall_forall. intros r Hr.
        apply list_elem_of_lookup in Hr as [n Hn].
        destruct (Forall2_lookup_r _ _ _ _ _ Hgnew Hn) as (r0 & Hn0 & Hr0).
        apply list_elem_of_lookup_2 in Hn0.
        rewrite Forall_forall in Hnew1. exists x. split; [left|].
        rewrite <-(Hnew1 _ Hn0), <-Hr0. done.
      * eapply Forall_impl; [exact Hnew2|]. simpl.
        intros r (y & Hy & Hr). exists y. split; [by right|done].
Qed.

Lemma loop_relations xs st :
  (∀ g, edges g = Ok []) →
  relations (conn (for_each xs body st).2) = relations (conn st).
Proof using Hbody Hstart.
  intros Hedges. revert st. induction xs as [|x xs IH]; intros st; [done|].
  cbn [for_each]. rewrite bind_unfold.
  pose proof (merge_line_relations self edges (out x) (feat x) (start x st) Hedges)
    as Hx.
  rewrite <-Hbody in Hx. destruct (Hstart x st) as [Hconn _].
  rewrite Hconn in Hx.
  destruct (body x st) as [[[]|e] sta]; [|done].
  simpl in Hx. by rewrite IH.
Qed.
End reingest_loop.

(** *** What pass 2 of the GTF driver reads *)

Lemma bind_nil_ext {A B} (g : A → list B) (l : list A) :
  Forall (λ x, g x = []) l → l ≫= g = [].
Proof. induction 1 as [|x l Hx _ IH]; [done|]. by rewrite bind_cons, Hx, IH. Qed.

Lemma bind_ext_elem {A B} (g g' : A → list B) (l : list A) :
  (∀ x, x ∈ l → g x = g' x) → l ≫= g = l ≫= g'.
Proof.
  induction l as [|x l IH]; intros Hg; [done|].
  rewrite !bind_cons, (Hg x) by left. f_equal. apply IH.
  intros y Hy. apply Hg. by right.
Qed.

Lemma Forall2_bind_eq {A B} (R : A → A → Prop) (g g' : A → list B) l l' :
  Forall2 R l l' → (∀ x y, R x y → g x = g' y) → l ≫= g = l' ≫= g'.
Proof.
  intros Hl Hg. induction Hl as [|x y l l' Hxy _ IH]; [done|].
  by rewrite !bind_cons, (Hg _ _ Hxy), IH.
Qed.

Lemma Forall2_fmap_eq {A B} (R : A → A → Prop) (g : A → B) l l' :
  Forall2 R l l' → (∀ x y, R x y → g x = g y) → g <$> l = g <$> l'.
Proof.
  intros Hl Hg. induction Hl as [|x y l l' Hxy _ IH]; [done|].
  by rewrite !fmap_cons, (Hg _ _ Hxy), IH.
Qed.

Section same_subfeatures.
Context `{PyRuntime, BinsModule}.
Variable self : Config.

Lemma same_subfeatures_refl db : same_subfeatures self db db.
Proof.
  split; [done|]. exists (features db), []. rewrite app_nil_r.
  split_and!; [done| |done].
  apply Forall2_same_length_lookup_2; [done|].
  intros n r1 r2 H1 H2. rewrite H1 in H2. injection H2 as <-. by destruct r1.
Qed.

(** Rows whose attributes only have changed are read the same. *)
Lemma same_subfeatures_row_eqv db db1 db2 :
  same_subfeatures self db db1 →
  Forall2 row_eqv (features db1) (features db2) →
  relations db2 = relations db1 →
  same_subfeatures self db db2.
Proof.
  intros [Hrel (fs & new & Heq & Hfs & Hnew)] Hrows Hrel2.
  split; [congruence|].
  rewrite Heq in Hrows.
  apply Forall2_app_inv_l in Hrows as (fs' & new' & Hfs' & Hnew' & ->).
  exists fs', new'. split_and!; [done| |].
  - eapply Forall2_trans; [|exact Hfs|exact Hfs'].
    intros r1 r2 r3 H12 [H23 _]. destruct r1, r2, r3.
    unfold set_attributes in *. simpl in *.
    inversion H12; inversion H23; by subst.
  - apply Forall_forall. intros r Hr.
    apply list_elem_of_lookup in Hr as [n Hn].
    destruct (Forall2_lookup_r _ _ _ _ _ Hnew' Hn) as (r0 & Hn0 & [Hr0 _]).
    apply list_elem_of_lookup_2 in Hn0.
    rewrite Forall_forall in Hnew.
    assert (featuretype r = featuretype r0) as -> by (by rewrite <-Hr0).
    by apply Hnew.
Qed.

Section queries.
Variables db db' : DB.
Hypothesis Hsame : same_subfeatures self db db'.

Lemma select_firstlevel_same : select_firstlevel self db' = select_firstlevel self db.
Proof using Hsame.
  destruct Hsame as [Hrel (fs & new & Heq & Hfs & Hnew)].
  unfold select_firstlevel. rewrite Hrel, Heq. f_equal.
  apply bind_ext_elem. intros e _. rewrite bind_app.
  rewrite (bind_nil_ext _ new), app_nil_r; cycle 1.
  { eapply Forall_impl; [exact Hnew|]. simpl. intros r Hr.
    rewrite bool_decide_eq_false_2; [done|]. by intros (_ & ? & _). }
  symmetry. eapply Forall2_bind_eq; [exact Hfs|].
  intros r r' <-. done.
Qed.

Lemma select_transcript_gene_same :
  select_transcript_gene self db' = select_transcript_gene self db.
Proof using Hsame.
  unfold select_transcript_gene. rewrite select_firstlevel_same.
  by destruct Hsame as [-> _].
Qed.

Lemma select_subfeatures_same p :
  Forall2 (λ r r', set_attributes (attributes r) r' = r)
          (select_subfeatures self db p) (select_subfeatures self db' p).
Proof using Hsame.
  destruct Hsame as [Hrel (fs & new & Heq & Hfs & Hnew)].
  unfold select_subfeatures. rewrite Hrel, Heq, bind_app.
  rewrite (bind_nil_ext _ new), app_nil_r; cycle 1.
  { eapply Forall_impl; [exact Hnew|]. simpl. intros r Hr.
    apply bind_nil_ext, Forall_forall. intros e _.
    rewrite bool_decide_eq_false_2; [done|]. by intros (_ & _ & ?). }
  apply Forall2_bind. eapply Forall2_impl; [exact Hfs|].
  simpl. intros r r' Hr. clear -Hr.
  induction (relations db) as [|e es IH]; [constructor|].
  rewrite !bind_cons. apply Forall2_app; [|exact IH].
  assert (id r' = id r ∧ featuretype r' = featuretype r) as [-> ->]
    by (by rewrite <-Hr).
  case_bool_decide; by repeat constructor.
Qed.

Lemma select_extent_same p : select_extent self db' p = select_extent self db p.
Proof using Hsame.
  unfold select_extent. cbv zeta.
  pose proof (select_subfeatures_same p) as Hrows.
  symmetry.
  rewrite (Forall2_fmap_eq _ start _ _ Hrows) by (by intros r r' <-).
  rewrite (Forall2_fmap_eq _ end_ _ _ Hrows) by (by intros r r' <-).
  by rewrite (Forall2_fmap_eq _ (λ r, (start r, end_ r, strand r, seqid r))
                _ _ Hrows) by (by intros r r' <-).
Qed.

Lemma derive_features_same last rows :
  derive_features self db' last rows = derive_features self db last rows.
Proof using Hsame.
  revert last. induction rows as [|[t g] rows IH]; intros last; [done|].
  cbn [derive_features]. by rewrite !select_extent_same, IH.
Qed.
End queries.

Lemma derived_feature_type extent ftype attrs :
  featuretype (derived_feature extent ftype attrs) = ftype.
Proof. by destruct extent as [[[? ?] ?] ?]. Qed.

Lemma derived_feature_attributes extent ftype attrs :
  attributes (derived_feature extent ftype attrs) = attrs.
Proof. by destruct extent as [[[? ?] ?] ?]. Qed.

Lemma derive_features_types db last rows d :
  d ∈ derive_features self db last rows →
  featuretype d = "transcript" ∨ featuretype d = "gene".
Proof.
  revert last. induction rows as [|[t g] rows IH]; intros last;
    [by intros ?%elem_of_nil|].
  cbn [derive_features]. rewrite elem_of_cons, elem_of_app.
  intros [->|[Hd|Hd]].
  - left. apply derived_feature_type.
  - case_bool_decide; [|by apply elem_of_nil in Hd].
    apply list_elem_of_singleton in Hd as ->. right.
    apply derived_feature_type.
  - by eapply IH.
Qed.

Lemma derive_features_keys db last rows d :
  d ∈ derive_features self db last rows → NoDup (attributes d).*1.
Proof.
  revert last. induction rows as [|[t g] rows IH]; intros last;
    [by intros ?%elem_of_nil|].
  cbn [derive_features]. rewrite elem_of_cons, elem_of_app.
  intros [->|[Hd|Hd]].
  - rewrite derived_feature_attributes. simpl.
    case_decide; simpl.
    + apply NoDup_singleton.
    + apply NoDup_cons. split; [|apply NoDup_singleton].
      rewrite list_elem_of_singleton. congruence.
  - case_bool_decide; [|by apply elem_of_nil in Hd].
    apply list_elem_of_singleton in Hd as ->.
    rewrite derived_feature_attributes. apply NoDup_singleton.
  - by eapply IH.
Qed.
End same_subfeatures.

Lemma closure_edges_level db : Forall (λ e, level e ≠ 1) (closure_edges db).
Proof.
  unfold closure_edges. apply Forall_fmap, Forall_forall. by intros l _.
Qed.

Lemma snd_imap_pair {A} (l : list A) : (imap pair l).*2 = l.
Proof.
  rewrite fmap_imap. rewrite (imap_ext _ (const (λ x, x))) by done.
  by rewrite imap_const, list_fmap_id.
Qed.

Lemma elem_of_imap_pair {A} (l : list A) (x : A) :
  x ∈ l → ∃ i, (i, x) ∈ imap pair l.
Proof.
  intros Hx. rewrite <-(snd_imap_pair l) in Hx.
  apply list_elem_of_fmap in Hx as ([i y] & -> & Hy). by exists i.
Qed.

(** *** The two runs *)

Section reingest.
Context `{PyRuntime, BinsModule}.
Variable self : Config.
Hypothesis Hmerge : merge_strategy self = MSMerge.

Local Abbreviation gff_edges := (λ g : Feature, Ok (parent_edges g)).
Local Abbreviation no_edges := (λ _ : Feature, @Ok (list Edge) []).
Local Abbreviation derived db :=
  (derive_features self db None (select_transcript_gene self db)).

Lemma gff_body x st :
  loop_body (gff_populate_line self) x st =
    merge_line self gff_edges (progress_out self x.1) x.2 (line_start x st).
Proof using Hmerge.
  destruct x as [i f]. unfold loop_body. erewrite bind_Ok by done.
  by apply gff_populate_line_merge.
Qed.

Lemma gtf_body x st :
  loop_body (gtf_populate_line self) x st =
    merge_line self (gtf_edges self) (progress_out self x.1) x.2 (line_start x st).
Proof using Hmerge.
  destruct x as [i f]. unfold loop_body. erewrite bind_Ok by done.
  by apply gtf_populate_line_merge.
Qed.

Lemma line_start_frame (x : nat * Feature) st :
  conn (line_start x st) = conn st
  ∧ _autoincrements (line_start x st) = _autoincrements st.
Proof. done. Qed.

Lemma derived_body (d : Feature) st :
  insert_derived self d st = merge_line self no_edges (λ out, out) d st.
Proof using Hmerge. by apply insert_derived_merge. Qed.

Lemma derived_frame (d : Feature) (st : State) :
  conn st = conn st ∧ _autoincrements st = _autoincrements st.
Proof. done. Qed.

(** Pass 1 of the first run, of either driver. *)
Lemma populate_first edges (line : nat → Feature → M unit) (tail : M unit)
    lines st stp :
  (∀ x s, loop_body line x s =
            merge_line self edges (progress_out self x.1) x.2 (line_start x s)) →
  (∀ s s', tail s = (Ok (), s') →
     conn s' = conn s ∧ _autoincrements s' = _autoincrements s) →
  unique_ids st →
  (enumerate_lines lines line;; tail) st = (Ok (), stp) →
  _autoincrements stp = _autoincrements st →
  unique_ids stp
  ∧ ∀ f, f ∈ lines → resolved self edges (_autoincrements st) (conn stp) f.
Proof.
  intros Hbody Htail Hnd ([] & stl & Hloop & Ht)%bind_Ok_inv Hc.
  destruct (Htail _ _ Ht) as [Hconn Hcl].
  destruct (loop_first self edges _ snd (λ x, progress_out self x.1) line_start
              Hbody line_start_frame _ _ _ Hnd Hloop) as (Hnd' & _ & Hres);
    [congruence|].
  split; [unfold unique_ids; by rewrite Hconn|].
  intros f [i Hf]%elem_of_imap_pair. rewrite Hconn. exact (Hres _ Hf).
Qed.

(** Pass 1 of the second run. *)
Lemma populate_again edges (line : nat → Feature → M unit) (tail : M unit)
    lines st :
  (∀ x s, loop_body line x s =
            merge_line self edges (progress_out self x.1) x.2 (line_start x s)) →
  (∀ s, ∃ s', tail s = (Ok (), s')
     ∧ conn s' = conn s ∧ _autoincrements s' = _autoincrements s) →
  unique_ids st →
  Forall (λ f, NoDup (attributes f).*1) lines →
  (∀ f, f ∈ lines → resolved self edges (_autoincrements st) (conn st) f) →
  ∃ st', (enumerate_lines lines line;; tail) st = (Ok (), st')
    ∧ _autoincrements st' = _autoincrements st
    ∧ Forall2 row_eqv (features (conn st)) (features (conn st'))
    ∧ relations (conn st') = relations (conn st).
Proof.
  intros Hbody Htail Hnd Hkeys Hres.
  destruct (loop_again self edges _ snd (λ x, progress_out self x.1) line_start
              Hbody line_start_frame (imap pair lines) st)
    as (stl & Hloop & Hc & Hrows & Hrel); [done| | |].
  { apply Forall_forall. intros [i f] Hf. rewrite Forall_forall in Hkeys.
    apply Hkeys. rewrite <-(snd_imap_pair lines).
    by apply (list_elem_of_fmap_2 snd _ (i, f)). }
  { intros [i f] Hf. apply Hres. rewrite <-(snd_imap_pair lines).
    by apply (list_elem_of_fmap_2 snd _ (i, f)). }
  destruct (Htail stl) as (st' & Ht & Hconn & Hct).
  exists st'. split.
  { unfold enumerate_lines. erewrite bind_Ok by exact Hloop. exact Ht. }
  rewrite Hconn. split_and!; [congruence|done|done].
Qed.

Lemma gff_tail s s' :
  (if verbose self then write_progress 0 else mret ()) s = (Ok (), s') →
  conn s' = conn s ∧ _autoincrements s' = _autoincrements s.
Proof. destruct (verbose self); by intros [= <-]. Qed.

Lemma gff_tail_Ok s :
  ∃ s', (if verbose self then write_progress 0 else mret ()) s = (Ok (), s')
    ∧ conn s' = conn s ∧ _autoincrements s' = _autoincrements s.
Proof. destruct (verbose self); by eexists. Qed.

Lemma gtf_tail (lines : list Feature) s s' :
  (if verbose self then
     match lines with
     | [] => raise (UnboundLocalError "i")
     | _ :: _ => write_progress (length lines - 1)
     end
   else mret ()) s = (Ok (), s') →
  (conn s' = conn s ∧ _autoincrements s' = _autoincrements s)
  ∧ (verbose self = true → lines ≠ []).
Proof.
  destruct (verbose self); [|by intros [= <-]].
  destruct lines; [done|]. by intros [= <-].
Qed.

Lemma gtf_tail_Ok (lines : list Feature) s :
  (verbose self = true → lines ≠ []) →
  ∃ s', (if verbose self then
           match lines with
           | [] => raise (UnboundLocalError "i")
           | _ :: _ => write_progress (length lines - 1)
           end
         else mret ()) s = (Ok (), s')
    ∧ conn s' = conn s ∧ _autoincrements s' = _autoincrements s.
Proof.
  intros Hv. destruct (verbose self); [|by eexists].
  destruct lines; [by destruct Hv|]. by eexists.
Qed.

(** What the second run needs of the store that the first run left. *)
Lemma resolved_tables edges c db db' f :
  features db' = features db → relations db' = relations db →
  resolved self edges c db f → resolved self edges c db' f.
Proof.
  intros Hf Hr. apply resolved_mono. split.
  - exists (features db), []. rewrite Hf, app_nil_r.
    split; [apply Forall2_row_le_refl|done].
  - intros e. by rewrite Hr.
Qed.

Lemma same_subfeatures_tables dbp db db' :
  features db' = features db → relations db' = relations db →
  same_subfeatures self dbp db → same_subfeatures self dbp db'.
Proof. unfold same_subfeatures. by intros -> ->. Qed.

(** **** The GFF driver *)

Lemma gff_update_first lines st0 stu :
  unique_ids st0 →
  @update _GFFDBCreator self lines st0 = (Ok (), stu) →
  _autoincrements stu = _autoincrements st0 →
  unique_ids stu
  ∧ ∀ f, f ∈ lines →
      resolved self gff_edges (_autoincrements stu) (conn stu) f.
Proof using Hmerge.
  intros Hnd ([] & stp & Hpop & Hclo)%bind_Ok_inv Hc.
  destruct (gff_update_relations_grows stp) as (db' & Hst & Hf & Hr & _).
  change (@_update_relations _GFFDBCreator self) with gff_update_relations in Hclo.
  rewrite Hclo in Hst. simpl in Hst. subst stu. simpl in Hc.
  destruct (populate_first gff_edges (gff_populate_line self) _ lines st0 stp
              gff_body gff_tail Hnd Hpop Hc) as [Hndp Hres].
  split.
  - unfold unique_ids, ids. simpl. by rewrite Hf.
  - intros f Hf'. simpl. rewrite Hc.
    eapply resolved_mono; [|by apply Hres].
    split; [|done]. exists (features (conn stp)), [].
    rewrite Hf, app_nil_r. split; [apply Forall2_row_le_refl|done].
Qed.

Lemma gff_update_again lines st1 :
  unique_ids st1 →
  Forall (λ f, NoDup (attributes f).*1) lines →
  (∀ f, f ∈ lines →
     resolved self gff_edges (_autoincrements st1) (conn st1) f) →
  Forall plain_edge (relations (conn st1)) →
  ∃ st2, @update _GFFDBCreator self lines st1 = (Ok (), st2)
    ∧ Forall2 row_eqv (features (conn st1)) (features (conn st2))
    ∧ filter (λ e, level e = 1) (relations (conn st2))
      = filter (λ e, level e = 1) (relations (conn st1))
    ∧ ∀ e, e ∈ relations (conn st1) → e ∈ relations (conn st2).
Proof using Hmerge.
  intros Hnd Hkeys Hres Hplain.
  destruct (populate_again gff_edges (gff_populate_line self) _ lines st1
              gff_body gff_tail_Ok Hnd Hkeys Hres)
    as (stp & Hpop & Hc & Hrows & Hrel).
  eexists. split.
  { unfold update. erewrite bind_Ok by exact Hpop.
    apply gff_update_relations_plain. by rewrite Hrel. }
  rewrite conn_with_conn, sql_insert_relations_features.
  split_and!; [done| |].
  - rewrite sql_insert_relations_filter_level by apply closure_edges_level.
    by rewrite Hrel.
  - intros e He. apply sql_insert_relations_elem_of. right. by rewrite Hrel.
Qed.

(** **** The GTF driver *)

Lemma gtf_update_relations_loop st :
  gtf_update_relations self st
  = for_each (derived (conn st)) (insert_derived self) st.
Proof. done. Qed.

Lemma gtf_update_first lines st0 stu :
  subfeature self ≠ "transcript" → subfeature self ≠ "gene" →
  unique_ids st0 →
  @update _GTFDBCreator self lines st0 = (Ok (), stu) →
  _autoincrements stu = _autoincrements st0 →
  unique_ids stu
  ∧ (verbose self = true → lines ≠ [])
  ∧ (∀ f, f ∈ lines →
       resolved self (gtf_edges self) (_autoincrements stu) (conn stu) f)
  ∧ ∃ dbp, same_subfeatures self dbp (conn stu)
      ∧ ∀ d, d ∈ derived dbp →
          resolved self no_edges (_autoincrements stu) (conn stu) d.
Proof using Hmerge.
  intros Ht Hg Hnd ([] & stp & Hpop & Hpass2)%bind_Ok_inv Hc.
  change (@_update_relations _GTFDBCreator self)
    with (gtf_update_relations self) in Hpass2.
  rewrite gtf_update_relations_loop in Hpass2.
  assert (_autoincrements stp = _autoincrements st0) as Hcp.
  { symmetry. apply counters_le_antisymm.
    - pose proof (counters_monotone (gtf_populate_from_lines self lines) st0) as Hm.
      change (@_populate_from_lines _GTFDBCreator self lines)
        with (gtf_populate_from_lines self lines) in Hpop.
      rewrite Hpop in Hm. apply Hm. intros c. apply preserves_gtf_populate, _.
    - pose proof (counters_monotone_loop self no_edges (insert_derived self)
                    (λ d, d) (λ _ out, out) (λ _ s, s) derived_body derived_frame
                    (derived (conn stp)) stp) as Hm.
      rewrite Hpass2 in Hm. simpl in Hm. by rewrite <-Hc. }
  assert (∃ s, (enumerate_lines lines (gtf_populate_line self)) st0 = (Ok (), s)
               ∧ (verbose self = true → lines ≠ [])) as (s & _ & Hv).
  { apply bind_Ok_inv in Hpop as ([] & s & Hloop & Htail).
    exists s. split; [done|]. by apply gtf_tail in Htail as [_ ?]. }
  destruct (populate_first (gtf_edges self) (gtf_populate_line self) _ lines st0 stp
              gtf_body (λ s s' Hs, proj1 (gtf_tail lines s s' Hs)) Hnd Hpop Hcp)
    as [Hndp Hres].
  destruct (loop_first self no_edges (insert_derived self) (λ d, d)
              (λ _ out, out) (λ _ s, s) derived_body derived_frame
              _ _ _ Hndp Hpass2) as (Hndu & Hle & Hresd); [congruence|].
  split_and!; [done|done| |].
  - intros f Hf. rewrite Hc. eapply resolved_mono; [exact Hle|by apply Hres].
  - exists (conn stp). split.
    + split.
      * pose proof (loop_relations self no_edges (insert_derived self) (λ d, d)
                      (λ _ out, out) (λ _ s, s) derived_body derived_frame
                      (derived (conn stp)) stp (λ _, eq_refl)) as Hr.
        by rewrite Hpass2 in Hr.
      * destruct (loop_rows self no_edges (insert_derived self) (λ d, d)
                    (λ _ out, out) (λ _ s, s) derived_body derived_frame
                    _ _ _ Hpass2) as (fs & new & Heq & Hfs & Hnew).
        exists fs, new. split_and!; [done|done|].
        eapply Forall_impl; [exact Hnew|]. simpl.
        intros r (d & Hd & ->).
        by destruct (derive_features_types self _ _ _ _ Hd) as [-> | ->].
    + intros d Hd. rewrite Hc, <-Hcp. by apply Hresd.
Qed.

Lemma gtf_update_again lines st1 dbp :
  unique_ids st1 →
  Forall (λ f, NoDup (attributes f).*1) lines →
  (verbose self = true → lines ≠ []) →
  (∀ f, f ∈ lines →
     resolved self (gtf_edges self) (_autoincrements st1) (conn st1) f) →
  same_subfeatures self dbp (conn st1) →
  (∀ d, d ∈ derived dbp →
     resolved self no_edges (_autoincrements st1) (conn st1) d) →
  ∃ st2, @update _GTFDBCreator self lines st1 = (Ok (), st2)
    ∧ Forall2 row_eqv (features (conn st1)) (features (conn st2))
    ∧ relations (conn st2) = relations (conn st1).
Proof using Hmerge.
  intros Hnd Hkeys Hv Hres Hsame Hresd.
  destruct (populate_again (gtf_edges self) (gtf_populate_line self) _ lines st1
              gtf_body (λ s, gtf_tail_Ok lines s Hv) Hnd Hkeys Hres)
    as (stp & Hpop & Hc & Hrows & Hrel).
  pose proof (same_subfeatures_row_eqv self _ _ _ Hsame Hrows Hrel) as Hsame2.
  assert (derived (conn stp) = derived dbp) as Hd.
  { rewrite (select_transcript_gene_same self _ _ Hsame2).
    apply (derive_features_same self _ _ Hsame2). }
  assert (db_le (conn st1) (conn stp)) as Hle.
  { split; [|by rewrite Hrel]. exists (features (conn stp)), [].
    split; [by apply Forall2_row_eqv_le|by rewrite app_nil_r]. }
  destruct (loop_again self no_edges (insert_derived self) (λ d, d)
              (λ _ out, out) (λ _ s, s) derived_body derived_frame
              (derived dbp) stp) as (st2 & Hpass2 & _ & Hrows2 & Hrel2).
  { unfold unique_ids, ids.
    by rewrite (Forall2_row_le_ids _ _ (Forall2_row_eqv_le _ _ Hrows)). }
  { apply Forall_forall. intros d. apply derive_features_keys. }
  { intros d Hin. rewrite Hc. eapply resolved_mono; [exact Hle|by apply Hresd]. }
  exists st2. split_and!.
  - unfold update. erewrite bind_Ok by exact Hpop. cbv beta.
    change (@_update_relations _GTFDBCreator self)
      with (gtf_update_relations self).
    by rewrite gtf_update_relations_loop, Hd.
  - eapply Forall2_trans; [|exact Hrows|exact Hrows2]. apply row_eqv_trans.
  - congruence.
Qed.

(** **** The first run, an update or a creation *)

Lemma first_run `{DBCreator} lines st0 st1 :
  unique_ids st0 ∧ update self lines st0 = (Ok (), st1)
  ∨ create self lines st0 = (Ok (), st1) →
  _autoincrements st1 = _autoincrements st0 →
  ∃ sti stu,
    unique_ids sti ∧ update self lines sti = (Ok (), stu)
    ∧ _autoincrements stu = _autoincrements sti
    ∧ _autoincrements st1 = _autoincrements stu
    ∧ features (conn st1) = features (conn stu)
    ∧ relations (conn st1) = relations (conn stu).
Proof.
  intros [[Hnd Hup]|Hcr] Hc.
  - by exists st0, st1.
  - unfold create in Hcr.
    apply bind_Ok_inv in Hcr as ([] & sti & Hinit & Hcr).
    apply bind_Ok_inv in Hcr as ([] & stp & Hpop & Hcr).
    apply bind_Ok_inv in Hcr as ([] & stu & Hrel & Hfin).
    injection Hinit as <-. injection Hfin as <-. simpl in Hc.
    eexists _, stu. split_and!; [|by (unfold update; erewrite bind_Ok by exact Hpop)
                                 |done..].
    apply NoDup_nil_2.
Qed.
End reingest.


(** ** The canonical order of the writer *)

Module gffwriter_facts.
Import gffwriter gffwriter_order.

Lemma W_bind_Ok {A B} (m : W A) (k : A → W B) out a out' :
  m out = (Ok a, out') → (m ≫= k) out = k a out'.
Proof. intros Hm. unfold mbind, W_bind. by rewrite Hm. Qed.

(** A loop whose body appends [g x] appends them all, in order. *)
Lemma for_rec_append {A} (xs : list A) (body : A → W unit)
    (g : A → list Feature) out :
  (∀ x out', x ∈ xs → body x out' = (Ok (), out' ++ g x)) →
  for_rec xs body out = (Ok (), out ++ (xs ≫= g)).
Proof.
  revert out. induction xs as [|x xs IH]; intros out Hbody; simpl.
  - by rewrite app_nil_r.
  - erewrite W_bind_Ok by (apply Hbody; left). cbv beta.
    rewrite IH by (intros y out' Hy; apply Hbody; by right).
    by rewrite <-app_assoc.
Qed.

Lemma bind_singleton {A} (l : list A) : l ≫= (λ x, [x]) = l.
Proof. induction l as [|x l IH]; [done|]. by rewrite bind_cons, IH. Qed.

Section dict.
Context {V : Type}.
Implicit Types d : list (string * V).

Lemma elem_of_dict_set k v d kv :
  kv ∈ dict_set k v d → kv = (k, v) ∨ kv ∈ d.
Proof.
  induction d as [|[k' v'] d IH]; simpl.
  - intros ->%list_elem_of_singleton. by left.
  - case_decide.
    + intros [->|?]%elem_of_cons; [by left|]. right. by right.
    + intros [->|[->|?]%IH]%elem_of_cons; [right; left|by left|].
      right. by right.
Qed.

Lemma dict_set_keys k v d k' :
  k' ∈ (dict_set k v d).*1 ↔ k' = k ∨ k' ∈ d.*1.
Proof.
  induction d as [|[k'' v'] d IH]; simpl.
  - rewrite list_elem_of_singleton, elem_of_nil. tauto.
  - case_decide; simpl; rewrite !elem_of_cons; [subst; tauto|].
    rewrite IH. tauto.
Qed.

Lemma dict_set_NoDup k v d : NoDup d.*1 → NoDup (dict_set k v d).*1.
Proof.
  induction d as [|[k' v'] d IH]; simpl.
  - intros _. apply NoDup_singleton.
  - intros [Hk' Hd]%NoDup_cons. case_decide; simpl.
    + subst. by apply NoDup_cons.
    + apply NoDup_cons. split; [|by apply IH].
      rewrite dict_set_keys. intros [?|?]; [congruence|done].
Qed.

Context {A : Type} (P : A → Prop) `{∀ x, Decision (P x)}
        (key : A → string) (val : A → V).
Local Abbreviation fill := (gffwriter_order.fill P key val).

Lemma fill_snoc xs x :
  fill (xs ++ [x]) =
    if decide (P x) then dict_set (key x) (val x) (fill xs) else fill xs.
Proof. unfold gffwriter_order.fill. by rewrite foldl_snoc. Qed.

Lemma fill_NoDup xs : NoDup (fill xs).*1.
Proof.
  induction xs as [|x xs IH] using rev_ind; [constructor|].
  rewrite fill_snoc. case_decide; [by apply dict_set_NoDup|done].
Qed.

Lemma fill_elem_of xs kv :
  kv ∈ fill xs → ∃ x, x ∈ xs ∧ P x ∧ key x = kv.1 ∧ val x = kv.2.
Proof.
  induction xs as [|x xs IH] using rev_ind; [by intros ?%elem_of_nil|].
  rewrite fill_snoc. case_decide as HP.
  - intros [->|Hkv]%elem_of_dict_set.
    + exists x. split_and!; [|done..]. apply elem_of_app. right. left.
    + destruct (IH Hkv) as (y & Hy & ?). exists y. split; [|done].
      apply elem_of_app. by left.
  - intros Hkv. destruct (IH Hkv) as (y & Hy & ?). exists y. split; [|done].
    apply elem_of_app. by left.
Qed.

Lemma fill_keys xs x : x ∈ xs → P x → key x ∈ (fill xs).*1.
Proof.
  induction xs as [|y xs IH] using rev_ind; [by intros ?%elem_of_nil|].
  rewrite fill_snoc. intros [Hx|Hx%list_elem_of_singleton]%elem_of_app HP.
  - case_decide; [|by apply IH]. apply dict_set_keys. right. by apply IH.
  - subst y. rewrite decide_True by done. apply dict_set_keys. by left.
Qed.
End dict.

Lemma sorted_insert_Permutation {A} (R : relation A) `{!RelDecision R} x l :
  sorted_insert R x l ≡ₚ x :: l.
Proof.
  induction l as [|y l IH]; simpl; [done|].
  case_decide; [done|]. by rewrite IH, Permutation_swap.
Qed.

Lemma sorted_Permutation {A} (R : relation A) `{!RelDecision R} l :
  sorted R l ≡ₚ l.
Proof.
  unfold sorted. induction l as [|x l IH]; simpl; [done|].
  by rewrite sorted_insert_Permutation, IH.
Qed.

Lemma Sorted_sorted_insert {A} (R : relation A) `{!RelDecision R, !Total R} x l :
  Sorted R l → Sorted R (sorted_insert R x l).
Proof.
  induction 1 as [|y l Hl IH Hy]; simpl.
  - by repeat constructor.
  - case_decide as Hxy.
    + by repeat constructor.
    + constructor; [done|].
      destruct l as [|z l]; simpl.
      * constructor. by destruct (total R x y).
      * case_decide; constructor; [by destruct (total R x y)|].
        by apply HdRel_inv in Hy.
Qed.

(** What [sorted] gives is in order. *)
Lemma Sorted_sorted {A} (R : relation A) `{!RelDecision R, !Total R} l :
  Sorted R (sorted R l).
Proof.
  unfold sorted. induction l as [|x l IH]; simpl; [constructor|].
  by apply Sorted_sorted_insert.
Qed.

Global Instance by_len_desc_total : Total by_len_desc.
Proof. intros x y. unfold by_len_desc. lia. Qed.

Global Instance by_start_total : Total by_start.
Proof.
  intros [? [a|]] [? [b|]]; unfold by_start; simpl; try tauto. lia.
Qed.

Section writer.
Context `{PyRuntime}.
Variable len : Feature → Z.
Variable db : FeatureDB.

Lemma exon_starts_fill mRNA_id :
  exon_starts db mRNA_id =
    fill (λ c, featuretype c = "exon") id start (children db mRNA_id None None).
Proof. done. Qed.

Lemma mRNA_lens_fill gene_id :
  mRNA_lens len db gene_id =
    fill (λ _, True) id (λ m, exons_length len db (id m))
         (children db gene_id None (Some "mRNA")).
Proof.
  unfold mRNA_lens, fill. generalize (@nil (string * Z)).
  induction (children db gene_id None (Some "mRNA")) as [|m ms IH];
    intros d; simpl; [done|].
  apply IH.
Qed.

Lemma sorted_exons_Permutation mRNA_id :
  sorted_exons db mRNA_id ≡ₚ exon_starts db mRNA_id.
Proof.
  unfold sorted_exons. by rewrite sorted_Permutation, dict_iter_Permutation.
Qed.

Lemma sorted_mRNAs_Permutation gene_id :
  sorted_mRNAs len db gene_id ≡ₚ mRNA_lens len db gene_id.
Proof.
  unfold sorted_mRNAs. by rewrite sorted_Permutation, dict_iter_Permutation.
Qed.

(** The exons of an mRNA as they are written: each child of type exon
    once, by ascending start. *)
Lemma sorted_exons_spec mRNA_id :
  Sorted by_start (sorted_exons db mRNA_id)
  ∧ NoDup (sorted_exons db mRNA_id).*1
  ∧ (∀ e, e ∈ sorted_exons db mRNA_id →
       ∃ c, c ∈ children db mRNA_id None None
            ∧ featuretype c = "exon" ∧ id c = e.1 ∧ start c = e.2)
  ∧ (∀ c, c ∈ children db mRNA_id None None → featuretype c = "exon" →
       id c ∈ (sorted_exons db mRNA_id).*1).
Proof.
  split_and!.
  - apply Sorted_sorted; apply _.
  - rewrite sorted_exons_Permutation, exon_starts_fill. apply fill_NoDup.
  - intros e. rewrite sorted_exons_Permutation, exon_starts_fill.
    apply fill_elem_of.
  - intros c Hc Hexon. rewrite sorted_exons_Permutation, exon_starts_fill.
    by apply (fill_keys (λ c, featuretype c = "exon")).
Qed.

(** The mRNAs of a gene as they are written: each child of type mRNA once,
    with the summed length of its exons, longest first. *)
Lemma sorted_mRNAs_spec gene_id :
  Sorted by_len_desc (sorted_mRNAs len db gene_id)
  ∧ NoDup (sorted_mRNAs len db gene_id).*1
  ∧ (∀ m, m ∈ sorted_mRNAs len db gene_id →
       m.2 = exons_length len db m.1
       ∧ ∃ c, c ∈ children db gene_id None (Some "mRNA") ∧ id c = m.1)
  ∧ (∀ c, c ∈ children db gene_id None (Some "mRNA") →
       id c ∈ (sorted_mRNAs len db gene_id).*1).
Proof.
  split_and!.
  - apply Sorted_sorted; apply _.
  - rewrite sorted_mRNAs_Permutation, mRNA_lens_fill. apply fill_NoDup.
  - intros m. rewrite sorted_mRNAs_Permutation, mRNA_lens_fill.
    intros (c & Hc & _ & Hid & Hval)%fill_elem_of. split.
    + by rewrite <-Hval, Hid.
    + by exists c.
  - intros c Hc. rewrite sorted_mRNAs_Permutation, mRNA_lens_fill.
    by apply (fill_keys (λ _, True)).
Qed.

Variable rec : string → Feature.
Local Abbreviation mRNA_block := (gffwriter_order.mRNA_block db rec).

Lemma write_recs_append recs out :
  write_recs recs out = (Ok (), out ++ recs).
Proof.
  unfold write_recs. rewrite (for_rec_append _ _ (λ r, [r])); [|done].
  by rewrite bind_singleton.
Qed.

Lemma db_getitem_Some i out :
  getitem db i = Some (rec i) → db_getitem db i out = (Ok (rec i), out).
Proof. intros Hi. unfold db_getitem. by rewrite Hi. Qed.

Lemma write_mRNA_children_append mRNA_id out :
  (∀ c, c ∈ children db mRNA_id None None → featuretype c = "exon" →
     getitem db (id c) = Some (rec (id c))) →
  write_mRNA_children db mRNA_id out = (Ok (), out ++ mRNA_block mRNA_id).
Proof.
  intros Hget. unfold write_mRNA_children, mRNA_block.
  erewrite W_bind_Ok; cycle 1.
  { apply (for_rec_append _ _ (λ e, rec e.1 :: children db e.1 None None)).
    intros e out' He.
    destruct (sorted_exons_spec mRNA_id) as (_ & _ & Hin & _).
    destruct (Hin e He) as (c & Hc & Hexon & Hid & _).
    erewrite W_bind_Ok by (apply db_getitem_Some; rewrite <-Hid; by apply Hget).
    cbv beta. erewrite W_bind_Ok by done. cbv beta.
    unfold write_exon_children.
    rewrite (for_rec_append _ _ (λ r, [r])) by done.
    by rewrite bind_singleton, <-app_assoc. }
  cbv beta. rewrite write_recs_append. by rewrite app_assoc.
Qed.

End writer.
End gffwriter_facts.

(** ** Instances of the theorems *)



(** C7, as stated, fails.  A record whose [ID] is the empty string has the
    id "", not the value [n] of its [Name], the first candidate with a
    non-empty value; and so has a record whose [seqid] column is empty
    under the candidates [:seqid:] and [Name]. *)
Lemma id_handler_empty_value_wins :
  let f := examples.record "gene" 1 100 [("ID", [""]); ("Name", ["n"])] in
  let g := mkFeature "" "" "." "gene" (Some 1%Z) (Some 100%Z) "." "+" "."
                     [("Name", ["n"])] [] None in
  let self ks := examples.config MSMerge (SpecSeq (KeyStr <$> ks)) false in
  ((_id_handler (self ["ID"; "Name"]) f init_state).1 = Ok ("", f)
   ∧ first_nonempty_id ["ID"; "Name"] f ∅ = "n")
  ∧ ((_id_handler (self [":seqid:"; "Name"]) g init_state).1 = Ok ("", g)
     ∧ first_nonempty_id [":seqid:"; "Name"] g ∅ = "n").
Proof. vm_compute. repeat split. Qed.

(** A record whose [ID] has no value, under the candidates [ID], [Name] and
    [:seqid:]: the key [ID] is removed and the first value of [Name] is the
    id, the sentinel is not reached.  A record with neither key, under [ID]
    and [Name]: the counter of its type is drawn. *)
Lemma id_handler_sequence_witness :
  let ks := ["ID"; "Name"; ":seqid:"] in
  let self := examples.config MSError (SpecSeq (KeyStr <$> ks)) false in
  let f := examples.record "gene" 1 100 [("ID", []); ("Name", ["n"; "m"])] in
  let ks' := ["ID"; "Name"] in
  let self' := examples.config MSError (SpecSeq (KeyStr <$> ks')) false in
  let f' := examples.record "gene" 1 100 [("Note", ["x"])] in
  (id_spec self = SpecSeq (KeyStr <$> ks)
   ∧ Forall (λ k, is_sentinel k = true → strip_colons k ∈ column_names) ks
   ∧ _id_handler self f init_state = id_by_candidates ks f init_state
   ∧ _id_handler self f init_state
     = (Ok ("n", examples.record "gene" 1 100 [("Name", ["n"; "m"])]),
        init_state))
  ∧ (id_spec self' = SpecSeq (KeyStr <$> ks')
     ∧ Forall (λ k, is_sentinel k = true → strip_colons k ∈ column_names) ks'
     ∧ _id_handler self' f' init_state = id_by_candidates ks' f' init_state
     ∧ (_id_handler self' f' init_state).1 = Ok ("gene_1", f')
     ∧ _autoincrements (_id_handler self' f' init_state).2 = {["gene" := 1]}).
Proof.
  cbv zeta.
  assert (∀ ks, bool_decide
            (Forall (λ k, is_sentinel k = true → strip_colons k ∈ column_names)
                    ks) = true →
          ∀ k, k ∈ ks → is_sentinel k = true → strip_colons k ∈ column_names)
    as Hcols.
  { intros ks Hks%bool_decide_eq_true k Hk. rewrite Forall_forall in Hks.
    by apply Hks. }
  split.
  - split_and!; [reflexivity|apply (bool_decide_unpack _); vm_compute; exact I
                | |vm_compute; reflexivity].
    apply (id_handler_sequence
             (examples.config MSError
                (SpecSeq (KeyStr <$> ["ID"; "Name"; ":seqid:"])) false)
             ["ID"; "Name"; ":seqid:"]); [reflexivity|].
    apply Hcols. vm_compute. reflexivity.
  - split_and!; [reflexivity|apply (bool_decide_unpack _); vm_compute; exact I
                | |vm_compute; reflexivity|vm_compute; reflexivity].
    apply (id_handler_sequence
             (examples.config MSError (SpecSeq (KeyStr <$> ["ID"; "Name"])) false)
             ["ID"; "Name"]); [reflexivity|].
    apply Hcols. vm_compute. reflexivity.
Defined.

(** A GTF creation under [create_unique], where the derived gene [G1]
    collides with the gene line. *)
Lemma features_id_unique_witness :
  let self := examples.config MSCreateUnique (default_id_spec gtf None) false in
  let r := @create (@creator_class ascending_runtime ucsc_bins gtf) self
             examples.gtf_gene_and_exon init_state in
  @create (@creator_class ascending_runtime ucsc_bins gtf) self
    examples.gtf_gene_and_exon init_state = (Ok (), r.2)
  ∧ length (filter (λ x, id x = "G1") (features (conn r.2))) ≤ 1.
Proof.
  cbv zeta.
  assert (@create (@creator_class ascending_runtime ucsc_bins gtf)
            (examples.config MSCreateUnique (default_id_spec gtf None) false)
            examples.gtf_gene_and_exon init_state
          = (Ok (), (@create (@creator_class ascending_runtime ucsc_bins gtf)
                       (examples.config MSCreateUnique (default_id_spec gtf None) false)
                       examples.gtf_gene_and_exon init_state).2)) as Hcreate.
  { vm_compute. reflexivity. }
  split; [exact Hcreate|].
  exact (@features_id_unique ascending_runtime ucsc_bins gtf _ _ init_state _ "G1"
           (or_intror Hcreate)).
Defined.

(** A second record [b], with a parent [z] that the first did not name. *)
Lemma gff_warning_skips_record_keeps_edges_witness :
  let self := examples.config MSWarning (SpecStr "ID") false in
  let st := (@gff_populate_from_lines ascending_runtime self
               (take 2 examples.gff_chain) init_state).2 in
  let f := examples.record "mRNA" 1 100 [("ID", ["b"]); ("Parent", ["a"; "z"])] in
  merge_strategy self = MSWarning
  ∧ _id_handler self f st = (Ok ("b", f), st)
  ∧ "b" ∈ ids (conn st)
  ∧ ∃ st2, @gff_populate_line ascending_runtime self 2 f st = (Ok (), st2)
      ∧ features (conn st2) = features (conn st)
      ∧ ∀ P, P ∈ attr_get "Parent" (attributes f) →
             mkEdge P "b" 1 ∈ relations (conn st2).
Proof.
  cbv zeta.
  set (self := examples.config MSWarning (SpecStr "ID") false).
  set (st := (@gff_populate_from_lines ascending_runtime self
                (take 2 examples.gff_chain) init_state).2).
  set (f := examples.record "mRNA" 1 100 [("ID", ["b"]); ("Parent", ["a"; "z"])]).
  assert (_id_handler self f st = (Ok ("b", f), st)) as Hid.
  { vm_compute. reflexivity. }
  assert ("b" ∈ ids (conn st)) as Hdup.
  { apply (bool_decide_unpack _). vm_compute. exact I. }
  split_and!; [reflexivity|exact Hid|exact Hdup|].
  exact (@gff_warning_skips_record_keeps_edges ascending_runtime self 2 f st "b" f
           st eq_refl Hid Hdup).
Defined.

(** Merging [Name=c] into the stored [Name=b,a]. *)
Lemma merge_unions_values_witness :
  let self := examples.config MSMerge (SpecStr "ID") false in
  let st := (@gff_populate_from_lines ascending_runtime self
               (take 1 examples.gff_names) init_state).2 in
  let new := set_id "x" (examples.record "gene" 1 100 [("ID", ["x"]); ("Name", ["c"])]) in
  let fixed := set_id "x" (examples.record "gene" 1 100
                             [("ID", ["x"]); ("Name", ["a"; "b"; "c"])]) in
  merge_strategy self = MSMerge
  ∧ @_do_merge ascending_runtime self new st = (Ok (Some fixed, new), st)
  ∧ ∃ existing,
      sql_select_feature (id new) (conn st) = Some existing
      ∧ set_attributes (attributes existing) fixed = existing
      ∧ ∀ k,
          (k ∈ (attributes new).*1 →
             NoDup (attr_get k (attributes fixed))
             ∧ ∀ x, x ∈ attr_get k (attributes fixed) ↔
                    x ∈ attr_get k (attributes existing)
                    ∨ ∃ v, (k, v) ∈ attributes new ∧ x ∈ v)
          ∧ (k ∉ (attributes new).*1 →
               attr_lookup k (attributes fixed) = attr_lookup k (attributes existing)).
Proof.
  cbv zeta.
  set (self := examples.config MSMerge (SpecStr "ID") false).
  set (st := (@gff_populate_from_lines ascending_runtime self
                (take 1 examples.gff_names) init_state).2).
  set (new := set_id "x" (examples.record "gene" 1 100 [("ID", ["x"]); ("Name", ["c"])])).
  set (fixed := set_id "x" (examples.record "gene" 1 100
                              [("ID", ["x"]); ("Name", ["a"; "b"; "c"])])).
  assert (@_do_merge ascending_runtime self new st = (Ok (Some fixed, new), st))
    as Hmerge.
  { vm_compute. reflexivity. }
  split_and!; [reflexivity|exact Hmerge|].
  exact (@merge_unions_values ascending_runtime self new st fixed new st eq_refl
           Hmerge).
Defined.


(** * Further properties of the creator *)

(** ** What an ingestion leaves in place *)

Lemma same_columns_refl r : same_columns r r.
Proof. by destruct r. Qed.

Lemma same_columns_trans r1 r2 r3 :
  same_columns r1 r2 → same_columns r2 r3 → same_columns r1 r3.
Proof.
  unfold same_columns. destruct r1, r2, r3. unfold set_attributes. simpl.
  intros H1 H2. inversion H1; inversion H2; by subst.
Qed.

Lemma Forall2_same_columns_refl fs : Forall2 same_columns fs fs.
Proof.
  apply Forall2_same_length_lookup_2; [done|]. intros i r r' ? ?.
  simplify_eq. apply same_columns_refl.
Qed.

Global Instance rows_kept_invariant fs : DriverInvariant (rows_kept fs).
Proof.
  split; try (by intros; intros st).
  - intros f st (fs' & new & Heq & Hfs).
    unfold execute_insert, mbind, M_bind, get_conn, sql_insert_feature.
    case_decide; simpl; [by exists fs', new|].
    exists fs', (new ++ [f]). simpl. by rewrite Heq, app_assoc.
  - intros a i st (fs' & new & Heq & Hfs). unfold rows_kept. simpl.
    rewrite Heq, fmap_app. eexists _, _. split; [done|].
    eapply Forall2_trans; [apply same_columns_trans|exact Hfs|].
    apply Forall2_fmap_r, Forall2_same_length_lookup_2; [done|].
    intros n r1 r2 H1 H2. rewrite H1 in H2. injection H2 as <-.
    unfold compose. case_decide; [by destruct r1|apply same_columns_refl].
  - intros e st. unfold rows_kept. simpl.
    by rewrite sql_insert_relation_features.
  - intros es st. unfold rows_kept. simpl.
    by rewrite sql_insert_relations_features.
Qed.

Global Instance edges_kept_invariant es : DriverInvariant (edges_kept es).
Proof.
  split; try (by intros; intros st).
  - intros f st Hes. unfold execute_insert, mbind, M_bind, get_conn.
    by destruct (sql_insert_feature f (conn st)) as [db'|] eqn:Hins;
      [unfold sql_insert_feature in Hins; case_decide; simplify_eq|].
  - intros e st Hes e' He'. simpl. apply sql_insert_relation_elem_of.
    right. by apply Hes.
  - intros es' st Hes e' He'. simpl. apply sql_insert_relations_elem_of.
    right. by apply Hes.
Qed.

(** X1.  An update, whether it returns or raises and whatever the dialect
    and the merge strategy, deletes nothing: every row of [features] keeps
    its place, its id and its eight columns (only its attributes can have
    changed), and every row of [relations] is still there. *)
Theorem update_deletes_nothing `{PyRuntime, BinsModule} (fmt : Fmt)
    (self : Config) (lines : list Feature) (st : State) :
  let st' := (@update (creator_class fmt) self lines st).2 in
  rows_kept (features (conn st)) st' ∧ edges_kept (relations (conn st)) st'.
Proof.
  split.
  - apply (preserves_update (rows_kept (features (conn st)))).
    exists (features (conn st)), []. rewrite app_nil_r.
    split; [done|apply Forall2_same_columns_refl].
  - apply (preserves_update (edges_kept (relations (conn st)))). by intros e.
Qed.

(** ** The counters and their table *)

Global Instance table_is_invariant t : DriverInvariant (table_is t).
Proof.
  split; try (by intros; intros st).
  - intros f st Ht. unfold execute_insert, mbind, M_bind, get_conn, sql_insert_feature.
    by case_decide.
  - intros e st Ht. unfold table_is, sql_insert_relation. simpl. by case_decide.
  - intros es st Ht. unfold table_is. simpl. revert st Ht.
    unfold sql_insert_relations.
    induction es as [|e es IH] using rev_ind; intros st Ht; [done|].
    rewrite foldl_snoc. unfold sql_insert_relation at 1. case_decide; [by apply IH|].
    simpl. by apply IH.
Qed.

(** X2.  An update never lowers or forgets a counter, and it leaves the
    [autoincrements] table as it is: the counters it draws stay in memory. *)
Theorem update_keeps_counters_in_memory `{PyRuntime, BinsModule} (fmt : Fmt)
    (self : Config) (lines : list Feature) (st : State) :
  let st' := (@update (creator_class fmt) self lines st).2 in
  counters_le (_autoincrements st) (_autoincrements st')
  ∧ autoincrements (conn st') = autoincrements (conn st).
Proof.
  split.
  - apply counters_monotone. intros c. apply preserves_update, _.
  - by apply (preserves_update (table_is (autoincrements (conn st)))).
Qed.

(** X3.  A creation that returns has written the counters to the
    [autoincrements] table: the table holds exactly the counters in memory. *)
Theorem create_stores_counters `{PyRuntime, BinsModule} (fmt : Fmt)
    (self : Config) (lines : list Feature) (st st' : State) :
  @create (creator_class fmt) self lines st = (Ok (), st') →
  autoincrements (conn st') = _autoincrements st'.
Proof.
  unfold create.
  intros ([] & sti & Hinit & Hrun)%bind_Ok_inv.
  injection Hinit as <-.
  assert (∃ stu, @update (creator_class fmt) self lines
                   (mkState (_autoincrements st) empty_db
                            (current_item_number st) (current_item st) (stderr st))
                 = (Ok (), stu) ∧ _finalize stu = (Ok (), st')) as (stu & Hup & Hfin).
  { unfold update. apply bind_Ok_inv in Hrun as ([] & stp & Hpop & Hrun).
    apply bind_Ok_inv in Hrun as ([] & stu & Hrel & Hfin).
    exists stu. split; [|done]. by erewrite bind_Ok by exact Hpop. }
  pose proof (preserves_update (table_is (autoincrements empty_db)) self fmt lines
                (mkState (_autoincrements st) empty_db (current_item_number st)
                         (current_item st) (stderr st)) eq_refl) as Ht.
  rewrite Hup in Ht. unfold table_is in Ht. simpl in Ht.
  injection Hfin as <-. simpl. rewrite Ht. apply map_eq. intros k.
  rewrite lookup_union, lookup_empty. by destruct (_autoincrements stu !! k).
Qed.

(** ** What a creation leaves behind *)

Global Instance unique_edges_invariant : DriverInvariant unique_edges.
Proof.
  assert (∀ e db, NoDup (relations db) → NoDup (relations (sql_insert_relation e db)))
    as Hone.
  { intros e db Hnd. unfold sql_insert_relation. case_decide; [done|]. simpl.
    apply NoDup_app. split_and!; [done| |apply NoDup_singleton].
    by intros x Hx ->%list_elem_of_singleton. }
  split; try (by intros; intros st).
  - intros f st Hnd. unfold execute_insert, mbind, M_bind, get_conn, sql_insert_feature.
    by case_decide.
  - intros e st Hnd. by apply Hone.
  - intros es st Hnd. unfold unique_edges in *. simpl.
    generalize dependent (conn st). unfold sql_insert_relations.
    induction es as [|e es IH]; intros db Hnd; [done|]. simpl. by apply IH, Hone.
Qed.

(** X4.  Whatever a creation leaves behind, also when it raises midway, is a
    well-formed store: no id is in [features] twice and no row is in
    [relations] twice. *)
Theorem create_leaves_wellformed_store `{PyRuntime, BinsModule} (fmt : Fmt)
    (self : Config) (lines : list Feature) (st : State) :
  let st' := (@create (creator_class fmt) self lines st).2 in
  unique_ids st' ∧ unique_edges st'.
Proof.
  assert (∀ I, DriverInvariant I → preserves I _finalize →
               I (_init_tables st).2 →
               I (@create (creator_class fmt) self lines st).2) as Hcreate.
  { intros I HI Hfin Hinit.
    assert (preserves I (@update (creator_class fmt) self lines ≫= λ _, _finalize))
      as Hp.
    { apply preserves_bind; [by apply preserves_update|]. by intros _. }
    specialize (Hp _ Hinit). revert Hp. unfold create, update.
    unfold mbind at 1 3 4, M_bind.
    change (_init_tables st) with (Ok (), (_init_tables st).2).
    unfold mbind, M_bind.
    by destruct (_populate_from_lines _ _ _) as [[[]|e] st1]. }
  split.
  - apply Hcreate; [apply _|apply preserves_finalize|apply unique_ids_init_tables].
  - apply Hcreate; [apply _|by intros st0|]. apply NoDup_nil_2.
Qed.

(** ** A colliding record in the GFF driver *)

Section gff_collision.
Context `{PyRuntime}.
Variable self : Config.

Lemma gff_populate_line_resolved i f st fid f' st1 :
  _id_handler self f st = (Ok (fid, f'), st1) →
  gff_populate_line self i f st =
    (g ← insert_feature self (set_id fid f');
     if attr_mem "Parent" (attributes g) then
       for_each (attr_get "Parent" (attributes g))
                (λ parent, modify_conn (sql_insert_relation (mkEdge parent (id g) 1)))
     else mret ()) (line_state self i st st1).
Proof.
  intros Hid. unfold gff_populate_line.
  erewrite bind_Ok by apply percent_complete_eq. cbv beta.
  rewrite (bind_unfold (_id_handler self f)), id_handler_frame.
  rewrite id_handler_frame in Hid. cbn [_autoincrements].
  destruct (id_handler_pure self f (_autoincrements st)) as [r c].
  cbn [fst snd] in *. injection Hid as -> <-. done.
Qed.

Lemma insert_feature_taken g st :
  id g ∈ ids (conn st) →
  insert_feature self g st =
    ('(fixed, f) ← _do_merge self g;
     if bool_decide (merge_strategy self ∈ [MSMerge; MSReplace]) then
       match fixed with
       | Some fixed =>
           modify_conn (sql_update_attributes (attributes fixed) (id fixed));;
           mret f
       | None => raise (AttributeError "NoneType" "attributes")
       end
     else if bool_decide (merge_strategy self = MSCreateUnique) then
       execute_insert f;; mret f
     else mret f) st.
Proof.
  intros Hdup. unfold insert_feature. erewrite try_except_caught; [done|].
  erewrite bind_Raise; [done|]. by apply execute_insert_taken.
Qed.

(** X5.  In the GFF driver under [error], a record whose id is taken raises
    the duplicate-id error, and the store is as it was before the line. *)
Theorem gff_error_duplicate_raises i f st fid f' st1 :
  merge_strategy self = MSError →
  _id_handler self f st = (Ok (fid, f'), st1) →
  fid ∈ ids (conn st) →
  ∃ st2, gff_populate_line self i f st
         = (Raise (ValueError ("Duplicate ID " +:+ fid)), st2)
    ∧ conn st2 = conn st.
Proof.
  intros Hms Hid Hdup. rewrite (gff_populate_line_resolved _ _ _ _ _ _ Hid).
  eexists. split; [|shelve].
  erewrite bind_Raise; [done|]. rewrite insert_feature_taken by done.
  erewrite bind_Raise; [done|]. unfold _do_merge. by rewrite Hms.
  Unshelve. done.
Qed.

(** X6.  In the GFF driver under [replace], a record whose id is taken
    replaces the attributes of the stored row and nothing else: the row
    keeps its place and its columns, those of the new record are dropped,
    and the edges to the parents of the new record are inserted. *)
Theorem gff_replace_updates_attributes_only i f st fid f' st1 :
  merge_strategy self = MSReplace →
  _id_handler self f st = (Ok (fid, f'), st1) →
  fid ∈ ids (conn st) →
  ∃ st2, gff_populate_line self i f st = (Ok (), st2)
    ∧ features (conn st2)
      = (λ r, if decide (id r = fid) then set_attributes (attributes f') r else r)
          <$> features (conn st)
    ∧ ∀ P, P ∈ attr_get "Parent" (attributes f) →
           mkEdge P fid 1 ∈ relations (conn st2).
Proof.
  intros Hms Hid Hdup.
  pose proof (id_handler_same_values _ _ _ _ _ _ Hid) as [_ Hvals].
  rewrite (gff_populate_line_resolved _ _ _ _ _ _ Hid).
  erewrite bind_Ok; cycle 1.
  { rewrite insert_feature_taken by done.
    erewrite bind_Ok; [|unfold _do_merge; by rewrite Hms].
    cbv beta iota. rewrite Hms. simpl. done. }
  rewrite parent_loop_eq. eexists. split; [done|]. simpl.
  rewrite sql_insert_relations_features. split; [done|].
  intros P HP. apply sql_insert_relations_elem_of. left.
  unfold parent_edges. simpl. rewrite Hvals.
  by apply (list_elem_of_fmap_2 (λ p, mkEdge p fid 1)).
Qed.

(** X7.  In the GFF driver under [create_unique], a record whose id is
    taken draws the counter named by that id and is stored under
    "<id>_<n>", to which the edges from its parents point; when that id is
    taken too, the second insert raises [IntegrityError], which nothing
    catches, and the store is as it was before the line. *)
Theorem gff_create_unique_renames i f st fid f' st1 :
  merge_strategy self = MSCreateUnique →
  _id_handler self f st = (Ok (fid, f'), st1) →
  fid ∈ ids (conn st) →
  let n := S (default 0 (_autoincrements st1 !! fid)) in
  let fid' := fid +:+ "_" +:+ pretty n in
  ∃ st2,
    _autoincrements st2 = <[fid := n]> (_autoincrements st1)
    ∧ if decide (fid' ∈ ids (conn st)) then
        gff_populate_line self i f st = (Raise IntegrityError, st2)
        ∧ conn st2 = conn st
      else
        gff_populate_line self i f st = (Ok (), st2)
        ∧ features (conn st2) = features (conn st) ++ [set_id fid' f']
        ∧ ∀ P, P ∈ attr_get "Parent" (attributes f) →
               mkEdge P fid' 1 ∈ relations (conn st2).
Proof.
  intros Hms Hid Hdup n fid'.
  pose proof (id_handler_same_values _ _ _ _ _ _ Hid) as [_ Hvals].
  rewrite (gff_populate_line_resolved _ _ _ _ _ _ Hid).
  assert (insert_feature self (set_id fid f') (line_state self i st st1)
          = (execute_insert (set_id fid' f');; mret (set_id fid' f'))
              (with_counters (<[fid := n]> (_autoincrements st1))
                             (line_state self i st st1))) as Hins.
  { rewrite insert_feature_taken by done.
    erewrite bind_Ok; [|unfold _do_merge; rewrite Hms; by erewrite bind_Ok by done].
    cbv beta iota. rewrite Hms. done. }
  destruct (decide (fid' ∈ ids (conn st))) as [Hdup'|Hdup'].
  - eexists. split; [|split].
    2:{ erewrite bind_Raise; [done|]. rewrite Hins.
        erewrite bind_Raise; [done|]. by apply execute_insert_taken. }
    all: done.
  - eexists. split; [|split_and!].
    2:{ erewrite bind_Ok; cycle 1.
        { rewrite Hins. erewrite bind_Ok; [done|]. by apply execute_insert_free. }
        cbv beta. by rewrite parent_loop_eq. }
    + done.
    + simpl. by rewrite sql_insert_relations_features.
    + intros P HP. simpl. apply sql_insert_relations_elem_of. left.
      unfold parent_edges. simpl. rewrite Hvals.
      by apply (list_elem_of_fmap_2 (λ p, mkEdge p fid' 1)).
Qed.
End gff_collision.

(** ** The strictest strategy *)

Lemma for_each_Ok_mono {A} (xs : list A) (body body' : A → M unit) st st' :
  (∀ x st0 st1, x ∈ xs → body x st0 = (Ok (), st1) → body' x st0 = (Ok (), st1)) →
  for_each xs body st = (Ok (), st') → for_each xs body' st = (Ok (), st').
Proof.
  revert st. induction xs as [|x xs IH]; intros st Hbody; [done|].
  cbn [for_each]. intros ([] & sta & Hx & Hxs)%bind_Ok_inv.
  erewrite bind_Ok by (eapply Hbody; [left|exact Hx]).
  apply IH; [|done]. intros y st0 st1 Hy. apply Hbody. by right.
Qed.

Section strictest.
Context `{PyRuntime, BinsModule}.
Variable self : Config.
Variable ms : MergeStrategy.
Hypothesis Herror : merge_strategy self = MSError.

Lemma do_merge_error_raises f st :
  _do_merge self f st = (Raise (ValueError ("Duplicate ID " +:+ id f)), st).
Proof using Herror. unfold _do_merge. by rewrite Herror. Qed.

Lemma insert_feature_free (cfg : Config) f st :
  id f ∉ ids (conn st) →
  insert_feature cfg f st =
    (Ok f, with_conn (mkDB (features (conn st) ++ [f]) (relations (conn st))
                           (autoincrements (conn st))) st).
Proof.
  intros Hfree. unfold insert_feature. erewrite try_except_Ok; [done|].
  erewrite bind_Ok; [done|]. by apply execute_insert_free.
Qed.

Lemma insert_feature_error_Ok f st g st' :
  insert_feature self f st = (Ok g, st') →
  insert_feature (with_strategy ms self) f st = (Ok g, st').
Proof using Herror.
  destruct (decide (id f ∈ ids (conn st))) as [Hdup|Hfree].
  - rewrite insert_feature_taken by done.
    by erewrite bind_Raise by apply do_merge_error_raises.
  - by rewrite !insert_feature_free by done.
Qed.

Lemma insert_derived_error_Ok f st st' :
  insert_derived self f st = (Ok (), st') →
  insert_derived (with_strategy ms self) f st = (Ok (), st').
Proof using Herror.
  unfold insert_derived.
  intros ([fid f'] & sta & Hid & Hins)%bind_Ok_inv.
  change (_id_handler (with_strategy ms self) f) with (_id_handler self f).
  erewrite bind_Ok by exact Hid. cbv beta iota zeta in *.
  destruct (decide (fid ∈ ids (conn sta))) as [Hdup|Hfree].
  - erewrite try_except_caught in Hins by (by apply execute_insert_taken).
    by erewrite bind_Raise in Hins by apply do_merge_error_raises.
  - erewrite try_except_Ok in Hins by (by apply execute_insert_free).
    erewrite try_except_Ok by (by apply execute_insert_free). done.
Qed.

Lemma gff_populate_error_Ok lines st st' :
  gff_populate_from_lines self lines st = (Ok (), st') →
  gff_populate_from_lines (with_strategy ms self) lines st = (Ok (), st').
Proof using Herror.
  unfold gff_populate_from_lines, enumerate_lines.
  intros ([] & sta & Hloop & Htail)%bind_Ok_inv.
  erewrite bind_Ok; [exact Htail|].
  eapply for_each_Ok_mono; [|exact Hloop].
  intros [i f] st0 st1 _.
  intros ([] & s1 & Hnext & Hline)%bind_Ok_inv.
  erewrite bind_Ok by exact Hnext. cbv beta.
  revert Hline. unfold gff_populate_line.
  intros ([] & s2 & Hpc & Hline)%bind_Ok_inv.
  change (percent_complete (with_strategy ms self) i) with (percent_complete self i).
  erewrite bind_Ok by exact Hpc. cbv beta.
  apply bind_Ok_inv in Hline as ([fid f'] & s3 & Hid & Hline).
  change (_id_handler (with_strategy ms self) f) with (_id_handler self f).
  erewrite bind_Ok by exact Hid. cbv beta iota.
  apply bind_Ok_inv in Hline as (g & s4 & Hins & Hline).
  erewrite bind_Ok by (apply insert_feature_error_Ok; exact Hins).
  exact Hline.
Qed.

Lemma gtf_populate_error_Ok lines st st' :
  gtf_populate_from_lines self lines st = (Ok (), st') →
  gtf_populate_from_lines (with_strategy ms self) lines st = (Ok (), st').
Proof using Herror.
  unfold gtf_populate_from_lines, enumerate_lines.
  intros ([] & sta & Hloop & Htail)%bind_Ok_inv.
  erewrite bind_Ok; [exact Htail|].
  eapply for_each_Ok_mono; [|exact Hloop].
  intros [i f] st0 st1 _.
  intros ([] & s1 & Hnext & Hline)%bind_Ok_inv.
  erewrite bind_Ok by exact Hnext. cbv beta.
  revert Hline. unfold gtf_populate_line.
  intros ([] & s2 & Hpc & Hline)%bind_Ok_inv.
  change (percent_complete (with_strategy ms self) i) with (percent_complete self i).
  erewrite bind_Ok by exact Hpc. cbv beta.
  apply bind_Ok_inv in Hline as ([fid f'] & s3 & Hid & Hline).
  change (_id_handler (with_strategy ms self) f) with (_id_handler self f).
  erewrite bind_Ok by exact Hid. cbv beta iota.
  apply bind_Ok_inv in Hline as (g & s4 & Hins & Hline).
  erewrite bind_Ok by (apply insert_feature_error_Ok; exact Hins).
  exact Hline.
Qed.

Lemma gtf_update_relations_error_Ok st st' :
  gtf_update_relations self st = (Ok (), st') →
  gtf_update_relations (with_strategy ms self) st = (Ok (), st').
Proof using Herror.
  unfold gtf_update_relations.
  intros (db & sta & Hget & Hloop)%bind_Ok_inv. injection Hget as <- <-.
  erewrite bind_Ok by done.
  eapply for_each_Ok_mono; [|exact Hloop].
  intros f st0 st1 _. apply insert_derived_error_Ok.
Qed.

(** X8.  [error] is the strictest strategy: an ingestion that returns under
    [error] met no taken id, and it returns with the same store and the same
    counters under every other strategy, an unknown one included. *)
Theorem error_is_strictest (fmt : Fmt) (lines : list Feature) (st st' : State) :
  (@update (creator_class fmt) self lines st = (Ok (), st') →
   @update (creator_class fmt) (with_strategy ms self) lines st = (Ok (), st'))
  ∧ (@create (creator_class fmt) self lines st = (Ok (), st') →
     @create (creator_class fmt) (with_strategy ms self) lines st = (Ok (), st')).
Proof using Herror.
  assert (∀ s s', @update (creator_class fmt) self lines s = (Ok (), s') →
                  @update (creator_class fmt) (with_strategy ms self) lines s
                  = (Ok (), s')) as Hup.
  { intros s s'. unfold update.
    intros ([] & sp & Hpop & Hrel)%bind_Ok_inv. destruct fmt; simpl in *.
    - erewrite bind_Ok by (apply gff_populate_error_Ok; exact Hpop). exact Hrel.
    - erewrite bind_Ok by (apply gtf_populate_error_Ok; exact Hpop).
      by apply gtf_update_relations_error_Ok. }
  split; [apply Hup|].
  unfold create. intros ([] & si & Hinit & Hrun)%bind_Ok_inv.
  erewrite bind_Ok by exact Hinit. cbv beta.
  assert (∃ su, @update (creator_class fmt) self lines si = (Ok (), su)
                ∧ _finalize su = (Ok (), st')) as (su & Hu & Hfin).
  { apply bind_Ok_inv in Hrun as ([] & sp & Hpop & Hrun).
    apply bind_Ok_inv in Hrun as ([] & su & Hrel & Hfin).
    exists su. split; [|done]. unfold update. by erewrite bind_Ok by exact Hpop. }
  apply Hup in Hu. unfold update in Hu.
  apply bind_Ok_inv in Hu as ([] & sp & Hpop & Hrel).
  erewrite bind_Ok by exact Hpop. cbv beta.
  erewrite bind_Ok by exact Hrel. exact Hfin.
Qed.
End strictest.

(** ** The closure of a fresh GFF store *)

Section record_invariant.
Context `{PyRuntime}.
Context (I : State → Prop) `{!RecordInvariant I}.
Variable self : Config.

Lemma keeps_try_id_keys id_key f : preserves I (try_id_keys id_key f).
Proof.
  revert f. induction id_key as [|[k|fn] rest IH]; intros f; simpl.
  - apply preserves_bind; [apply rec_increment|]. intros i. apply preserves_ret.
  - destruct (is_sentinel k).
    + destruct (getattr f (strip_colons k));
        [apply preserves_ret|apply preserves_raise].
    + destruct (attr_get k (attributes f)); [apply IH|apply preserves_ret].
  - destruct (fn f) as [_id|]; [|apply preserves_raise].
    case_bool_decide; [apply preserves_raise|].
    destruct (String.prefix _ _); [|apply preserves_ret].
    apply preserves_bind; [apply rec_increment|]. intros i. apply preserves_ret.
Qed.

Lemma keeps_id_handler f : preserves I (_id_handler self f).
Proof.
  unfold _id_handler. destruct (id_spec self) as [k|fn|d|ks];
    try apply keeps_try_id_keys.
  destruct (d !! featuretype f) as [[k|ks]|]; try apply keeps_try_id_keys.
  apply preserves_bind; [apply rec_increment|]. intros i. apply preserves_ret.
Qed.

Lemma keeps_do_merge f : preserves I (_do_merge self f).
Proof.
  unfold _do_merge. destruct (merge_strategy self);
    try apply preserves_raise; try apply preserves_ret.
  - apply preserves_bind.
    + intros st HI. unfold _get_feature, mbind, M_bind, get_conn.
      by destruct (sql_select_feature (id f) (conn st)).
    + intros existing. destruct (list_find _ _);
        [apply preserves_raise_with|apply preserves_ret].
  - apply preserves_bind; [apply rec_increment|]. intros i. apply preserves_ret.
Qed.

Lemma keeps_insert_feature f : preserves I (insert_feature self f).
Proof.
  unfold insert_feature. apply preserves_try_except.
  - apply preserves_bind; [apply rec_execute_insert|].
    intros _. apply preserves_ret.
  - apply preserves_bind; [apply keeps_do_merge|].
    intros [fixed f']. case_bool_decide.
    + destruct fixed as [fixed|]; [|apply preserves_raise].
      apply preserves_bind; [apply rec_update_attributes|].
      intros _. apply preserves_ret.
    + case_bool_decide; [|apply preserves_ret].
      apply preserves_bind; [apply rec_execute_insert|].
      intros _. apply preserves_ret.
Qed.

Lemma keeps_percent_complete i : preserves I (percent_complete self i).
Proof.
  unfold percent_complete. destruct (verbose self); [|apply preserves_ret].
  case_bool_decide; [apply rec_write_progress|apply preserves_ret].
Qed.
End record_invariant.

Global Instance first_order_invariant : RecordInvariant first_order.
Proof.
  split; try (by intros; intros st).
  intros f st Hall. unfold execute_insert, mbind, M_bind, get_conn, sql_insert_feature.
  by case_decide.
Qed.

Lemma first_order_insert_relations es db :
  Forall (λ e, level e = 1) es → Forall (λ e, level e = 1) (relations db) →
  Forall (λ e, level e = 1) (relations (sql_insert_relations es db)).
Proof.
  intros Hes Hdb. apply Forall_forall. intros e.
  rewrite sql_insert_relations_elem_of. intros [He|He].
  - by apply (proj1 (Forall_forall _ _) Hes).
  - by apply (proj1 (Forall_forall _ _) Hdb).
Qed.

Section gff_closure.
Context `{PyRuntime}.
Variable self : Config.

Lemma first_order_gff_populate lines :
  preserves first_order (gff_populate_from_lines self lines).
Proof.
  unfold gff_populate_from_lines, enumerate_lines. apply preserves_bind.
  - apply preserves_for_each. intros [i f] _.
    apply preserves_bind; [apply rec_iterator_next|]. intros _.
    unfold gff_populate_line.
    apply preserves_bind; [apply keeps_percent_complete, _|]. intros _.
    apply preserves_bind; [apply keeps_id_handler, _|]. intros [fid f'].
    apply preserves_bind; [apply keeps_insert_feature, _|]. intros g.
    intros st Hst. rewrite parent_loop_eq. unfold first_order. simpl.
    apply first_order_insert_relations; [|done].
    unfold parent_edges. apply Forall_fmap, Forall_forall. by intros p _.
  - intros _. destruct (verbose self);
      [apply rec_write_progress|apply preserves_ret].
Qed.

Lemma closure_edges_elem_of db p g :
  Forall (λ e, level e = 1) (relations db) →
  mkEdge p g 2 ∈ closure_edges db ↔
  p ∈ ids db ∧ ∃ c, mkEdge p c 1 ∈ relations db ∧ mkEdge c g 1 ∈ relations db.
Proof.
  intros Hall. rewrite Forall_forall in Hall.
  unfold closure_edges, select_grandchildren.
  rewrite list_elem_of_fmap. split.
  - intros ([p' g'] & [= -> ->] & Hpg).
    apply list_elem_of_bind in Hpg as (p'' & Hpg & Hp).
    apply list_elem_of_bind in Hpg as (g'' & Hpg & Hg).
    apply list_elem_of_singleton in Hpg as [= -> ->]. split; [done|].
    apply list_elem_of_fmap in Hg as (e2 & -> & He2).
    apply list_elem_of_filter in He2 as [Hc He2].
    apply list_elem_of_fmap in Hc as (e1 & Hc & He1).
    apply list_elem_of_filter in He1 as [Hp1 He1].
    exists (child e1). split.
    + destruct e1 as [p1 c1 l1]. simpl in *. subst.
      by rewrite <-(Hall _ He1).
    + destruct e2 as [p2 c2 l2]. simpl in *. subst.
      by rewrite <-(Hall _ He2).
  - intros (Hp & c & H1 & H2). exists (p, g). split; [done|].
    apply list_elem_of_bind. exists p. split; [|done].
    apply list_elem_of_bind. exists g. split; [by left|].
    apply list_elem_of_fmap. exists (mkEdge c g 1). split; [done|].
    apply list_elem_of_filter. split; [|done]. simpl.
    apply list_elem_of_fmap. exists (mkEdge p c 1). split; [done|].
    by apply list_elem_of_filter.
Qed.

(** X9.  After a creation by the GFF driver that returns, whatever the
    strategy, with plain ids in [relations], which the scratch file of the
    closure gives back as they are: [relations] holds edges of level 1 and 2
    only, and [(p, g, 2)] is there exactly when [p] is the id of a stored
    record and some [c] has both [(p, c, 1)] and [(c, g, 1)].  A parent that
    no record of the input declares gets no second-order edge. *)
Theorem gff_create_closure_exact (lines : list Feature) (st st' : State) :
  @create _GFFDBCreator self lines st = (Ok (), st') →
  Forall plain_edge (relations (conn st')) →
  (∀ e, e ∈ relations (conn st') → level e = 1 ∨ level e = 2)
  ∧ ∀ p g, mkEdge p g 2 ∈ relations (conn st') ↔
           p ∈ ids (conn st')
           ∧ ∃ c, mkEdge p c 1 ∈ relations (conn st')
                  ∧ mkEdge c g 1 ∈ relations (conn st').
Proof.
  unfold create. simpl.
  intros ([] & si & Hinit & Hrun)%bind_Ok_inv Hplain. injection Hinit as <-.
  apply bind_Ok_inv in Hrun as ([] & sp & Hpop & Hrun).
  apply bind_Ok_inv in Hrun as ([] & sc & Hclo & Hfin).
  injection Hfin as <-. simpl in Hplain.
  assert (Forall plain_edge (relations (conn sp))) as Hsp.
  { destruct (gff_update_relations_grows sp) as (db' & Hst & _ & Hr & _).
    rewrite Hclo in Hst. simpl in Hst. subst sc. simpl in Hplain.
    rewrite Forall_forall in Hplain. apply Forall_forall.
    intros e He. by apply Hplain, Hr. }
  clear Hplain.
  rewrite gff_update_relations_plain in Hclo by done. injection Hclo as <-.
  simpl.
  pose proof (first_order_gff_populate lines _ (Forall_nil_2 _ : first_order
                (mkState (_autoincrements st) empty_db (current_item_number st)
                         (current_item st) (stderr st)))) as Hall.
  rewrite Hpop in Hall. unfold first_order in Hall. simpl in Hall.
  pose proof Hall as Hall'. rewrite Forall_forall in Hall'.
  split.
  - intros e [He|He]%sql_insert_relations_elem_of; [|left; by apply Hall'].
    right. unfold closure_edges in He.
    by apply list_elem_of_fmap in He as (l & -> & _).
  - intros p g. unfold ids. rewrite sql_insert_relations_features.
    fold (ids (conn sp)).
    rewrite !sql_insert_relations_elem_of, closure_edges_elem_of by done.
    split.
    + intros [(Hp & c & H1 & H2)|He]; [|by apply Hall' in He].
      split; [done|]. exists c.
      rewrite !sql_insert_relations_elem_of. split; by right.
    + intros (Hp & c & H1 & H2). left. split; [done|]. exists c.
      rewrite !sql_insert_relations_elem_of in H1, H2.
      destruct H1 as [H1|H1], H2 as [H2|H2]; try done.
      * by apply list_elem_of_fmap in H1 as (l & [=] & _).
      * by apply list_elem_of_fmap in H1 as (l & [=] & _).
      * by apply list_elem_of_fmap in H2 as (l & [=] & _).
Qed.
End gff_closure.

(** ** The id handler *)

(** X10.  [_id_handler], whether it returns or raises, touches nothing but
    the counters, which it never lowers: the store, the iterator and the
    progress output are as before.  The record it returns is the record it
    was given with, possibly, some attribute keys removed, all of which had an
    empty value list: every key reads the same values as before. *)
Theorem id_handler_touches_counters_only (self : Config) (f : Feature)
    (st : State) :
  let r := _id_handler self f st in
  r.2 = with_counters (_autoincrements r.2) st
  ∧ counters_le (_autoincrements st) (_autoincrements r.2)
  ∧ match r.1 with
    | Ok (fid, f') =>
        same_values f f' ∧ attributes f' `sublist_of` attributes f
    | Raise _ => True
    end.
Proof.
  intros r. split_and!.
  - unfold r. by rewrite id_handler_frame.
  - apply counters_monotone. intros c.
    apply preserves_id_handler, _.
  - destruct r as [[[fid f']|e] st'] eqn:Hr; [|done]. simpl. split.
    + by eapply id_handler_same_values.
    + by eapply id_handler_sublist.
Qed.

(** X11.  A callable candidate ends the search.  When it returns nothing
    (or the empty string), the handler goes on to read the callable as a key
    and raises [TypeError]: it does not fall back to the auto-increment, and
    no later candidate is tried.  A string it returns is the id as it is,
    unless it begins with "autoincrement:". *)
Theorem callable_candidate_ends_search (self : Config)
    (fn : Feature → option string) (rest : list IdKey) (f : Feature)
    (st : State) :
  id_spec self = SpecCall fn ∨ id_spec self = SpecSeq (KeyCall fn :: rest) →
  match fn f with
  | None | Some "" =>
      ∃ msg, _id_handler self f st = (Raise (TypeError msg), st)
  | Some v =>
      String.prefix "autoincrement:" v = false →
      _id_handler self f st = (Ok (v, f), st)
  end.
Proof.
  intros Hspec.
  assert (_id_handler self f st = try_id_keys (KeyCall fn :: rest) f st) as ->.
  { unfold _id_handler. by destruct Hspec as [->| ->]. }
  simpl. destruct (fn f) as [[|a v]|]; [by eexists| |by eexists].
  rewrite bool_decide_eq_false_2 by done. by intros ->.
Qed.

(** ** A line of the GTF driver *)

Lemma attr_lookup_None k (a : Attributes) : attr_lookup k a = None ↔ k ∉ a.*1.
Proof.
  induction a as [|[k' v] a IH]; simpl.
  - split; [by intros _ ?%elem_of_nil|done].
  - rewrite not_elem_of_cons. case_decide; [split; [done|by intros [? _]]|].
    rewrite IH. tauto.
Qed.

Lemma attr_mem_true k (a : Attributes) :
  attr_get k a ≠ [] → attr_mem k a = true.
Proof.
  unfold attr_get, attr_mem. intros Hk. apply bool_decide_eq_true.
  by destruct (attr_lookup k a).
Qed.

Lemma attr_mem_false k (a : Attributes) :
  attr_lookup k a = None → attr_mem k a = false.
Proof.
  unfold attr_mem. intros ->. apply bool_decide_eq_false. by intros [? ?].
Qed.

(** Membership in the few edges of a line, by cases. *)
Ltac edge_cases :=
  split;
  [ intros; destruct_or?; subst; eauto 10; try done
  | intros; destruct_or?;
    repeat match goal with H : ∃ _, _ |- _ => destruct H end;
    destruct_and?; simplify_eq; eauto ].

Section gtf_line.
Context `{PyRuntime}.
Variable self : Config.

Lemma gtf_populate_line_resolved i f st fid f' st1 :
  _id_handler self f st = (Ok (fid, f'), st1) →
  gtf_populate_line self i f st =
    (g ← insert_feature self (set_id fid f');
     relations ← gtf_relations self g;
     modify_conn (sql_insert_relations relations)) (line_state self i st st1).
Proof.
  intros Hid. unfold gtf_populate_line.
  erewrite bind_Ok by apply percent_complete_eq. cbv beta.
  rewrite (bind_unfold (_id_handler self f)), id_handler_frame.
  rewrite id_handler_frame in Hid. cbn [_autoincrements].
  destruct (id_handler_pure self f (_autoincrements st)) as [r c].
  cbn [fst snd] in *. injection Hid as -> <-. done.
Qed.

(** X12.  A line of the GTF driver whose id is free, and whose transcript
    key, when present, has a value: the record is appended to [features];
    the first transcript id [T] gives the edge [(T, id, 1)], the first gene
    id [G] the edge [(G, id, 2)] and, beside a transcript id, [(G, T, 1)];
    no other edge is inserted.  A gene line whose id is its own gene id so
    gets the edge [(G, G, 2)] to itself. *)
Theorem gtf_line_edges i f st fid f' st1 :
  _id_handler self f st = (Ok (fid, f'), st1) →
  fid ∉ ids (conn st) →
  attr_lookup (transcript_key self) (attributes f) ≠ Some [] →
  let T := head (attr_get (transcript_key self) (attributes f)) in
  let G := head (attr_get (gene_key self) (attributes f)) in
  ∃ st2, gtf_populate_line self i f st = (Ok (), st2)
    ∧ features (conn st2) = features (conn st) ++ [set_id fid f']
    ∧ ∀ e, e ∈ relations (conn st2) ↔
           e ∈ relations (conn st)
           ∨ (∃ t, T = Some t ∧ e = mkEdge t fid 1)
           ∨ (∃ g, G = Some g ∧ e = mkEdge g fid 2)
           ∨ (∃ g t, G = Some g ∧ T = Some t ∧ e = mkEdge g t 1).
Proof.
  intros Hid Hfree HT T G.
  pose proof (id_handler_same_values _ _ _ _ _ _ Hid) as [_ Hvals].
  pose proof (id_handler_sublist _ _ _ _ _ _ Hid) as Hsub.
  rewrite (gtf_populate_line_resolved _ _ _ _ _ _ Hid).
  erewrite bind_Ok by (by apply insert_feature_free).
  cbv beta.
  assert (∃ rels, gtf_relations self (set_id fid f')
                    (with_conn
                       (mkDB (features (conn (line_state self i st st1)) ++ [set_id fid f'])
                             (relations (conn (line_state self i st st1)))
                             (autoincrements (conn (line_state self i st st1))))
                       (line_state self i st st1))
                  = (Ok rels, with_conn
                       (mkDB (features (conn (line_state self i st st1)) ++ [set_id fid f'])
                             (relations (conn (line_state self i st st1)))
                             (autoincrements (conn (line_state self i st st1))))
                       (line_state self i st st1))
                  ∧ ∀ e, e ∈ rels ↔
                      (∃ t, T = Some t ∧ e = mkEdge t fid 1)
                      ∨ (∃ g, G = Some g ∧ e = mkEdge g fid 2)
                      ∨ (∃ g t, G = Some g ∧ T = Some t ∧ e = mkEdge g t 1))
    as (rels & Hrels & Hin).
  { unfold gtf_relations. cbn [attributes set_id id]. unfold T, G.
    rewrite <-!Hvals.
    destruct (attr_get (transcript_key self) (attributes f')) as [|t ts] eqn:Ht.
    - rewrite (attr_mem_false (transcript_key self)); cycle 1.
      { destruct (attr_lookup (transcript_key self) (attributes f')) as [v|] eqn:Hl;
          [|done].
        exfalso. apply HT. unfold attr_get in Ht. rewrite Hl in Ht. simpl in Ht.
        subst v. specialize (Hvals (transcript_key self)).
        unfold attr_get in Hvals. rewrite Hl in Hvals. simpl in Hvals.
        destruct (attr_lookup (transcript_key self) (attributes f)) as [w|] eqn:Hw;
          [by simpl in Hvals; subst w|].
        apply attr_lookup_None in Hw. exfalso. apply Hw.
        apply attr_lookup_elem_of in Hl.
        apply (list_elem_of_fmap_2 fst) in Hl.
        eapply elem_of_sublist; [exact Hl|]. by apply fmap_sublist. }
      erewrite bind_Ok by done. cbv beta iota.
      destruct (attr_get (gene_key self) (attributes f')) as [|g gs] eqn:Hg.
      + destruct (attr_mem _ _); eexists; (split; [done|]); intros e;
          rewrite elem_of_nil; simpl; edge_cases.
      + rewrite (attr_mem_true (gene_key self)) by (by rewrite Hg). eexists. split; [done|].
        intros e. simpl. rewrite list_elem_of_singleton. edge_cases.
    - rewrite (attr_mem_true (transcript_key self)) by (by rewrite Ht).
      erewrite bind_Ok by done. cbv beta iota.
      destruct (attr_get (gene_key self) (attributes f')) as [|g gs] eqn:Hg.
      + destruct (attr_mem _ _); eexists; (split; [done|]); intros e;
          rewrite list_elem_of_singleton; simpl; edge_cases.
      + rewrite (attr_mem_true (gene_key self)) by (by rewrite Hg). eexists. split; [done|].
        intros e. simpl. rewrite !elem_of_cons, elem_of_nil. edge_cases. }
  erewrite bind_Ok by exact Hrels. cbv beta.
  eexists. split; [done|]. simpl.
  rewrite sql_insert_relations_features. split; [done|].
  intros e. rewrite sql_insert_relations_elem_of, Hin. simpl. tauto.
Qed.
End gtf_line.

(** ** The derived records of the GTF driver *)

Lemma ascii_compare_refl a : Ascii.compare a a = Eq.
Proof. unfold Ascii.compare. apply N.compare_refl. Qed.

Lemma ascii_compare_Lt_trans a b c :
  Ascii.compare a b = Lt → Ascii.compare b c = Lt → Ascii.compare a c = Lt.
Proof. unfold Ascii.compare. rewrite !N.compare_lt_iff. lia. Qed.

Lemma string_compare_refl s : String.compare s s = Eq.
Proof. induction s as [|a s IH]; [done|]. simpl. by rewrite ascii_compare_refl. Qed.

Lemma string_compare_Lt_trans s1 s2 s3 :
  String.compare s1 s2 = Lt → String.compare s2 s3 = Lt →
  String.compare s1 s3 = Lt.
Proof.
  revert s2 s3. induction s1 as [|a s1 IH]; intros [|b s2] [|c s3]; simpl; try done.
  destruct (Ascii.compare a b) eqn:Hab; [|intros _|done].
  - apply Ascii.compare_eq_iff in Hab. subst b.
    destruct (Ascii.compare a c); [apply IH|done|done].
  - destruct (Ascii.compare b c) eqn:Hbc; [|intros _|done].
    + apply Ascii.compare_eq_iff in Hbc. subst c. by rewrite Hab.
    + by rewrite (ascii_compare_Lt_trans _ _ _ Hab Hbc).
Qed.

Lemma string_leb_trans s1 s2 s3 :
  String.leb s1 s2 = true → String.leb s2 s3 = true → String.leb s1 s3 = true.
Proof.
  unfold String.leb.
  destruct (String.compare s1 s2) eqn:H12; [|intros _|done].
  - apply String.compare_eq_iff in H12. by subst s2.
  - destruct (String.compare s2 s3) eqn:H23; [|intros _|done].
    + apply String.compare_eq_iff in H23. subst s3. by rewrite H12.
    + by rewrite (string_compare_Lt_trans _ _ _ H12 H23).
Qed.

Global Instance gene_le_trans : Transitive gene_le.
Proof. intros x y z. unfold gene_le. apply string_leb_trans. Qed.

Global Instance gene_le_total : Total gene_le.
Proof. intros x y. unfold gene_le. apply String.leb_total. Qed.

Lemma new_genes_elem_of x last rows : x ∈ new_genes last rows → x ∈ rows.*2.
Proof.
  revert last. induction rows as [|[t g] rows IH]; intros last; [done|].
  simpl. rewrite elem_of_app, elem_of_cons. intros [Hin|Hin].
  - case_bool_decide; [|by apply elem_of_nil in Hin].
    left. by apply list_elem_of_singleton in Hin.
  - right. by eapply IH.
Qed.

Lemma new_genes_complete g last rows :
  g ∈ rows.*2 → Some g ≠ last → g ∈ new_genes last rows.
Proof.
  revert last. induction rows as [|[t g'] rows IH]; intros last;
    [by intros ?%elem_of_nil|].
  simpl. rewrite elem_of_cons, elem_of_app. intros [->|Hin] Hne.
  - left. rewrite bool_decide_eq_true_2 by done. by left.
  - destruct (decide (g = g')) as [->|Hgg'].
    + left. rewrite bool_decide_eq_true_2 by done. by left.
    + right. apply IH; [done|congruence].
Qed.

(** Past a row of gene [l], rows in ascending order give no record for [l]
    again. *)
Lemma new_genes_above l rows :
  StronglySorted gene_le rows → Forall (λ r, String.leb l r.2 = true) rows →
  l ∉ new_genes (Some l) rows.
Proof.
  revert l. induction rows as [|[t g] rows IH]; intros l Hs Hl;
    [by intros ?%elem_of_nil|].
  apply StronglySorted_inv in Hs as [Hs Hg].
  apply Forall_cons in Hl as [Hlg Hl]. simpl in *.
  rewrite elem_of_app. intros [Hin|Hin].
  - case_bool_decide as Hne; [|by apply elem_of_nil in Hin].
    apply list_elem_of_singleton in Hin. by subst.
  - destruct (decide (g = l)) as [->|Hne]; [by apply (IH l)|].
    apply Hne. apply String.leb_antisym; [|done].
    apply new_genes_elem_of, list_elem_of_fmap in Hin as ([t' g'] & -> & Hin).
    rewrite Forall_forall in Hg. exact (Hg _ Hin).
Qed.

Lemma new_genes_NoDup last rows :
  StronglySorted gene_le rows → NoDup (new_genes last rows).
Proof.
  revert last. induction rows as [|[t g] rows IH]; intros last Hs; [constructor|].
  apply StronglySorted_inv in Hs as [Hs Hg]. simpl.
  case_bool_decide; simpl; [|by apply IH].
  apply NoDup_cons. split; [|by apply IH].
  apply new_genes_above; [done|].
  eapply Forall_impl; [exact Hg|]. by intros [t' g'].
Qed.

Section derived.
Context `{PyRuntime, BinsModule}.
Variable self : Config.

Lemma derived_feature_fields extent ftype attrs :
  featuretype (derived_feature extent ftype attrs) = ftype
  ∧ attributes (derived_feature extent ftype attrs) = attrs
  ∧ source (derived_feature extent ftype attrs) = "gffutils_derived"
  ∧ start (derived_feature extent ftype attrs) = extent.1.1.1
  ∧ end_ (derived_feature extent ftype attrs) = extent.1.1.2.
Proof. by destruct extent as [[[? ?] ?] ?]. Qed.

Lemma derive_features_genes db last rows :
  attributes <$> filter (λ f, featuretype f = "gene")
                        (derive_features self db last rows)
  = (λ g, [(gene_key self, [g])]) <$> new_genes last rows.
Proof.
  revert last. induction rows as [|[t g] rows IH]; intros last; [done|].
  cbn [derive_features new_genes].
  rewrite filter_cons_False; cycle 1.
  { by rewrite (proj1 (derived_feature_fields _ _ _)). }
  rewrite filter_app, !fmap_app, IH. f_equal.
  case_bool_decide; [|done].
  rewrite filter_cons_True by by rewrite (proj1 (derived_feature_fields _ _ _)).
  rewrite filter_nil, !list_fmap_singleton.
  by rewrite (proj1 (proj2 (derived_feature_fields _ _ _))).
Qed.

Lemma derive_features_transcripts db last rows :
  attributes <$> filter (λ f, featuretype f = "transcript")
                        (derive_features self db last rows)
  = (λ r, attr_set (gene_key self) [r.2] [(transcript_key self, [r.1])])
      <$> rows.
Proof.
  revert last. induction rows as [|[t g] rows IH]; intros last; [done|].
  cbn [derive_features].
  rewrite filter_cons_True by by rewrite (proj1 (derived_feature_fields _ _ _)).
  rewrite filter_app, !fmap_cons, fmap_app, IH.
  rewrite (proj1 (proj2 (derived_feature_fields _ _ _))). f_equal.
  case_bool_decide; [|done].
  rewrite filter_cons_False; [done|].
  by rewrite (proj1 (derived_feature_fields _ _ _)).
Qed.

End derived.

(** ** The extent of a derived record *)

Lemma foldl_opt_min a xs :
  ∃ m, foldl opt_min (Some a) xs = Some m
       ∧ m ∈ a :: xs ∧ ∀ x, x ∈ a :: xs → (m ≤ x)%Z.
Proof.
  revert a. induction xs as [|b xs IH]; intros a; simpl.
  - exists a. split; [done|]. split; [left|]. intros x ->%list_elem_of_singleton. lia.
  - unfold opt_min at 2. simpl.
    destruct (IH (Z.min b a)) as (m & -> & Hm & Hle). exists m. split; [done|].
    split.
    + apply elem_of_cons in Hm as [->|Hm]; [|by do 2 right].
      destruct (Z.min_spec b a) as [[_ ->]|[_ ->]]; [right; left|left].
    + intros x Hx. assert (m ≤ Z.min b a)%Z by (apply Hle; left).
      apply elem_of_cons in Hx as [->|[->|Hx]%elem_of_cons]; [lia|lia|].
      apply Hle. by right.
Qed.

Lemma foldl_opt_max a xs :
  ∃ m, foldl opt_max (Some a) xs = Some m
       ∧ m ∈ a :: xs ∧ ∀ x, x ∈ a :: xs → (x ≤ m)%Z.
Proof.
  revert a. induction xs as [|b xs IH]; intros a; simpl.
  - exists a. split; [done|]. split; [left|]. intros x ->%list_elem_of_singleton. lia.
  - unfold opt_max at 2. simpl.
    destruct (IH (Z.max b a)) as (m & -> & Hm & Hle). exists m. split; [done|].
    split.
    + apply elem_of_cons in Hm as [->|Hm]; [|by do 2 right].
      destruct (Z.max_spec b a) as [[_ ->]|[_ ->]]; [left|right; left].
    + intros x Hx. assert (Z.max b a ≤ m)%Z by (apply Hle; left).
      apply elem_of_cons in Hx as [->|[->|Hx]%elem_of_cons]; [lia|lia|].
      apply Hle. by right.
Qed.

Lemma elem_of_omap_id {A} (x : A) (l : list (option A)) :
  x ∈ omap (λ y, y) l ↔ Some x ∈ l.
Proof.
  rewrite list_elem_of_omap. split; [by intros (y & Hy & ->)|].
  intros Hx. by exists (Some x).
Qed.

Lemma sql_min_least values : least_of (sql_min values) values.
Proof.
  unfold sql_min, least_of.
  destruct (omap (λ y, y) values) as [|a xs] eqn:Hvals; simpl.
  - intros x Hx%elem_of_omap_id. rewrite Hvals in Hx. by apply elem_of_nil in Hx.
  - unfold opt_min at 2. simpl.
    destruct (foldl_opt_min a xs) as (m & -> & Hm & Hle).
    rewrite <-Hvals in Hm, Hle. split; [by apply elem_of_omap_id|].
    intros x Hx. by apply Hle, elem_of_omap_id.
Qed.

Lemma sql_max_greatest values : greatest_of (sql_max values) values.
Proof.
  unfold sql_max, greatest_of.
  destruct (omap (λ y, y) values) as [|a xs] eqn:Hvals; simpl.
  - intros x Hx%elem_of_omap_id. rewrite Hvals in Hx. by apply elem_of_nil in Hx.
  - unfold opt_max at 2. simpl.
    destruct (foldl_opt_max a xs) as (m & -> & Hm & Hle).
    rewrite <-Hvals in Hm, Hle. split; [by apply elem_of_omap_id|].
    intros x Hx. by apply Hle, elem_of_omap_id.
Qed.

Section derived_extent.
Context `{PyRuntime, BinsModule}.
Variable self : Config.

Lemma derived_feature_spans db p ftype attrs :
  spans (derived_feature (select_extent self db p) ftype attrs)
        (select_subfeatures self db p).
Proof.
  unfold select_extent, spans. simpl. split;
    [apply sql_min_least|apply sql_max_greatest].
Qed.

Lemma derive_features_transcript_in db last rows t g :
  (t, g) ∈ rows →
  derived_feature (select_extent self db t) "transcript"
    (attr_set (gene_key self) [g] [(transcript_key self, [t])])
  ∈ derive_features self db last rows.
Proof.
  revert last. induction rows as [|[t' g'] rows IH]; intros last;
    [by intros ?%elem_of_nil|].
  cbn [derive_features]. intros [[= -> ->]|Hin]%elem_of_cons; [left|].
  right. apply elem_of_app. right. by apply IH.
Qed.

Lemma derive_features_gene_in db last rows g :
  g ∈ new_genes last rows →
  derived_feature (select_extent self db g) "gene" [(gene_key self, [g])]
  ∈ derive_features self db last rows.
Proof.
  revert last. induction rows as [|[t' g'] rows IH]; intros last;
    [by intros ?%elem_of_nil|].
  cbn [derive_features new_genes]. rewrite elem_of_app. intros [Hin|Hin].
  - case_bool_decide; [|by apply elem_of_nil in Hin].
    apply list_elem_of_singleton in Hin as ->.
    right. apply elem_of_app. left. left.
  - right. apply elem_of_app. right. by apply IH.
Qed.

Lemma select_transcript_gene_elem_of db t g :
  (t, g) ∈ select_transcript_gene self db →
  mkEdge g t 1 ∈ relations db ∧ select_subfeatures self db t ≠ [].
Proof.
  unfold select_transcript_gene.
  rewrite merge_sort_Permutation, elem_of_remove_dups, list_elem_of_bind.
  intros (t' & Hin & Ht').
  apply list_elem_of_bind in Hin as (e & Hin & He).
  case_bool_decide as Hte; [|by apply elem_of_nil in Hin].
  apply list_elem_of_singleton in Hin as [= <- ->].
  destruct Hte as [Ht Hl]. split.
  { destruct e as [p c l]. simpl in *. by subst. }
  unfold select_firstlevel in Ht'.
  rewrite elem_of_remove_dups, list_elem_of_bind in Ht'.
  destruct Ht' as (e1 & Hin & He1).
  apply list_elem_of_bind in Hin as (f & Hin & Hf).
  case_bool_decide as Hfe; [|by apply elem_of_nil in Hin].
  apply list_elem_of_singleton in Hin as ->.
  destruct Hfe as (Hid & Htype & Hlevel).
  intros Hnil.
  assert (f ∈ select_subfeatures self db (parent e1)) as Hsub; cycle 1.
  { rewrite Hnil in Hsub. by apply elem_of_nil in Hsub. }
  unfold select_subfeatures. apply list_elem_of_bind. exists f. split; [|done].
  apply list_elem_of_bind. exists e1. split; [|done].
  rewrite bool_decide_eq_true_2 by done. left.
Qed.

End derived_extent.

(** ** Pass 2 of the GTF driver *)

Section gtf_pass2.
Context `{PyRuntime, BinsModule}.
Variable self : Config.

Lemma keeps_insert_derived (I : State → Prop) `{!RecordInvariant I} f :
  preserves I (insert_derived self f).
Proof.
  unfold insert_derived. apply preserves_bind; [by apply keeps_id_handler|].
  intros [fid f']. apply preserves_try_except; [apply rec_execute_insert|].
  apply preserves_bind; [by apply keeps_do_merge|].
  intros [[fixed|] f'']; [apply rec_update_attributes|apply preserves_raise].
Qed.

(** X16.  Pass 2 of the GTF driver, whether it returns or raises, writes
    no edge: a derived transcript or gene has the edges that pass 1 gave its
    id, and no other. *)
Theorem gtf_pass2_writes_no_edge (st : State) :
  relations (conn (gtf_update_relations self st).2) = relations (conn st).
Proof.
  assert (RecordInvariant (λ s, relations (conn s) = relations (conn st))) as HI.
  { split; try (by intros; intros s).
    intros f s Hs. unfold execute_insert, mbind, M_bind, get_conn, sql_insert_feature.
    by case_decide. }
  assert (preserves (λ s, relations (conn s) = relations (conn st))
                    (gtf_update_relations self)) as Hp; [|by apply Hp].
  unfold gtf_update_relations. apply preserves_bind; [by intros s|].
  intros db. apply preserves_for_each. intros f _.
  by apply keeps_insert_derived.
Qed.

(** X17.  A derived record whose id is taken goes to [_do_merge] with the
    strategy of the user, and its attributes are then written to the row
    with the id of what [_do_merge] returns: [error] and an unknown strategy
    raise [ValueError]; [warning] returns nothing, and reading its
    attributes raises [AttributeError]; [replace] overwrites the attributes
    of the stored row; [create_unique] draws the counter named by the id
    and writes the attributes to the row "<id>_<n>", if there is one, so the
    derived record itself is not stored. *)
Theorem gtf_derived_collision (f : Feature) (st : State) (fid : string)
    (f' : Feature) (st1 : State) :
  _id_handler self f st = (Ok (fid, f'), st1) →
  fid ∈ ids (conn st) →
  match merge_strategy self with
  | MSError =>
      insert_derived self f st
      = (Raise (ValueError ("Duplicate ID " +:+ fid)), st1)
  | MSOther s =>
      insert_derived self f st
      = (Raise (ValueError ("Invalid merge strategy '" +:+ s +:+ "'")), st1)
  | MSWarning =>
      insert_derived self f st
      = (Raise (AttributeError "NoneType" "attributes"), st1)
  | MSReplace =>
      insert_derived self f st
      = (Ok (), with_conn (sql_update_attributes (attributes f') fid (conn st)) st1)
  | MSCreateUnique =>
      let n := S (default 0 (_autoincrements st1 !! fid)) in
      insert_derived self f st
      = (Ok (), with_conn
                  (sql_update_attributes (attributes f')
                     (fid +:+ "_" +:+ pretty n) (conn st))
                  (with_counters (<[fid := n]> (_autoincrements st1)) st1))
  | MSMerge =>
      ∃ r, sql_select_feature fid (conn st) = Some r
        ∧ insert_derived self f st
          = match list_find (λ k, getattr r k ≠ getattr (set_id fid f') k)
                            column_names with
            | Some _ =>
                (Raise (AssertionError merge_assert_fmt
                          (fid, current_item_number st, current_item st)), st1)
            | None =>
                (Ok (), with_conn
                          (sql_update_attributes
                             (merge_attributes (attributes r) (attributes f'))
                             (id r) (conn st)) st1)
            end
  end.
Proof.
  intros Hid Hdup.
  assert (∃ c, st1 = with_counters c st) as [c ->].
  { exists (_autoincrements st1). rewrite id_handler_frame in Hid.
    by injection Hid as _ <-. }
  assert (insert_derived self f st
          = ('(fixed, g) ← _do_merge self (set_id fid f');
             match fixed with
             | Some fixed =>
                 modify_conn (sql_update_attributes (attributes fixed) (id fixed))
             | None => raise (AttributeError "NoneType" "attributes")
             end) (with_counters c st)) as ->.
  { unfold insert_derived. erewrite bind_Ok by exact Hid. cbv beta iota zeta.
    erewrite try_except_caught; [done|]. by apply execute_insert_taken. }
  destruct (merge_strategy self) as [| | | | |s] eqn:Hms.
  - erewrite bind_Raise; [done|]. unfold _do_merge. by rewrite Hms.
  - erewrite bind_Ok; [|unfold _do_merge; by rewrite Hms]. done.
  - erewrite bind_Ok; [|unfold _do_merge; by rewrite Hms]. done.
  - destruct (sql_select_feature fid (conn st)) as [r|] eqn:Hsel; cycle 1.
    { exfalso. unfold sql_select_feature in Hsel.
      destruct (list_find _ _) as [[? ?]|] eqn:Hfind; [done|].
      apply list_find_None in Hfind. rewrite Forall_forall in Hfind.
      apply list_elem_of_fmap in Hdup as (r & -> & Hr). by apply (Hfind r). }
    exists r. split; [done|].
    rewrite (bind_unfold (_do_merge self _)), (do_merge_merge_eq self Hms).
    cbn [id set_id conn with_counters]. rewrite Hsel.
    by destruct (list_find _ column_names).
  - intros n. erewrite bind_Ok; cycle 1.
    { unfold _do_merge. rewrite Hms. by erewrite bind_Ok by done. }
    done.
  - erewrite bind_Raise; [done|]. unfold _do_merge. by rewrite Hms.
Qed.
End gtf_pass2.

(** * A further property of the writer *)

Module gffwriter_repeats.
Import gffwriter gffwriter_order gffwriter_facts.

Section repeats.
Context `{PyRuntime}.
Variable db : FeatureDB.
Variable rec : string → Feature.

(** X15.  [write_mRNA_children] asks [db.children] without a level, which
    gives every descendant.  A record that is among the children of an
    exon of the mRNA, and so among those of the mRNA, is written twice:
    after the exon, and again with the mRNA's other children. *)
Theorem write_mRNA_children_repeats_exon_children
    (mRNA_id : string) (e c : Feature) (out : list Feature) :
  (∀ c', c' ∈ children db mRNA_id None None → featuretype c' = "exon" →
     getitem db (id c') = Some (rec (id c'))) →
  e ∈ children db mRNA_id None None → featuretype e = "exon" →
  c ∈ children db (id e) None None →
  c ∈ children db mRNA_id None None → featuretype c ≠ "exon" →
  ∃ l1 l2 l3,
    write_mRNA_children db mRNA_id out = (Ok (), out ++ l1 ++ c :: l2 ++ c :: l3).
Proof.
  intros Hget He Hexon Hce Hcm Hc.
  rewrite (write_mRNA_children_append db rec) by done.
  unfold mRNA_block.
  destruct (sorted_exons_spec db mRNA_id) as (_ & _ & _ & Hkeys).
  specialize (Hkeys e He Hexon).
  apply list_elem_of_fmap in Hkeys as ([i s] & Hi & Hentry). simpl in Hi.
  assert (c ∈ sorted_exons db mRNA_id
              ≫= λ e', rec e'.1 :: children db e'.1 None None) as Hfirst.
  { apply list_elem_of_bind. exists (i, s). split; [|done].
    simpl. right. by rewrite <-Hi. }
  assert (c ∈ nonexonic_children db mRNA_id) as Hsecond.
  { unfold nonexonic_children. by apply list_elem_of_filter. }
  apply list_elem_of_split in Hfirst as (l1 & l2 & ->).
  apply list_elem_of_split in Hsecond as (l2' & l3 & ->).
  exists l1, (l2 ++ l2'), l3. by rewrite <-!app_assoc.
Qed.
End repeats.
End gffwriter_repeats.

(** ** Instances of the further properties *)

(** The creation of a store from one record without an ID. *)
Lemma create_stores_counters_witness :
  let self := examples.config MSMerge (SpecStr "ID") false in
  let r := @create (@creator_class ascending_runtime ucsc_bins gff3) self
             examples.gff_anonymous init_state in
  @create (@creator_class ascending_runtime ucsc_bins gff3) self
    examples.gff_anonymous init_state = (Ok (), r.2)
  ∧ autoincrements (conn r.2) = _autoincrements r.2.
Proof.
  cbv zeta.
  assert (@create (@creator_class ascending_runtime ucsc_bins gff3)
            (examples.config MSMerge (SpecStr "ID") false)
            examples.gff_anonymous init_state
          = (Ok (), (@create (@creator_class ascending_runtime ucsc_bins gff3)
                       (examples.config MSMerge (SpecStr "ID") false)
                       examples.gff_anonymous init_state).2)) as Hcreate.
  { vm_compute. reflexivity. }
  split; [exact Hcreate|].
  exact (@create_stores_counters ascending_runtime ucsc_bins gff3 _ _ _ _ Hcreate).
Defined.

(** The second of two records [x], under [error]. *)
Lemma gff_error_duplicate_raises_witness :
  let self := examples.config MSError (SpecStr "ID") false in
  let st := (@gff_populate_from_lines ascending_runtime self
               (take 1 examples.gff_conflict) init_state).2 in
  let f := examples.record "gene" 2 100 [("ID", ["x"])] in
  merge_strategy self = MSError
  ∧ _id_handler self f st = (Ok ("x", f), st)
  ∧ "x" ∈ ids (conn st)
  ∧ ∃ st2, @gff_populate_line ascending_runtime self 1 f st
           = (Raise (ValueError ("Duplicate ID " +:+ "x")), st2)
      ∧ conn st2 = conn st.
Proof.
  cbv zeta.
  set (self := examples.config MSError (SpecStr "ID") false).
  set (st := (@gff_populate_from_lines ascending_runtime self
                (take 1 examples.gff_conflict) init_state).2).
  set (f := examples.record "gene" 2 100 [("ID", ["x"])]).
  assert (_id_handler self f st = (Ok ("x", f), st)) as Hid.
  { vm_compute. reflexivity. }
  assert ("x" ∈ ids (conn st)) as Hdup.
  { apply (bool_decide_unpack _). vm_compute. exact I. }
  split_and!; [reflexivity|exact Hid|exact Hdup|].
  exact (@gff_error_duplicate_raises ascending_runtime self 1 f st "x" f st
           eq_refl Hid Hdup).
Defined.

(** The second of two records [x], which starts at 2, under [replace]: the
    stored row still starts at 1. *)
Lemma gff_replace_updates_attributes_only_witness :
  let self := examples.config MSReplace (SpecStr "ID") false in
  let st := (@gff_populate_from_lines ascending_runtime self
               (take 1 examples.gff_conflict) init_state).2 in
  let f := examples.record "gene" 2 100 [("ID", ["x"]); ("Name", ["n"])] in
  merge_strategy self = MSReplace
  ∧ _id_handler self f st = (Ok ("x", f), st)
  ∧ "x" ∈ ids (conn st)
  ∧ ∃ st2, @gff_populate_line ascending_runtime self 1 f st = (Ok (), st2)
      ∧ features (conn st2)
        = (λ r, if decide (id r = "x") then set_attributes (attributes f) r else r)
            <$> features (conn st)
      ∧ ∀ P, P ∈ attr_get "Parent" (attributes f) →
             mkEdge P "x" 1 ∈ relations (conn st2).
Proof.
  cbv zeta.
  set (self := examples.config MSReplace (SpecStr "ID") false).
  set (st := (@gff_populate_from_lines ascending_runtime self
                (take 1 examples.gff_conflict) init_state).2).
  set (f := examples.record "gene" 2 100 [("ID", ["x"]); ("Name", ["n"])]).
  assert (_id_handler self f st = (Ok ("x", f), st)) as Hid.
  { vm_compute. reflexivity. }
  assert ("x" ∈ ids (conn st)) as Hdup.
  { apply (bool_decide_unpack _). vm_compute. exact I. }
  split_and!; [reflexivity|exact Hid|exact Hdup|].
  exact (@gff_replace_updates_attributes_only ascending_runtime self 1 f st "x" f st
           eq_refl Hid Hdup).
Defined.

(** The second of two records [x], under [create_unique]: it is stored as
    [x_1]. *)
Lemma gff_create_unique_renames_witness :
  let self := examples.config MSCreateUnique (SpecStr "ID") false in
  let st := (@gff_populate_from_lines ascending_runtime self
               (take 1 examples.gff_conflict) init_state).2 in
  let f := examples.record "gene" 2 100 [("ID", ["x"]); ("Parent", ["p"])] in
  merge_strategy self = MSCreateUnique
  ∧ _id_handler self f st = (Ok ("x", f), st)
  ∧ "x" ∈ ids (conn st)
  ∧ ∃ st2, @gff_populate_line ascending_runtime self 1 f st = (Ok (), st2)
      ∧ ids (conn st2) = ["x"; "x_1"]
      ∧ mkEdge "p" "x_1" 1 ∈ relations (conn st2).
Proof.
  cbv zeta.
  set (self := examples.config MSCreateUnique (SpecStr "ID") false).
  set (st := (@gff_populate_from_lines ascending_runtime self
                (take 1 examples.gff_conflict) init_state).2).
  set (f := examples.record "gene" 2 100 [("ID", ["x"]); ("Parent", ["p"])]).
  assert (_id_handler self f st = (Ok ("x", f), st)) as Hid.
  { vm_compute. reflexivity. }
  assert ("x" ∈ ids (conn st)) as Hdup.
  { apply (bool_decide_unpack _). vm_compute. exact I. }
  split_and!; [reflexivity|exact Hid|exact Hdup|].
  destruct (@gff_create_unique_renames ascending_runtime self 1 f st "x" f st
              eq_refl Hid Hdup) as (st2 & _ & Hrun).
  rewrite decide_False in Hrun
    by (intros Hin; apply (bool_decide_pack _) in Hin; vm_compute in Hin; exact Hin).
  destruct Hrun as (Hrun & Hfeat & Hedges).
  exists st2. split_and!; [exact Hrun| |].
  - unfold ids. rewrite Hfeat. vm_compute. reflexivity.
  - apply Hedges. vm_compute. left.
Defined.

(** The chain a ← b ← c ← d, which has no id twice, created under [error]
    and under [merge]. *)
Lemma error_is_strictest_witness :
  let self := examples.config MSError (SpecStr "ID") false in
  let st' := (@create (@creator_class ascending_runtime ucsc_bins gff3) self
                examples.gff_chain init_state).2 in
  merge_strategy self = MSError
  ∧ @create (@creator_class ascending_runtime ucsc_bins gff3) self
      examples.gff_chain init_state = (Ok (), st')
  ∧ @create (@creator_class ascending_runtime ucsc_bins gff3)
      (with_strategy MSMerge self) examples.gff_chain init_state = (Ok (), st').
Proof.
  cbv zeta.
  assert (@create (@creator_class ascending_runtime ucsc_bins gff3)
            (examples.config MSError (SpecStr "ID") false)
            examples.gff_chain init_state
          = (Ok (), (@create (@creator_class ascending_runtime ucsc_bins gff3)
                       (examples.config MSError (SpecStr "ID") false)
                       examples.gff_chain init_state).2)) as Hcreate.
  { vm_compute. reflexivity. }
  split_and!; [reflexivity|exact Hcreate|].
  exact (proj2 (@error_is_strictest ascending_runtime ucsc_bins
                  (examples.config MSError (SpecStr "ID") false) MSMerge eq_refl
                  gff3 examples.gff_chain init_state _) Hcreate).
Defined.

(** The chain a ← b ← c ← d, created. *)
Lemma gff_create_closure_exact_witness :
  let self := examples.config MSMerge (SpecStr "ID") false in
  let st' := (@create (@_GFFDBCreator ascending_runtime) self
                examples.gff_chain init_state).2 in
  @create (@_GFFDBCreator ascending_runtime) self examples.gff_chain init_state
  = (Ok (), st')
  ∧ Forall plain_edge (relations (conn st'))
  ∧ (∀ e, e ∈ relations (conn st') → level e = 1 ∨ level e = 2)
  ∧ ∀ p g, mkEdge p g 2 ∈ relations (conn st') ↔
           p ∈ ids (conn st')
           ∧ ∃ c, mkEdge p c 1 ∈ relations (conn st')
                  ∧ mkEdge c g 1 ∈ relations (conn st').
Proof.
  cbv zeta.
  assert (@create (@_GFFDBCreator ascending_runtime)
            (examples.config MSMerge (SpecStr "ID") false)
            examples.gff_chain init_state
          = (Ok (), (@create (@_GFFDBCreator ascending_runtime)
                       (examples.config MSMerge (SpecStr "ID") false)
                       examples.gff_chain init_state).2)) as Hcreate.
  { vm_compute. reflexivity. }
  assert (Forall plain_edge
            (relations (conn (@create (@_GFFDBCreator ascending_runtime)
                                (examples.config MSMerge (SpecStr "ID") false)
                                examples.gff_chain init_state).2))) as Hplain.
  { apply (bool_decide_unpack _). vm_compute. exact I. }
  split; [exact Hcreate|]. split; [exact Hplain|].
  exact (@gff_create_closure_exact ascending_runtime _ _ _ _ Hcreate Hplain).
Defined.

(** A callable that returns nothing. *)
Lemma callable_candidate_ends_search_witness :
  let fn : Feature → option string := λ _, None in
  let self := examples.config MSError (SpecCall fn) false in
  let f := examples.record "gene" 1 100 [("ID", ["a"])] in
  (id_spec self = SpecCall fn ∨ id_spec self = SpecSeq [KeyCall fn])
  ∧ ∃ msg, _id_handler self f init_state = (Raise (TypeError msg), init_state).
Proof.
  cbv zeta. split; [by left|].
  exact (callable_candidate_ends_search
           (examples.config MSError (SpecCall (λ _, None)) false) (λ _, None) []
           (examples.record "gene" 1 100 [("ID", ["a"])]) init_state
           (or_introl eq_refl)).
Defined.

(** The gene line [G1] of a GTF file, into the empty store: it gets the edge
    [(G1, G1, 2)]. *)
Lemma gtf_line_edges_witness :
  let self := examples.config MSError (default_id_spec gtf None) false in
  let f := examples.record "gene" 100 150 [("gene_id", ["G1"])] in
  _id_handler self f init_state = (Ok ("G1", f), init_state)
  ∧ ("G1" ∉ ids (conn init_state))
  ∧ attr_lookup (transcript_key self) (attributes f) ≠ Some []
  ∧ ∃ st2, @gtf_populate_line ascending_runtime self 0 f init_state = (Ok (), st2)
      ∧ features (conn st2) = [set_id "G1" f]
      ∧ ∀ e, e ∈ relations (conn st2) ↔ e = mkEdge "G1" "G1" 2.
Proof.
  cbv zeta.
  set (self := examples.config MSError (default_id_spec gtf None) false).
  set (f := examples.record "gene" 100 150 [("gene_id", ["G1"])]).
  assert (_id_handler self f init_state = (Ok ("G1", f), init_state)) as Hid.
  { vm_compute. reflexivity. }
  assert ("G1" ∉ ids (conn init_state)) as Hfree by (by intros ?%elem_of_nil).
  assert (attr_lookup (transcript_key self) (attributes f) ≠ Some []) as HT by done.
  split_and!; [exact Hid|exact Hfree|exact HT|].
  destruct (@gtf_line_edges ascending_runtime self 0 f init_state "G1" f init_state
              Hid Hfree HT) as (st2 & Hrun & Hfeat & Hedges).
  exists st2. split_and!; [exact Hrun|exact Hfeat|].
  intros e. rewrite Hedges. split.
  - intros [[]%elem_of_nil|[(t & [=] & _)|[(g & [= <-] & ->)|(g & t & _ & [=] & _)]]].
    done.
  - intros ->. right. right. left. by exists "G1".
Defined.


(** The CDS [c] of the exon [e3] of the transcript [m2]. *)
Lemma write_mRNA_children_repeats_exon_children_witness :
  let db := examples.gene_db in
  let e := set_id "e3" (examples.record "exon" 1 40 []) in
  let c := set_id "c" (examples.record "CDS" 5 40 []) in
  Forall (λ c', featuretype c' = "exon" →
                gffwriter.getitem db (id c') = Some (examples.gene_rec (id c')))
         (gffwriter.children db "m2" None None)
  ∧ e ∈ gffwriter.children db "m2" None None
  ∧ featuretype e = "exon"
  ∧ c ∈ gffwriter.children db (id e) None None
  ∧ c ∈ gffwriter.children db "m2" None None
  ∧ featuretype c ≠ "exon"
  ∧ ∃ l1 l2 l3,
      @gffwriter.write_mRNA_children ascending_runtime db "m2" []
      = (Ok (), [] ++ l1 ++ c :: l2 ++ c :: l3).
Proof.
  cbv zeta.
  set (db := examples.gene_db).
  set (e := set_id "e3" (examples.record "exon" 1 40 [])).
  set (c := set_id "c" (examples.record "CDS" 5 40 [])).
  assert (Forall (λ c', featuretype c' = "exon" →
                        gffwriter.getitem db (id c') = Some (examples.gene_rec (id c')))
                 (gffwriter.children db "m2" None None)) as Hget.
  { apply (bool_decide_unpack _). vm_compute. exact I. }
  assert (e ∈ gffwriter.children db "m2" None None) as He.
  { apply (bool_decide_unpack _). vm_compute. exact I. }
  assert (c ∈ gffwriter.children db (id e) None None) as Hce.
  { apply (bool_decide_unpack _). vm_compute. exact I. }
  assert (c ∈ gffwriter.children db "m2" None None) as Hcm.
  { apply (bool_decide_unpack _). vm_compute. exact I. }
  assert (featuretype c ≠ "exon") as Hc by done.
  split_and!; [exact Hget|exact He|reflexivity|exact Hce|exact Hcm|exact Hc|].
  apply (@gffwriter_repeats.write_mRNA_children_repeats_exon_children
           ascending_runtime db examples.gene_rec "m2" e c []);
    [|exact He|reflexivity|exact Hce|exact Hcm|exact Hc].
  rewrite Forall_forall in Hget. exact Hget.
Defined.

(** The derived gene [G1] meets the gene line [G1], under [warning]. *)
Lemma gtf_derived_collision_witness :
  let self := examples.config MSWarning (default_id_spec gtf None) false in
  let st := (@gtf_populate_from_lines ascending_runtime self
               examples.gtf_gene_and_exon init_state).2 in
  let f := examples.record "gene" 100 150 [("gene_id", ["G1"])] in
  _id_handler self f st = (Ok ("G1", f), st)
  ∧ "G1" ∈ ids (conn st)
  ∧ @insert_derived ascending_runtime self f st
    = (Raise (AttributeError "NoneType" "attributes"), st).
Proof.
  cbv zeta.
  set (self := examples.config MSWarning (default_id_spec gtf None) false).
  set (st := (@gtf_populate_from_lines ascending_runtime self
                examples.gtf_gene_and_exon init_state).2).
  set (f := examples.record "gene" 100 150 [("gene_id", ["G1"])]).
  assert (_id_handler self f st = (Ok ("G1", f), st)) as Hid.
  { vm_compute. reflexivity. }
  assert ("G1" ∈ ids (conn st)) as Hdup.
  { apply (bool_decide_unpack _). vm_compute. exact I. }
  split_and!; [exact Hid|exact Hdup|].
  exact (@gtf_derived_collision ascending_runtime self f st "G1" f st Hid Hdup).
Defined.
